(** * bigquery-porter: deployment planner, task primitive and reconciliation

    A shallow embedding of the parts of the repository that the
    specification talks about and of the functions around them, followed
    by the proofs:

    - [TopoSort]: [topologicalSort];
    - [TaskModel]: the class [Task] of the reporter;
    - [Planner]: [extractBigQueryDependencies],
      [extractBigQueryDestinations] and the plan that
      [pushBigQueryResourecs] builds;
    - [Scheduler]: the closures of the planned tasks and the limiter that
      runs them;
    - [Executor]: [deployBigQueryResouce] for a file [view.sql];
    - [Cleanup]: [cleanupBigQueryDataset];
    - [PlanCheck]: the warnings that [pushBigQueryResourecs] prints about
      its plan;
    - [CleanupAll]: [createCleanupTasks];
    - [SqlTree]: [extractDestinations] and [extractRefenrences] on the
      tree that the parser returns;
    - [Report]: the class [Reporter];
    - [Cli]: the parameters and labels of the [push] command.

    A JavaScript string is the sequence of the bytes of its UTF-8
    encoding, and paths are POSIX paths.
    JavaScript [Map<string, _>] objects that are only read with [get] and
    written with [set] are [gmap string _]; JavaScript [Set] objects,
    [Map] objects that are iterated and arrays are lists kept in insertion
    order.  Functions that await calls to the warehouse are trees of calls
    ([Effects.Prog]), run against any world that answers the calls. *)

From Stdlib Require Import ZArith Ascii String.
From stdpp Require Import base tactics option list strings gmap relations.

Local Open Scope string_scope.
Local Open Scope list_scope.
Local Open Scope Z_scope.

(** ** JavaScript strings

    A string is the sequence of the bytes of its UTF-8 encoding. *)

Module JsString.

(** The string whose bytes have the given codes. *)
Definition bytes (codes : list nat) : string :=
  string_of_list_ascii (ascii_of_nat <$> codes).

(** The white space and the line terminators of ECMAScript, which [trim]
    and the class [\s] of a regular expression take off, in UTF-8. *)
Definition white_space : list string :=
  bytes <$>
    ([[9]; [10]; [11]; [12]; [13]; [32];              (* TAB LF VT FF CR SP *)
      [194; 160]; [225; 154; 128]]                    (* U+00A0, U+1680 *)
     ++ ((λ k, [226; 128; 128 + k]) <$> seq 0 11)     (* U+2000 to U+200A *)
     ++ [[226; 128; 168]; [226; 128; 169];            (* U+2028, U+2029 *)
         [226; 128; 175]; [226; 129; 159];            (* U+202F, U+205F *)
         [227; 128; 128]; [239; 187; 191]])%nat.      (* U+3000, U+FEFF *)

(** [s] without [w] in front of it, when it begins with [w]. *)
Fixpoint strip_prefix (w s : list ascii) : option (list ascii) :=
  match w, s with
  | [], _ => Some s
  | a :: w', b :: s' => if decide (a = b) then strip_prefix w' s' else None
  | _ :: _, [] => None
  end.

(** [s] without the first of the sequences [ws] that it begins with. *)
Definition after_space (ws : list (list ascii)) (s : list ascii)
  : option (list ascii) :=
  head (omap (λ w, strip_prefix w s) ws).

(** Sequences of [ws] are taken off the front of [s] as long as there is
    one; each pass takes at least one byte off, so that the length of [s]
    is fuel enough. *)
Fixpoint trim_from (ws : list (list ascii)) (fuel : nat) (s : list ascii)
  : list ascii :=
  match fuel with
  | O => s
  | S fuel' =>
      match after_space ws s with
      | Some s' => trim_from ws fuel' s'
      | None => s
      end
  end.

(** [s.trimStart()] *)
Definition trimStart (s : string) : string :=
  let l := list_ascii_of_string s in
  string_of_list_ascii
    (trim_from (list_ascii_of_string <$> white_space) (length l) l).

(** [s.trimEnd()]: the same from the other end. *)
Definition trimEnd (s : string) : string :=
  let l := reverse (list_ascii_of_string s) in
  string_of_list_ascii
    (reverse
       (trim_from ((λ w, reverse (list_ascii_of_string w)) <$> white_space)
          (length l) l)).

(** [s.trim()] *)
Definition trim (s : string) : string := trimEnd (trimStart s).




(** [s.startsWith(p)] *)
Definition startsWith (s p : string) : bool := String.prefix p s.

(** [s.endsWith(p)]: [s] is [p], or what follows its first character
    ends with [p]. *)
Fixpoint endsWith (s p : string) : bool :=
  if String.eqb s p then true
  else match s with
       | EmptyString => false
       | String _ s' => endsWith s' p
       end.

(** [s.toUpperCase()] on the letters of ASCII. *)
Definition upper (c : ascii) : ascii :=
  let n := nat_of_ascii c in
  if (97 <=? n)%nat && (n <=? 122)%nat then ascii_of_nat (n - 32) else c.

Fixpoint toUpperCase (s : string) : string :=
  match s with
  | EmptyString => EmptyString
  | String c s' => String (upper c) (toUpperCase s')
  end.

(** [s.includes(p)], also [s.match(/p/)] for a pattern without
    metacharacters. *)
Fixpoint includes (s p : string) : bool :=
  String.prefix p s ||
  match s with
  | EmptyString => false
  | String _ s' => includes s' p
  end.

(** [s.split(c)] for a one-character separator. *)
Fixpoint split (c : ascii) (s : string) : list string :=
  match s with
  | EmptyString => [EmptyString]
  | String a s' =>
      if Ascii.eqb a c then EmptyString :: split c s'
      else match split c s' with
           | [] => [String a EmptyString]
           | w :: ws => String a w :: ws
           end
  end.

(** [xs.join(sep)] *)
Definition join (sep : string) (xs : list string) : string :=
  String.concat sep xs.

(** [s.replace(/p/, r)] for a pattern without metacharacters: the first
    occurrence only. *)
Fixpoint replace_first (s p r : string) : string :=
  if String.prefix p s
  then r +:+ String.substring (String.length p) (String.length s - String.length p) s
  else match s with
       | EmptyString => EmptyString
       | String a s' => String a (replace_first s' p r)
       end.

(** The segments of a path once the empty ones and [.] are dropped and
    [..] has taken back the segment before it; at the root [..] stays at
    the root. *)
Definition segments (p : string) : list string :=
  foldl (λ acc seg,
           if decide (seg = "" ∨ seg = ".") then acc
           else if decide (seg = "..") then List.removelast acc
           else acc ++ [seg])
        [] (split "/" p).

(** [path.resolve(p)] of POSIX, as the segments below the root; [cwd] is
    the working directory, an absolute path. *)
Definition resolve (cwd p : string) : list string :=
  segments (if startsWith p "/" then p else cwd +:+ "/" +:+ p).

(** From the directory [from] to [to], both resolved: up from what is
    left of [from] after the segments they share, then down [to]. *)
Fixpoint relative_segments (from to : list string) : list string :=
  match from, to with
  | a :: from', b :: to' =>
      if decide (a = b) then relative_segments from' to'
      else ((λ _, "..") <$> from) ++ to
  | _, _ => ((λ _, "..") <$> from) ++ to
  end.

(** [path.relative(from, to)] of POSIX. *)
Definition relative (cwd from to : string) : string :=
  join "/" (relative_segments (resolve cwd from) (resolve cwd to)).

(** [path.basename(p)] and [path.dirname(p)] on paths written with [/]. *)
Definition basename (p : string) : string := List.last (split "/" p) EmptyString.

Definition dirname (p : string) : string :=
  match List.removelast (split "/" p) with
  | [] => "."
  | ds => join "/" ds
  end.

End JsString.

(** ** JavaScript containers kept in insertion order *)

Module JsSet.

Section ordered_set.
Context {A : Type} `{EqDecision A}.

(** [s.add(x)]: a no-op when [x] is present, else [x] goes last. *)
Definition add (x : A) (s : list A) : list A :=
  if decide (x ∈ s) then s else s ++ [x].

(** [s.delete(x)]. *)
Definition delete (x : A) (s : list A) : list A :=
  filter (λ y, y ≠ x) s.

(** [new Set(xs)]: the elements of [xs], first occurrences only. *)
Definition of_list (xs : list A) : list A :=
  foldl (λ s x, add x s) [] xs.

End ordered_set.

(** [xs.pop()]: the last element, or [None] on the empty array, and the
    array that is left. *)
Definition pop {A} (xs : list A) : option A * list A :=
  match reverse xs with
  | [] => (None, [])
  | x :: r => (Some x, reverse r)
  end.

End JsSet.

(** ** The topological sorter ([topologicalSort]) *)

Module TopoSort.

(** [type Relation = [string, string]]: the dependent first, then what it
    depends on. *)
Abbreviation Relation := (string * string)%type.

(** [E.get(n) ?? 0] *)
Definition E_get (E : gmap string Z) (n : string) : Z := default 0 (E !! n).

(** [G.get(n) ?? []] *)
Definition G_get (G : gmap string (list string)) (n : string) : list string :=
  default [] (G !! n).

(** The accumulator [[E, G, N]] of the [reduce] over the relations. *)
Record graph := Graph {
  gE : gmap string Z;
  gG : gmap string (list string);
  gN : list string
}.

Definition graph_step (acc : graph) (r : Relation) : graph :=
  let '(src, dst) := r in
  {| gE := <[src := 1 + E_get (gE acc) src]> (gE acc);
     gG := <[dst := JsSet.of_list (src :: G_get (gG acc) dst)]> (gG acc);
     gN := JsSet.add src (JsSet.add dst (gN acc)) |}.

Definition build (relations : list Relation) : graph :=
  foldl graph_step {| gE := ∅; gG := ∅; gN := [] |} relations.

(** The mutable variables of the [while] loop. *)
Record state := State {
  st_E : gmap string Z;
  st_N : list string;
  st_S : list string;
  st_L : list string
}.

(** [(G.get(tgt) ?? []).forEach((n) => E.set(n, -1 + (E.get(n) ?? 0)))] *)
Definition decrement (E : gmap string Z) (ns : list string) : gmap string Z :=
  foldl (λ E n, <[n := -1 + E_get E n]> E) E ns.

(** [[...N].filter(ready).reduce((ret, n) => { N.delete(n); return [n, ...ret] }, S)]:
    the pair of the new [S] and the updated [N]. *)
Definition refill (ready : list string) (S0 N0 : list string)
  : list string * list string :=
  foldl (λ '(ret, N') n, (n :: ret, JsSet.delete n N')) (S0, N0) ready.

Inductive flow := Continue (st : state) | Break (st : state).

(** One pass through the body of the [while] loop; [S.length > 0] has
    been checked by the caller. *)
Definition body (G : gmap string (list string)) (st : state) : flow :=
  let '(tgt, S1) := JsSet.pop (st_S st) in
  match tgt with
  | None => Break (State (st_E st) (st_N st) S1 (st_L st))
  | Some tgt =>
      if decide (tgt = "") then Break (State (st_E st) (st_N st) S1 (st_L st))
      else
        let L1 := JsSet.add tgt (st_L st) in
        let E1 := decrement (st_E st) (G_get G tgt) in
        let ready := filter (λ n, E_get E1 n ≤ 0) (st_N st) in
        let '(S2, N2) := refill ready S1 (st_N st) in
        Continue (State E1 N2 S2 L1)
  end.

(** The [while] loop; [None] when the fuel runs out. *)
Fixpoint while (fuel : nat) (G : gmap string (list string)) (st : state)
  : option state :=
  match st_S st with
  | [] => Some st
  | _ :: _ =>
      match fuel with
      | O => None
      | S fuel' =>
          match body G st with
          | Continue st' => while fuel' G st'
          | Break st' => Some st'
          end
      end
  end.

(** The state on entry to the loop. *)
Definition init (g : graph) : state :=
  let S0 := filter (λ n, E_get (gE g) n = 0) (gN g) in
  {| st_E := gE g;
     st_N := foldl (λ N' n, JsSet.delete n N') (gN g) S0;
     st_S := S0;
     st_L := [] |}.

(** The state in which the loop is left. *)
Definition run (relations : list Relation) : option state :=
  let g := build relations in
  while (length (gN g)) (gG g) (init g).

Inductive result :=
| Return (order : list string)
| Throw (message : string).

Definition cycle_message (residual : list string) : string :=
  "Cycle detected: " +:+ JsString.join ", " residual.

Definition finish (st : state) : result :=
  match st_N st with
  | [] => Return (st_L st)
  | _ :: _ => Throw (cycle_message (st_N st))
  end.

Definition topologicalSort (relations : list Relation) : option result :=
  finish <$> run relations.

End TopoSort.

(** ** Vocabulary for the sorter's specification *)

Module TopoSpec.
Import TopoSort.

(** [edge rel s d]: the list holds the relation [[s, d]] (s depends on d). *)
Definition edge (rel : list Relation) (s d : string) : Prop := (s, d) ∈ rel.

#[global] Instance edge_dec rel s d : Decision (edge rel s d).
Proof. unfold edge. apply _. Defined.

(** The nodes of the graph: every first and second component. *)
Definition is_node (rel : list Relation) (n : string) : Prop :=
  ∃ e, e ∈ rel ∧ (n = e.1 ∨ n = e.2).

(** A directed cycle: some node reaches itself along at least one edge. *)
Definition cyclic (rel : list Relation) : Prop := ∃ n, tc (edge rel) n n.

(** A node from which a cycle can be reached. *)
Definition reaches_cycle (rel : list Relation) (n : string) : Prop :=
  ∃ m, rtc (edge rel) n m ∧ tc (edge rel) m m.

(** [x] occurs in [l] strictly before [y]. *)
Definition before (l : list string) (x y : string) : Prop :=
  ∃ l1 l2 l3, l = l1 ++ x :: l2 ++ y :: l3.

(** Relations still counted against [n]: those whose target has not been
    extracted into [L]. *)
Definition pending (rel : list Relation) (L : list string) (n : string) : list Relation :=
  filter (λ e, e.1 = n ∧ e.2 ∉ L) rel.

(** No node is the empty string (which JavaScript treats as false). *)
Definition named (rel : list Relation) : Prop := ∀ n, is_node rel n → n ≠ "".

(** Every element of [L] comes after all the nodes it depends on. *)
Definition ordered (rel : list Relation) (L : list string) : Prop :=
  ∀ l1 s l2 d, L = l1 ++ s :: l2 → edge rel s d → d ∈ l1.

(** The loop invariant, for a relation list without repetitions. *)
Record Inv (rel : list Relation) (st : state) : Prop := {
  inv_nodup : NoDup (st_N st ++ st_S st ++ st_L st);
  inv_nodes : ∀ n, n ∈ st_N st ++ st_S st ++ st_L st ↔ is_node rel n;
  inv_count : ∀ n, E_get (st_E st) n = Z.of_nat (length (pending rel (st_L st) n));
  inv_wait : ∀ n, n ∈ st_N st → 0 < E_get (st_E st) n;
  inv_ready : ∀ n, n ∈ st_S st ++ st_L st → E_get (st_E st) n = 0;
  inv_order : ordered rel (st_L st)
}.

(** The nodes in the order in which they first appear in the list, the
    second component of a relation before the first. *)
Definition first_seen (rel : list Relation) : list string :=
  JsSet.of_list (rel ≫= λ e, [e.2; e.1]).

(** The nodes that depend on nothing. *)
Definition ready_at_start (rel : list Relation) : list string :=
  filter (λ n, n ∉ rel.*1) (first_seen rel).

(** What stands in [l] before the first [t]. *)
Fixpoint prior (l : list string) (t : string) : list string :=
  match l with
  | [] => []
  | x :: l' => if decide (x = t) then [] else x :: prior l' t
  end.

(** The nodes that have [t] for the last of their dependencies in
    [order]: they depend on [t], and on nothing else but what stands
    before [t]. *)
Definition woken (rel : list Relation) (order : list string) (t : string)
  : list string :=
  filter (λ n, edge rel n t ∧
               Forall (λ e : Relation, e.1 = n → e.2 = t ∨ e.2 ∈ prior order t) rel)
         (first_seen rel).

(** The worklist is a queue: what has been extracted, followed by what
    waits in [S] from its end to its front, is the nodes that were ready
    at the start, the last first, followed by what each extracted node
    has woken; and [N] keeps the order of first appearance. *)
Definition queue (rel : list Relation) (st : state) : Prop :=
  st_N st = filter (λ n, n ∈ st_N st) (first_seen rel) ∧
  st_L st ++ reverse (st_S st) =
    reverse (ready_at_start rel) ++ (st_L st ≫= woken rel (st_L st)).

(** Small graphs used as concrete inputs. *)

Definition chain_example : list Relation := [("a", "b"); ("b", "c"); ("a", "c")].

Definition chain_rank (n : string) : nat :=
  if decide (n = "a") then 2 else if decide (n = "b") then 1 else 0.

Definition repeated_example : list Relation := [("a", "b"); ("a", "b")].

Definition cycle_example : list Relation :=
  [("x", "y"); ("y", "x"); ("z", "x"); ("w", "q")].

Definition unnamed_example : list Relation := [("a", "")].

Definition tie_example_1 : list Relation := [("a", "#"); ("b", "#")].

Definition tie_example_2 : list Relation := [("b", "#"); ("a", "#")].

Definition two_ready_example : list Relation := [("a", "x"); ("b", "y")].

End TopoSpec.

(** ** The task primitive (the class [Task]) *)

Module TaskModel.

Inductive Status := pending | running | success | failed.

#[global] Instance Status_eq_dec : EqDecision Status.
Proof. solve_decision. Defined.

(** A value thrown or a reason of rejection, as far as [run] looks at it:
    its [message], when it has one and it is a string. *)
Record Thrown := Error { reason_message : option string }.

(** How a promise of type [TaskJob = Promise<string | undefined>] stands. *)
Inductive Promise :=
| Unsettled
| Fulfilled (msg : option string)
| Rejected (e : Thrown).

(** How a promise ends. *)
Inductive Settlement :=
| Resolves (msg : option string)
| Rejects (e : Thrown).

(** The fields of a [Task] object; [job] is code and [spin] only serves the
    display.  [runningPromise] is [None] while the field is [undefined]. *)
Record Task := {
  name : string;
  status : Status;
  runningPromise : option Promise;
  error : option string;
  message : option string
}.

(** [new Task(name, job)] *)
Definition new_Task (name : string) : Task :=
  {| name := name; status := pending; runningPromise := None;
     error := None; message := None |}.

(** [run()] up to its [await]: nothing when the status is not [pending],
    else the status becomes [running] and [job()] is called, whose promise
    is stored. *)
Definition run_start (t : Task) : Task :=
  match status t with
  | pending =>
      {| name := name t; status := running; runningPromise := Some Unsettled;
         error := error t; message := message t |}
  | _ => t
  end.

(** The callback given to [then]. *)
Definition on_fulfilled (msg : option string) (t : Task) : Task :=
  {| name := name t; status := success; runningPromise := Some (Fulfilled msg);
     error := error t; message := msg |}.

(** The callback given to [catch]: the status is set first, and
    [e.message.trim()] raises a [TypeError] when [e] has no message, which
    leaves [error] as it was. *)
Definition on_rejected (e : Thrown) (t : Task) : Task :=
  {| name := name t; status := failed; runningPromise := Some (Rejected e);
     error := match reason_message e with
              | Some m => Some (JsString.trim m)
              | None => error t
              end;
     message := message t |}.

Definition settle (o : Settlement) (t : Task) : Task :=
  match o with
  | Resolves msg => on_fulfilled msg t
  | Rejects e => on_rejected e t
  end.


(** [done()] *)
Definition done (t : Task) : bool := bool_decide (status t ∈ [success; failed]).

(** What can happen to one task: [run()] is called, or the promise that
    [job()] returned settles. *)
Inductive event :=
| Run
| Settle (o : Settlement).

(** [None]: the event cannot happen; a promise settles once, and only a
    promise that exists. *)
Definition step (t : Task) (ev : event) : option Task :=
  match ev with
  | Run => Some (run_start t)
  | Settle o =>
      match runningPromise t with
      | Some Unsettled => Some (settle o t)
      | _ => None
      end
  end.

Fixpoint steps (t : Task) (evs : list event) : option Task :=
  match evs with
  | [] => Some t
  | ev :: evs' =>
      match step t ev with
      | Some t' => steps t' evs'
      | None => None
      end
  end.


(** [pending] comes first, [running] second, [success] and [failed] last. *)
Definition rank (s : Status) : nat :=
  match s with pending => 0 | running => 1 | success | failed => 2 end.


End TaskModel.

(** ** The deployment planner ([pushBigQueryResourecs]) *)

Module Planner.
Import TopoSort.

(** [type BigQueryJobResource] *)
Record BigQueryJobResource := {
  file : string;
  namespace : string;
  dependencies : list string;
  destinations : list string
}.

#[global] Instance BigQueryJobResource_eq_dec : EqDecision BigQueryJobResource.
Proof. solve_decision. Defined.

(** [n.replace(/\.[^.]+$/, '')]: a last dotted segment that is not empty
    is cut off with its dot. *)
Definition strip_last_segment (n : string) : string :=
  match reverse (JsString.split "." n) with
  | last :: (_ :: _) as rest =>
      if decide (last = "") then n else JsString.join "." (reverse rest)
  | _ => n
  end.

Section analysis.

(** What [src/bigquery.js], the SQL parser and the file system give.
    [extractRefenrences] and [extractDestinations] walk the tree that the
    parser returns for a text; here they are given by what they return. *)
Variable path2bq : string → string → string → string.
Variable normalizedBQPath : string → string → bool → string.
Variable extractRefenrences : string → list string.
Variable extractDestinations : string → list (string * string).
Variable readFile : string → string.

Variables (rootPath defaultProjectId : string).

Definition extractBigQueryDependencies (fpath : string) : list string :=
  let parts := JsString.split "." (path2bq fpath rootPath defaultProjectId) in
  let projectID := default "" (parts !! 0%nat) in
  let sql := readFile fpath in
  let refs :=
    JsSet.of_list
      ((λ ref, normalizedBQPath ref projectID false) <$> extractRefenrences sql) in
  let refs_schemas := strip_last_segment <$> JsSet.of_list refs in
  let additionals :=
    match parts !! 1%nat, parts !! 2%nat with
    | Some schema, Some _ => [normalizedBQPath schema projectID true]
    | _, _ => []
    end in
  JsSet.of_list (refs_schemas ++ refs ++ additionals).

Definition extractBigQueryDestinations (fpath : string) : list string :=
  let bqID := path2bq fpath rootPath defaultProjectId in
  let projectID := default "" (JsString.split "." bqID !! 0%nat) in
  if JsString.endsWith fpath "view.sql" then [bqID]
  else
    JsSet.of_list
      ((λ '(ref, type), normalizedBQPath ref projectID (bool_decide (type = "SCHEMA")))
         <$> extractDestinations (readFile fpath)).

(** The object built for the file [n] by the [map] over [files].  In the
    source the parameter of the callback given to [filter] is called [n]
    as well, and hides the file. *)
Definition job_resource (n : string) : BigQueryJobResource :=
  {| file := n;
     namespace := path2bq n rootPath defaultProjectId;
     dependencies :=
       filter (λ n, n ≠ path2bq n rootPath defaultProjectId)
              (extractBigQueryDependencies n);
     destinations := extractBigQueryDestinations n |}.

Definition results (files : list string) : list BigQueryJobResource :=
  job_resource <$> files.

End analysis.

Definition sentinal : string := "#sentinal".

(** The set of [JSON.stringify([a, b])] strings, as the pairs they encode. *)
Definition relations_step (ret : list Relation) (r : BigQueryJobResource)
  : list Relation :=
  let ret := JsSet.add (namespace r, sentinal) ret in
  foldl
    (λ ret dst,
       let ret := JsSet.add (dst, sentinal) ret in
       foldl (λ ret src, JsSet.add (dst, src) ret) ret
             (filter (λ s, s ∉ destinations r) (dependencies r)))
    ret (destinations r).

Definition relations (results : list BigQueryJobResource) : list Relation :=
  filter (λ r : Relation, r.1 ≠ r.2) (foldl relations_step [] results).

Definition bigquery2Objs (results : list BigQueryJobResource)
  : gmap string (list BigQueryJobResource) :=
  foldl (λ ret obj, <[namespace obj := default [] (ret !! namespace obj) ++ [obj]]> ret)
        ∅ results.

(** The entries of the [DAG] map, in the order of its keys: a name space
    and the jobs whose tasks it holds.  The keys are distinct, since the
    sorter returns the elements of a set. *)
Abbreviation Dag := (list (string * list BigQueryJobResource)).

(** [Some (inl msg)]: the sorter threw [msg]. *)
Definition build_DAG (results : list BigQueryJobResource) : option (string + Dag) :=
  match topologicalSort (relations results) with
  | None => None
  | Some (Throw msg) => Some (inl msg)
  | Some (Return order) =>
      Some (inr (filter (λ e : string * list BigQueryJobResource, (0 < length e.2)%nat)
                  ((λ bq, (bq, default [] (bigquery2Objs results !! bq))) <$> order)))
  end.

(** The name of the task of a job:
    [path.relative(rootPath, job.file).replace(/@default/, defaultProjectId)];
    [cwd] is the working directory of the process. *)
Definition task_name (cwd rootPath defaultProjectId : string)
    (job : BigQueryJobResource) : string :=
  JsString.replace_first (JsString.relative cwd rootPath (file job))
                         "@default" defaultProjectId.

(** [DAG.get(d)] *)
Fixpoint DAG_get (dag : Dag) (d : string) : option (list BigQueryJobResource) :=
  match dag with
  | [] => None
  | (k, jobs) :: dag' => if decide (k = d) then Some jobs else DAG_get dag' d
  end.

End Planner.

(** ** Identifiers of resources

    Modelled from the spec: [path2bq] and [normalizedBQPath] of
    [src/bigquery.js], which is not among the sources; section 4.1 of the
    specification describes them.  They serve as concrete instances where
    an example needs one. *)

Module Identifiers.

(** Modelled from the spec: the path once the root is stripped. *)
Definition below_root (root p : string) : string :=
  if JsString.startsWith p (root +:+ "/")
  then String.substring (String.length root + 1)
                        (String.length p - (String.length root + 1)) p
  else p.

(** Modelled from the spec: [path2bq]: the root is stripped, the path is
    split, [@default] stands for the default project, the segments
    [@routines] and [@models] only qualify the kind, and the directories
    before the file name give [project.dataset] or [project.dataset.name]. *)
Definition path2bq (fpath rootPath defaultProjectId : string) : string :=
  let dirs := List.removelast (JsString.split "/" (below_root rootPath fpath)) in
  let dirs := (λ s, if decide (s = "@default") then defaultProjectId else s) <$> dirs in
  JsString.join "." (filter (λ s, s ≠ "@routines" ∧ s ≠ "@models") dirs).

(** Modelled from the spec: [normalizedBQPath]: three dotted segments, a
    missing project is the ambient one, and a reference to a schema keeps
    two segments. *)
Definition normalizedBQPath (ref project : string) (isSchemaOnly : bool) : string :=
  let parts := JsString.split "." ref in
  if isSchemaOnly then
    match parts with
    | [schema] => JsString.join "." [project; schema]
    | p :: schema :: _ => JsString.join "." [p; schema]
    | [] => project
    end
  else
    match parts with
    | [schema; name] => JsString.join "." [project; schema; name]
    | _ => ref
    end.

End Identifiers.

(** ** Running the planned tasks

    The tasks that [pushBigQueryResourecs] creates, the closure of each,
    and the limiter through which their [run()] is called.  A task is named
    by its name space and its index in the [tasks] array of that name
    space; the [Task] objects live in a store, since the closures reach
    them through the [DAG] map at the time they run.

    One event of the model stands for one turn of the event loop in which a
    promise settles and the callbacks waiting for it run: a task's promise
    settling and its status changing are one event. *)

Module Scheduler.
Import TaskModel Planner.

Abbreviation TaskRef := (string * nat)%type.

(** Where the closure of a task stands: not called yet, awaiting the
    promises [ps] given to [Promise.all], inside [deployBigQueryResouce],
    or over. *)
Inductive Phase :=
| NotCalled
| Awaiting (ps : list TaskRef)
| Deploying
| Over.

Record Cell := { cell_task : Task; cell_phase : Phase }.

Record Sys := {
  store : gmap TaskRef Cell;
  (** the calls of [deployBigQueryResouce], the oldest first *)
  deployed : list TaskRef
}.

Section run.

Variable dag : Dag.

(** The names of the tasks, [Planner.task_name] in the planner. *)
Variable task_name : BigQueryJobResource → string.

(** The argument of [pLimit]. *)
Variable concurrency : nat.

Definition refs_of (ns : string) (jobs : list BigQueryJobResource) : list TaskRef :=
  (λ ix, (ns, ix)) <$> seq 0 (length jobs).

(** [DAG.get(d)?.tasks], as references; nothing when [d] is no key. *)
Definition tasks_of (d : string) : list TaskRef :=
  match DAG_get dag d with
  | Some jobs => refs_of d jobs
  | None => []
  end.

(** [[...DAG.values()].map(({ tasks }) => tasks).flat()]: the order in
    which the tasks are handed to the limiter. *)
Definition all_tasks : list TaskRef :=
  mjoin ((λ e : string * list BigQueryJobResource, refs_of e.1 e.2) <$> dag).

Definition job_of (r : TaskRef) : option BigQueryJobResource :=
  DAG_get dag r.1 ≫= λ jobs, jobs !! r.2.

Definition task_of (s : Sys) (r : TaskRef) : option Task :=
  cell_task <$> store s !! r.

Definition status_of (s : Sys) (r : TaskRef) : option Status :=
  status <$> task_of s r.

Definition promise_of (s : Sys) (r : TaskRef) : option Promise :=
  task_of s r ≫= runningPromise.

Definition init_cells : list (TaskRef * Cell) :=
  mjoin ((λ e : string * list BigQueryJobResource,
            imap (λ ix job,
                    ((e.1, ix),
                     {| cell_task := new_Task (task_name job);
                        cell_phase := NotCalled |})) e.2) <$> dag).

Definition init : Sys := {| store := list_to_map init_cells; deployed := [] |}.

(** The tasks whose [runningPromise] the closure of the task [(ns, ix)]
    reads: every task of every name space in [job.dependencies], then the
    tasks before it in its own name space. *)
Definition predecessors (r : TaskRef) (job : BigQueryJobResource) : list TaskRef :=
  (dependencies job ≫= tasks_of) ++ take r.2 (tasks_of r.1).

(** The promises given to [Promise.all] when the closure is called.  A
    [runningPromise] that is still [undefined] is no promise, and
    [Promise.all] does not wait for it. *)
Definition awaited (s : Sys) (r : TaskRef) (job : BigQueryJobResource) : list TaskRef :=
  filter (λ r', is_Some (promise_of s r')) (predecessors r job).

(** The text thrown by the callback given to [catch]. *)
Definition suspended_message (s : Sys) (job : BigQueryJobResource) : string :=
  "Suspended: Parent job is faild: " +:+
  JsString.join ", "
    (omap (λ r', name <$> task_of s r')
       (filter (λ r', status_of s r' = Some failed) (dependencies job ≫= tasks_of))).

Definition is_rejected (s : Sys) (r : TaskRef) : bool :=
  match promise_of s r with Some (Rejected _) => true | _ => false end.

Definition is_fulfilled (s : Sys) (r : TaskRef) : bool :=
  match promise_of s r with Some (Fulfilled _) => true | _ => false end.

(** The limiter: the calls wait in a queue in the order in which they were
    handed over, and one is started when fewer than [concurrency] are
    under way. *)
Definition next_in_queue (s : Sys) : option TaskRef :=
  snd <$> list_find (λ r, status_of s r = Some pending) all_tasks.

Definition under_way (s : Sys) : nat :=
  length (filter (λ r, status_of s r = Some running) all_tasks).

Inductive event :=
| Dispatch (r : TaskRef)
| Wake (r : TaskRef)
| Deployed (r : TaskRef) (o : Settlement).

Definition put (s : Sys) (r : TaskRef) (c : Cell) : Sys :=
  {| store := <[r := c]> (store s); deployed := deployed s |}.

(** [None]: the event cannot happen in the state. *)
Definition step (s : Sys) (ev : event) : option Sys :=
  match ev with
  | Dispatch r =>
      (* the limiter calls [task.run()] *)
      if decide (next_in_queue s = Some r ∧ (under_way s < concurrency)%nat) then
        c ← store s !! r;
        job ← job_of r;
        Some (put s r {| cell_task := run_start (cell_task c);
                         cell_phase := Awaiting (awaited s r job) |})
      else None
  | Wake r =>
      (* [Promise.all] settles *)
      c ← store s !! r;
      job ← job_of r;
      match cell_phase c with
      | Awaiting ps =>
          if existsb (is_rejected s) ps then
            Some (put s r
              {| cell_task :=
                   settle (Rejects (Error (Some (suspended_message s job))))
                          (cell_task c);
                 cell_phase := Over |})
          else if forallb (is_fulfilled s) ps then
            Some {| store := <[r := {| cell_task := cell_task c;
                                       cell_phase := Deploying |}]> (store s);
                    deployed := deployed s ++ [r] |}
          else None
      | _ => None
      end
  | Deployed r o =>
      (* [deployBigQueryResouce] returns or throws *)
      c ← store s !! r;
      match cell_phase c with
      | Deploying =>
          Some (put s r {| cell_task := settle o (cell_task c); cell_phase := Over |})
      | _ => None
      end
  end.

Fixpoint steps (s : Sys) (evs : list event) : option Sys :=
  match evs with
  | [] => Some s
  | ev :: evs' => step s ev ≫= λ s', steps s' evs'
  end.

End run.

(** *** Vocabulary for the properties of runs *)

(** What holds of every task in every state that can be reached. *)
Definition cell_ok (s : Sys) (r : TaskRef) (c : Cell) : Prop :=
  match cell_phase c with
  | NotCalled =>
      status (cell_task c) = pending ∧ runningPromise (cell_task c) = None ∧
      r ∉ deployed s
  | Awaiting _ =>
      status (cell_task c) = running ∧
      runningPromise (cell_task c) = Some Unsettled ∧ r ∉ deployed s
  | Deploying =>
      status (cell_task c) = running ∧
      runningPromise (cell_task c) = Some Unsettled
  | Over =>
      (∃ m, status (cell_task c) = success ∧
            runningPromise (cell_task c) = Some (Fulfilled m)) ∨
      (∃ e, status (cell_task c) = failed ∧
            runningPromise (cell_task c) = Some (Rejected e))
  end.

Definition wf (s : Sys) : Prop :=
  ∀ r c, store s !! r = Some c → cell_ok s r c.

(** The promises that a closure awaits belong to its predecessors. *)
Definition awaiting_ok (dag : Dag) (s : Sys) : Prop :=
  ∀ r c ps job,
    store s !! r = Some c → cell_phase c = Awaiting ps → job_of dag r = Some job →
    ∀ p, p ∈ ps → p ∈ predecessors dag r job.

(** [p] is handed to the limiter before [r]. *)
Definition before_in (l : list TaskRef) (p r : TaskRef) : Prop :=
  ∃ l1 l2, l = l1 ++ r :: l2 ∧ p ∈ l1 ∧ r ∉ l1.

(** A closure awaits every predecessor that was handed to the limiter
    before its own task. *)
Definition awaiting_complete (dag : Dag) (s : Sys) : Prop :=
  ∀ r c ps job,
    store s !! r = Some c → cell_phase c = Awaiting ps → job_of dag r = Some job →
    ∀ p, p ∈ predecessors dag r job → before_in (all_tasks dag) p r → p ∈ ps.

(** What holds in every state that can be reached. *)
Definition reached (dag : Dag) (s : Sys) : Prop :=
  wf s ∧ (∀ p, p ∈ all_tasks dag → is_Some (store s !! p)) ∧
  awaiting_ok dag s ∧ awaiting_complete dag s.

(** A task that is over, has failed and was never deployed stays so. *)
Definition suspended (s : Sys) (r : TaskRef) : Prop :=
  ∃ c, store s !! r = Some c ∧ cell_phase c = Over ∧
       status (cell_task c) = failed ∧ r ∉ deployed s.

End Scheduler.

(** ** Concrete plans *)

Module PlanExamples.
Import Planner.

(** A directory [a] that holds a query on the table [z], and the directory
    [z] with the statement that creates the table. *)
Definition query_on_z : BigQueryJobResource :=
  {| file := "bigquery/@default/ds/a/test.sql";
     namespace := "p.ds.a";
     dependencies := ["p.ds"; "p.ds.z"];
     destinations := [] |}.

Definition create_z : BigQueryJobResource :=
  {| file := "bigquery/@default/ds/z/ddl.sql";
     namespace := "p.ds.z";
     dependencies := ["p.ds"];
     destinations := ["p.ds.z"] |}.

Definition dag_a_z : Dag := [("p.ds.a", [query_on_z]); ("p.ds.z", [create_z])].

(** A table [t] that reads [z], with a second file in its directory. *)
Definition create_t : BigQueryJobResource :=
  {| file := "bigquery/@default/ds/t/ddl.sql";
     namespace := "p.ds.t";
     dependencies := ["p.ds"; "p.ds.z"];
     destinations := ["p.ds.t"] |}.

Definition check_t : BigQueryJobResource :=
  {| file := "bigquery/@default/ds/t/test.sql";
     namespace := "p.ds.t";
     dependencies := ["p.ds"];
     destinations := [] |}.

Definition dag_z_t : Dag :=
  [("p.ds.z", [create_z]); ("p.ds.t", [create_t; check_t])].

(** A file whose text reads the table that the file itself creates. *)
Definition self_file : string := "bigquery/@default/ds/a/ddl.sql".

Definition self_job : BigQueryJobResource :=
  job_resource Identifiers.path2bq Identifiers.normalizedBQPath
    (λ _, ["ds.a"]) (λ _, [("ds.a", "TABLE")]) (λ _, "")
    "bigquery" "p" self_file.

(** Two tables [a] and [b], and a statement in the directory [x] that
    fills [b] from [a]. *)
Definition create_a : BigQueryJobResource :=
  {| file := "bigquery/@default/ds/a/ddl.sql";
     namespace := "p.ds.a";
     dependencies := ["p.ds"];
     destinations := ["p.ds.a"] |}.

Definition create_b : BigQueryJobResource :=
  {| file := "bigquery/@default/ds/b/ddl.sql";
     namespace := "p.ds.b";
     dependencies := ["p.ds"];
     destinations := ["p.ds.b"] |}.

Definition insert_b : BigQueryJobResource :=
  {| file := "bigquery/@default/ds/x/dml.sql";
     namespace := "p.ds.x";
     dependencies := ["p.ds"; "p.ds.a"];
     destinations := ["p.ds.b"] |}.

Definition dag_a_x_b : Dag :=
  [("p.ds.a", [create_a]); ("p.ds.x", [insert_b]); ("p.ds.b", [create_b])].

End PlanExamples.

(** ** Calls to the warehouse, the file system and the terminal

    A function that awaits such calls is a tree: a call and, for each
    answer, what the function does next.  An answer is a value or the
    reason with which the call is rejected. *)

Module Effects.
Import TaskModel.

(** The options of a query job ([Query] of the client library), as far as
    the sources read or write them. *)
Record Query := {
  query : option string;
  dryRun : option bool;
  priority : option string;
  jobPrefix : option string;
  labels : gmap string string;
  maximumBytesBilled : option string;
  params : option (gmap string string)
}.

(** What [createQueryJob] answers, as far as the sources read it:
    [statistics?.totalBytesProcessed] and [configuration?.dryRun]. *)
Record JobInfo := {
  totalBytesProcessed : option string;
  configuration_dryRun : option bool
}.

(** A remote object (a [Table], [Routine] or [Model] of the client
    library): the name of its class and its reference. *)
Record Resource := {
  constructor_name : string;
  projectId : string;
  datasetId : string;
  resourceId : string
}.

Inductive Call : Type → Type :=
| getProjectId : Call string
| readFile (p : string) : Call string
| existsSync (p : string) : Call bool
| walk (dir : string) : Call (list string)
| createQueryJob (q : Query) : Call JobInfo
| datasetGet (dataset project : string) : Call unit
| getRoutines (dataset : string) : Call (list Resource)
| getModels (dataset : string) : Call (list Resource)
| getTables (dataset : string) : Call (list Resource)
| tableExists (dataset table : string) : Call bool
| tableGet (dataset table : string) : Call Resource
| createTable (dataset table view : string) : Call Resource
| syncMetadata (r : Resource) (dir : string) (push : bool) : Call unit
| resourceDelete (r : Resource) : Call unit
| prompt (question : string) : Call string.

(** [Print line k]: [console.error(line)], which does not fail, and then
    [k]. *)
Inductive Prog (A : Type) : Type :=
| Ret (a : A)
| Raise (e : Thrown)
| Print (line : string) (k : Prog A)
| Perform {R : Type} (c : Call R) (k : Thrown + R → Prog A).

Arguments Ret {A} a.
Arguments Raise {A} e.
Arguments Print {A} line k.
Arguments Perform {A R} c k.

(** [await c], the rest of the function being [k]. *)
Definition await {A R} (c : Call R) (k : R → Prog A) : Prog A :=
  Perform c (λ r, match r with inl e => Raise e | inr v => k v end).

Fixpoint bind {A B} (p : Prog A) (k : A → Prog B) : Prog B :=
  match p with
  | Ret a => k a
  | Raise e => Raise e
  | Print line p' => Print line (bind p' k)
  | Perform c k' => Perform c (λ r, bind (k' r) k)
  end.

(** [try { p } catch (e) { h e }] *)
Fixpoint try_catch {A} (p : Prog A) (h : Thrown → Prog A) : Prog A :=
  match p with
  | Ret a => Ret a
  | Raise e => h e
  | Print line p' => Print line (try_catch p' h)
  | Perform c k => Perform c (λ r, try_catch (k r) h)
  end.

(** A line that was printed, or a call that was made. *)
Inductive Event :=
| Printed (line : string)
| Ev : ∀ {R : Type}, Call R → Event.

Inductive Outcome (A : Type) :=
| Returned (a : A)
| Threw (e : Thrown).

Arguments Returned {A} a.
Arguments Threw {A} e.

Section interp.

(** The world outside: a state and, for each call, an answer and the next
    state. *)
Context {W : Type}.
Variable answer : ∀ R, Call R → W → (Thrown + R) * W.

(** The calls made, the oldest first, how the function ends, and the
    state of the world then. *)
Fixpoint interp {A} (p : Prog A) (w : W) : list Event * Outcome A * W :=
  match p with
  | Ret a => ([], Returned a, w)
  | Raise e => ([], Threw e, w)
  | Print line p' =>
      let '(tr, o, w1) := interp p' w in
      (Printed line :: tr, o, w1)
  | Perform c k =>
      let '(r, w1) := answer _ c w in
      let '(tr, o, w2) := interp (k r) w1 in
      (Ev c :: tr, o, w2)
  end.

End interp.

Definition is_delete (ev : Event) : bool :=
  match ev with
  | Ev c => match c with resourceDelete _ => true | _ => false end
  | Printed _ => false
  end.

Definition is_createTable (ev : Event) : bool :=
  match ev with
  | Ev c => match c with createTable _ _ _ => true | _ => false end
  | Printed _ => false
  end.

Definition is_createQueryJob (ev : Event) : bool :=
  match ev with
  | Ev c => match c with createQueryJob _ => true | _ => false end
  | Printed _ => false
  end.

(** No call of the function is one of the calls [bad], whatever the
    answers. *)
Inductive never (bad : Event → bool) {A} : Prog A → Prop :=
| never_Ret a : never bad (Ret a)
| never_Raise e : never bad (Raise e)
| never_Print line p : never bad p → never bad (Print line p)
| never_Perform {R} (c : Call R) k :
    bad (Ev c) = false → (∀ r, never bad (k r)) → never bad (Perform c k).

End Effects.

(** ** The deploy executor ([deployBigQueryResouce]) *)

Module Executor.
Import TaskModel Effects.

Definition LF : string := String "010"%char EmptyString.

(** A value that JavaScript takes for false where a string is expected:
    [undefined] or the empty string. *)
Definition falsy (s : option string) : bool :=
  match s with
  | None => true
  | Some s => bool_decide (s = "")
  end.

(** [`${err}`]: the text of a thrown value inside a template string, which
    is [String(err)].  For an [Error] object, as the errors of [fs] are,
    [Error.prototype.toString] gives the name, [Error], then the message
    when there is one that is not empty. *)
Definition text_of (e : Thrown) : string :=
  match reason_message e with
  | Some m => if decide (m = "") then "Error" else "Error: " +:+ m
  | None => "Error"
  end.

Section executor.

Variable path2bq : string → string → string → string.

(** [humanFileSize(parseInt(s))]: the division and the rounding are done
    on floating-point numbers, which are not modelled. *)
Variable humanFileSize_parseInt : string → string.

(** The [default] case of the [switch]: any other file. *)
Variable deploy_query :
  string → string → option Query → string → string → option string →
  Prog (option string).

(** The job sent for a file [view.sql]. *)
Definition view_job (options : option Query) (schemaId tableId body : string) : Query :=
  {| query := Some ("CREATE OR REPLACE VIEW `" +:+ schemaId +:+ "." +:+ tableId
                    +:+ "` as" +:+ LF +:+ body);
     dryRun := options ≫= dryRun;
     priority := Some "BATCH";
     jobPrefix := Some ("bqport-" +:+ schemaId +:+ "_" +:+ tableId +:+ "-");
     labels := <["bqport" := "true"]> (default ∅ (labels <$> options));
     maximumBytesBilled := options ≫= maximumBytesBilled;
     params := options ≫= params |}.

(** What follows the [if (BigQueryJobOptions?.dryRun)] block. *)
Definition create_view (p schemaId tableId body : string) : Prog (option string) :=
  await (tableExists schemaId tableId) (λ isExist,
  await (if isExist then tableGet schemaId tableId
         else createTable schemaId tableId body) (λ view,
  await (syncMetadata view (JsString.dirname p) true) (λ _,
  Ret None))).

Definition deployBigQueryResouce
    (rootPath p : string) (BigQueryJobOptions : option Query) : Prog (option string) :=
  await getProjectId (λ defaultProjectId,
  if negb (bool_decide (p = "")) && negb (JsString.endsWith p "sql") then Ret None
  else
    let parts := JsString.split "." (path2bq p rootPath defaultProjectId) in
    let schemaId := parts !! 1%nat in
    let name := parts !! 2%nat in
    Perform (readFile p) (λ r,
    match r with
    | inl err => Raise (Error (Some (JsString.dirname p +:+ ": " +:+ text_of err)))
    | inr body =>
        if falsy schemaId then Raise (Error (Some "Invalid SchemaId"))
        else
          let schemaId := default "" schemaId in
          if decide (JsString.basename p = "view.sql") then
            if falsy name then Ret None
            else
              let tableId := default "" name in
              if bool_decide (BigQueryJobOptions ≫= dryRun = Some true) then
                await (createQueryJob (view_job BigQueryJobOptions schemaId tableId body))
                  (λ ret,
                     match totalBytesProcessed ret with
                     | Some bytes => Ret (Some (humanFileSize_parseInt bytes))
                     | None => create_view p schemaId tableId body
                     end)
              else create_view p schemaId tableId body
          else deploy_query rootPath p BigQueryJobOptions defaultProjectId schemaId name
    end)).

End executor.

End Executor.

(** ** The reconciliation planner ([cleanupBigQueryDataset]) *)

Module Cleanup.
Import TaskModel Effects.

(** A [Map<string, Resource>], its entries in the order of insertion. *)
Abbreviation ResourceMap := (list (string * Resource)).

(** [m.has(k)] *)
Definition has (m : ResourceMap) (k : string) : bool := bool_decide (k ∈ m.*1).

(** [m.delete(k)] *)
Definition delete (m : ResourceMap) (k : string) : ResourceMap :=
  filter (λ e : string * Resource, e.1 ≠ k) m.

(** [m.set(k, v)]: the value of a key that is present is replaced where it
    stands. *)
Definition set (m : ResourceMap) (k : string) (v : Resource) : ResourceMap :=
  if has m k then (λ e : string * Resource, if decide (e.1 = k) then (k, v) else e) <$> m
  else m ++ [(k, v)].

(** [new Map(rr.map((r) => [`${r.projectId}.${r.datasetId}.${r.id}`, r]))] *)
Definition key (r : Resource) : string :=
  projectId r +:+ "." +:+ datasetId r +:+ "." +:+ resourceId r.

Definition map_of (rr : list Resource) : ResourceMap :=
  foldl (λ m r, set m (key r) r) [] rr.

(** The [options] argument. *)
Record Options := {
  dryRun : option bool;
  withoutConrimation : bool
}.

(** [options?.dryRun ?? true] *)
Definition isDryRun (options : option Options) : bool :=
  default true (options ≫= dryRun).

(** [options?.withoutConrimation ?? false] *)
Definition isForce (options : option Options) : bool :=
  default false (withoutConrimation <$> options).

(** A [BigQueryJobTask] as [cleanupBigQueryDataset] creates it: its name
    and its job, which returns [{ isDryRun }]. *)
Record DeletionTask := {
  task_name : string;
  task_job : Prog bool
}.

(** The job of the task that deletes [resource]. *)
Definition deletion_job (isDryRun : bool) (bqId : string) (resource : Resource)
  : Prog bool :=
  bind
    (try_catch
       (Print ((if isDryRun then "(DRYRUN) " else "") +:+ "Deleting " +:+ bqId)
          (if negb isDryRun then await (resourceDelete resource) (λ _, Ret tt)
           else Ret tt))
       (λ _, Ret tt))
    (λ _, Ret isDryRun).

Section cleanup.

Variable path2bq : string → string → string → string.

(** The three maps after the entries with a local path are taken out. *)
Definition forget_local (rootDir defaultProjectId : string)
    (maps : ResourceMap * ResourceMap * ResourceMap) (f : string)
  : ResourceMap * ResourceMap * ResourceMap :=
  let '(routines, models, tables) := maps in
  let bqId := path2bq f rootDir defaultProjectId in
  if JsString.includes f "@routine" && has routines bqId
  then (delete routines bqId, models, tables)
  else if JsString.includes f "@model" && has models bqId
  then (routines, delete models bqId, tables)
  else if has tables bqId then (routines, models, delete tables bqId)
  else (routines, models, tables).

Definition question (resourceType : string) (kind : ResourceMap) : string :=
  JsString.join Executor.LF
    ["Found BigQuery reousrces with no local files. Do you delete these resources? (y/n)";
     "[" +:+ resourceType +:+ "s]";
     "  " +:+ JsString.join (Executor.LF +:+ "  ") kind.*1 +:+ " ";
     "Ans>"].

Definition new_task (nsProject datasetId resourceType : string) (isDryRun : bool)
    (e : string * Resource) : DeletionTask :=
  {| task_name :=
       JsString.join "/"
         [nsProject; datasetId; "(DELETE)"; JsString.toUpperCase resourceType;
          List.last (JsString.split "." e.1) ""];
     task_job := deletion_job isDryRun e.1 e.2 |}.

(** The loop [for (const kind of [tables, routines, models])]. *)
Fixpoint emit (nsProject datasetId : string) (isDryRun isForce : bool)
    (kinds : list ResourceMap) (tasks : list DeletionTask)
  : Prog (list DeletionTask) :=
  match kinds with
  | [] => Ret tasks
  | kind :: kinds' =>
      match kind with
      | [] => emit nsProject datasetId isDryRun isForce kinds' tasks
      | (_, first) :: _ =>
          let resourceType := constructor_name first in
          let tasks' :=
            tasks ++ (new_task nsProject datasetId resourceType isDryRun <$> kind) in
          if negb isForce && negb isDryRun then
            await (prompt (question resourceType kind)) (λ ans,
              if negb (JsString.startsWith (JsString.trim ans) "y")
              then emit nsProject datasetId isDryRun isForce kinds' tasks
              else emit nsProject datasetId isDryRun isForce kinds' tasks')
          else emit nsProject datasetId isDryRun isForce kinds' tasks'
      end
  end.

Definition cleanupBigQueryDataset
    (rootDir projectId datasetId : string) (options : option Options)
  : Prog (list DeletionTask) :=
  await getProjectId (λ defaultProjectId,
  let nsProject :=
    if decide (projectId ≠ "@default") then projectId else defaultProjectId in
  let datasetPath := JsString.join "/" [rootDir; projectId; datasetId] in
  await (existsSync datasetPath) (λ found,
  if negb found then Ret []
  else
    (* [try { [dataset] = await ... .get() } catch (e) { return [] }] *)
    Perform (datasetGet datasetId nsProject) (λ r,
    match r with
    | inl _ => Ret []
    | inr _ =>
        await (getRoutines datasetId) (λ rr,
        await (getModels datasetId) (λ mm,
        await (getTables datasetId) (λ tt,
        await (walk datasetPath) (λ paths,
        let '(routines, models, tables) :=
          foldl (forget_local rootDir defaultProjectId)
                (map_of rr, map_of mm, map_of tt)
                (filter (λ p, JsString.includes p "@default" = true) paths) in
        emit nsProject datasetId (isDryRun options) (isForce options)
             [tables; routines; models] []))))
    end))).

End cleanup.


End Cleanup.

(** ** Concrete worlds *)

Module Worlds.
Import TaskModel Effects.

Definition unavailable {R : Type} : Thrown + R := inl (Error (Some "unavailable")).

Definition a_view : Resource :=
  {| constructor_name := "Table"; projectId := "p"; datasetId := "ds";
     resourceId := "v" |}.

(** A warehouse that answers a dry run with an estimate of 0 bytes. *)
Definition estimating : ∀ R, Call R → unit → (Thrown + R) * unit :=
  λ R c w,
    match c in Call R return (Thrown + R) * unit with
    | getProjectId => (inr "p", w)
    | readFile _ => (inr "SELECT 1", w)
    | createQueryJob q =>
        (inr {| totalBytesProcessed := Some "0"; configuration_dryRun := dryRun q |}, w)
    | _ => (unavailable, w)
    end.

(** A warehouse whose answer to a dry run holds no statistics. *)
Definition silent : ∀ R, Call R → unit → (Thrown + R) * unit :=
  λ R c w,
    match c in Call R return (Thrown + R) * unit with
    | getProjectId => (inr "p", w)
    | readFile _ => (inr "SELECT 1", w)
    | createQueryJob q =>
        (inr {| totalBytesProcessed := None; configuration_dryRun := dryRun q |}, w)
    | tableExists _ _ => (inr false, w)
    | createTable _ _ _ => (inr a_view, w)
    | syncMetadata _ _ _ => (inr (), w)
    | _ => (unavailable, w)
    end.

Definition dry_run : Query :=
  {| query := None; dryRun := Some true; priority := None; jobPrefix := None;
     labels := ∅; maximumBytesBilled := None; params := None |}.

Definition no_query :
  string → string → option Query → string → string → option string →
  Prog (option string) := λ _ _ _ _ _ _, Ret None.

Definition r1 : Resource :=
  {| constructor_name := "Routine"; projectId := "p"; datasetId := "ds";
     resourceId := "r1" |}.

Definition r2 : Resource :=
  {| constructor_name := "Routine"; projectId := "p"; datasetId := "ds";
     resourceId := "r2" |}.

(** The data set [ds] holds the routines [r1] and [r2], the directory
    holds [r1] only, the operator answers [y], and deleting fails. *)
Definition two_routines : ∀ R, Call R → unit → (Thrown + R) * unit :=
  λ R c w,
    match c in Call R return (Thrown + R) * unit with
    | getProjectId => (inr "p", w)
    | existsSync _ => (inr true, w)
    | datasetGet _ _ => (inr (), w)
    | getRoutines _ => (inr [r1; r2], w)
    | getModels _ => (inr [], w)
    | getTables _ => (inr [], w)
    | walk _ => (inr ["bigquery/@default/ds/@routines/r1/ddl.sql"], w)
    | prompt _ => (inr "y", w)
    | _ => (unavailable, w)
    end.

Definition a_view_file : string := "bigquery/@default/ds/v/view.sql".

Definition a_dataset_view_file : string := "bigquery/@default/ds/view.sql".

End Worlds.

(** ** What the sorter keeps on every input *)

Module TopoSound.
Import TopoSort TopoSpec.

(** The relation [e] stands at two places of the list. *)
Definition twice (rel : list Relation) (e : Relation) : Prop :=
  ∃ l1 l2, rel = l1 ++ e :: l2 ∧ e ∈ l1 ++ l2.

(** The part of the loop invariant that needs nothing of the relations:
    they may be repeated, and a name may be the empty string. *)
Record Sound (rel : list Relation) (st : state) : Prop := {
  snd_nodup : NoDup (st_N st ++ st_S st ++ st_L st);
  snd_nodes : ∀ n, n ∈ st_N st ++ st_S st ++ st_L st → is_node rel n;
  snd_count : ∀ n, Z.of_nat (length (pending rel (st_L st) n)) ≤ E_get (st_E st) n;
  snd_excess : ∀ s d, twice rel (s, d) → d ∈ st_L st →
               Z.of_nat (length (pending rel (st_L st) s)) + 1 ≤ E_get (st_E st) s;
  snd_ready : ∀ n, n ∈ st_S st ++ st_L st → E_get (st_E st) n ≤ 0;
  snd_wait : ∀ n, is_node rel n → 0 < E_get (st_E st) n → n ∈ st_N st;
  snd_named : "" ∉ st_L st;
  snd_order : ordered rel (st_L st)
}.

(** A relation repeated after a first relation that is not. *)
Definition repeated_later_example : list Relation :=
  [("b", "c"); ("a", "b"); ("a", "b")].

End TopoSound.

(** ** The check of the plan ([Validation: All files should included]) *)

Module PlanCheck.
Import Planner.

(** [bigquery2Objs.entries()] gives the name spaces in the order in which
    the files first bring them. *)
Definition keys (results : list BigQueryJobResource) : list string :=
  JsSet.of_list (namespace <$> results).

(** The lines that the loop prints with [console.warn]; [dag] holds the
    entries of the [DAG] map. *)
Definition validation (results : list BigQueryJobResource) (dag : Dag) : list string :=
  keys results ≫= λ key,
    let item := default [] (bigquery2Objs results !! key) in
    let allDestinations := JsSet.of_list (item ≫= destinations) in
    (if decide (key ∉ dag.*1)
     then ["Warning: No deployment files for " +:+ key] else []) ++
    (if decide ((key ∉ allDestinations) ∧ key ∈ dag.*1)
     then ["Warning: No DDL file exist but target directory found: " +:+ key]
     else []).

End PlanCheck.

(** ** Vocabulary for whole runs of the planned tasks *)

Module RunSpec.
Import TaskModel Planner Scheduler.

(** The error of a task that was suspended. *)
Definition suspended_text (e : option string) : Prop :=
  ∃ names, e = Some (JsString.trim ("Suspended: Parent job is faild: " +:+ names)).

(** What the list of the calls of [deployBigQueryResouce] says of a task. *)
Definition deploy_ok (s : Sys) (r : TaskRef) (c : Cell) : Prop :=
  match cell_phase c with
  | NotCalled | Awaiting _ => True
  | Deploying => r ∈ deployed s
  | Over =>
      r ∈ deployed s ∨
      (status (cell_task c) = failed ∧ suspended_text (error (cell_task c)))
  end.

Definition deploys_ok (dag : Dag) (s : Sys) : Prop :=
  NoDup (deployed s) ∧
  (∀ r, r ∈ deployed s → is_Some (job_of dag r)) ∧
  ∀ r c, store s !! r = Some c → deploy_ok s r c.

(** The predecessors of a deployed task that were handed to the limiter
    before it have succeeded. *)
Definition deploys_in_order (dag : Dag) (s : Sys) : Prop :=
  ∀ r job p,
    r ∈ deployed s → job_of dag r = Some job →
    p ∈ predecessors dag r job → before_in (all_tasks dag) p r →
    status_of s p = Some success.

(** The limiter starts the tasks in the order in which it was given them:
    behind a task that is pending, every task is pending. *)
Definition fifo (dag : Dag) (s : Sys) : Prop :=
  ∀ l1 r l2 q,
    all_tasks dag = l1 ++ r :: l2 → status_of s r = Some pending → q ∈ l2 →
    status_of s q = Some pending.

(** A closure awaits tasks that were started before its own. *)
Definition awaits_earlier (dag : Dag) (s : Sys) : Prop :=
  ∀ r c ps l1 l2,
    store s !! r = Some c → cell_phase c = Awaiting ps →
    all_tasks dag = l1 ++ r :: l2 →
    ∀ p, p ∈ ps → p ∈ l1 ∧ status_of s p ≠ Some pending.

(** The tasks of the store are the tasks given to the limiter, and each
    has a job. *)
Definition store_ok (dag : Dag) (s : Sys) : Prop :=
  ∀ r, is_Some (store s !! r) → r ∈ all_tasks dag ∧ is_Some (job_of dag r).

Definition queue_ok (dag : Dag) (s : Sys) : Prop :=
  store_ok dag s ∧ fifo dag s ∧ awaits_earlier dag s.

(** The four ways in which a state changes. *)
Inductive changes (dag : Dag) (concurrency : nat) (s : Sys) : event → Sys → Prop :=
| changes_Dispatch r c job :
    next_in_queue dag s = Some r → (under_way dag s < concurrency)%nat →
    store s !! r = Some c → job_of dag r = Some job →
    changes dag concurrency s (Dispatch r)
      (put s r {| cell_task := run_start (cell_task c);
                  cell_phase := Awaiting (awaited dag s r job) |})
| changes_suspend r c job ps :
    store s !! r = Some c → job_of dag r = Some job → cell_phase c = Awaiting ps →
    existsb (is_rejected s) ps = true →
    changes dag concurrency s (Wake r)
      (put s r {| cell_task :=
                    settle (Rejects (Error (Some (suspended_message dag s job))))
                           (cell_task c);
                  cell_phase := Over |})
| changes_deploy r c job ps :
    store s !! r = Some c → job_of dag r = Some job → cell_phase c = Awaiting ps →
    existsb (is_rejected s) ps = false → forallb (is_fulfilled s) ps = true →
    changes dag concurrency s (Wake r)
      {| store := <[r := {| cell_task := cell_task c; cell_phase := Deploying |}]>
                    (store s);
         deployed := deployed s ++ [r] |}
| changes_Deployed r c o :
    store s !! r = Some c → cell_phase c = Deploying →
    changes dag concurrency s (Deployed r o)
      (put s r {| cell_task := settle o (cell_task c); cell_phase := Over |}).

(** How far the closure of a task has come. *)
Definition phase_rank (ph : Phase) : nat :=
  match ph with
  | NotCalled => 0
  | Awaiting _ => 1
  | Deploying => 2
  | Over => 3
  end.

Definition progress_of (s : Sys) (r : TaskRef) : nat :=
  default 0%nat (phase_rank ∘ cell_phase <$> store s !! r).

Definition progress (dag : Dag) (s : Sys) : nat :=
  sum_list (progress_of s <$> all_tasks dag).

(** A run of the plan [dag_z_t]: the table [z] is created, then the table
    [t] that reads it, and the second file of the directory [t] is
    started. *)
Definition run_z_t : list event :=
  [Dispatch ("p.ds.z", 0%nat); Wake ("p.ds.z", 0%nat);
   Deployed ("p.ds.z", 0%nat) (Resolves None);
   Dispatch ("p.ds.t", 0%nat); Wake ("p.ds.t", 0%nat);
   Deployed ("p.ds.t", 0%nat) (Resolves None);
   Dispatch ("p.ds.t", 1%nat); Wake ("p.ds.t", 1%nat)].

End RunSpec.

(** ** Concrete worlds for the executor *)

Module ExecutorWorlds.
Import TaskModel Effects.

(** A file that is no SQL file, and a file with no data set in its path. *)
Definition a_readme : string := "bigquery/@default/ds/v/README.md".

Definition a_project_file : string := "bigquery/@default/ddl.sql".

(** The options of a run that is no dry run. *)
Definition for_real : Query :=
  {| query := None; dryRun := Some false; priority := None; jobPrefix := None;
     labels := ∅; maximumBytesBilled := None; params := None |}.


(** A warehouse in which the view exists. *)
Definition with_view : ∀ R, Call R → unit → (Thrown + R) * unit :=
  λ R c w,
    match c in Call R return (Thrown + R) * unit with
    | getProjectId => (inr "p", w)
    | readFile _ => (inr "SELECT 1", w)
    | tableExists _ _ => (inr true, w)
    | tableGet _ _ => (inr Worlds.a_view, w)
    | syncMetadata _ _ _ => (inr (), w)
    | _ => (Worlds.unavailable, w)
    end.

End ExecutorWorlds.

(** ** The reconciliation of a project ([createCleanupTasks]) *)

Module CleanupAll.
Import TaskModel Effects Cleanup.

(** [type PushContext], without the client. *)
Record PushContext := {
  ctx_dryRun : bool;
  ctx_force : bool;
  ctx_rootPath : string;
  ctx_projectId : string
}.

Section cleanup.

Variable path2bq : string → string → string → string.

(** What [console.error] writes for a value that was thrown. *)
Variable inspect : Thrown → string.

(** The loop of [createCleanupTasks] over [datasets], the names that
    [readdir] has given for the directory of the project. *)
Fixpoint createCleanupTasks (ctx : PushContext) (datasets : list string)
    (tasks : list DeletionTask) : Prog (list DeletionTask) :=
  match datasets with
  | [] => Ret tasks
  | dataset :: datasets' =>
      bind
        (try_catch
           (cleanupBigQueryDataset path2bq (ctx_rootPath ctx) (ctx_projectId ctx)
              (JsString.basename dataset)
              (Some {| dryRun := Some (ctx_dryRun ctx);
                       withoutConrimation := ctx_force ctx |}))
           (* [deleteTasks] is [undefined], and [deleteTasks ?? []] is [[]] *)
           (λ e, Print (inspect e) (Ret [])))
        (λ deleteTasks, createCleanupTasks ctx datasets' (tasks ++ deleteTasks))
  end.

End cleanup.

Definition is_prompt (ev : Event) : bool :=
  match ev with
  | Ev c => match c with prompt _ => true | _ => false end
  | Printed _ => false
  end.

(** The tasks made for one of the maps [tables], [routines], [models]
    when the operator is not asked or agrees. *)
Definition tasks_for (nsProject datasetId : string) (isDryRun : bool)
    (kind : ResourceMap) : list DeletionTask :=
  match kind with
  | [] => []
  | (_, first) :: _ =>
      new_task nsProject datasetId (constructor_name first) isDryRun <$> kind
  end.

(** A project whose directory is not [@default]: the data set [ds] holds
    the table [t], and the directory of the data set holds a file for
    it. *)
Definition t1 : Resource :=
  {| constructor_name := "Table"; projectId := "q"; datasetId := "ds";
     resourceId := "t" |}.

Definition named_project : ∀ R, Call R → unit → (Thrown + R) * unit :=
  λ R c w,
    match c in Call R return (Thrown + R) * unit with
    | getProjectId => (inr "p", w)
    | existsSync _ => (inr true, w)
    | datasetGet _ _ => (inr (), w)
    | getRoutines _ => (inr [], w)
    | getModels _ => (inr [], w)
    | getTables _ => (inr [t1], w)
    | walk _ => (inr ["bigquery/q/ds/t/ddl.sql"], w)
    | _ => (Worlds.unavailable, w)
    end.

(** A warehouse that is down for the first call and answers afterwards;
    the data set [ds] holds the table [t], and no directory holds a
    file. *)
Definition waking : ∀ R, Call R → bool → (Thrown + R) * bool :=
  λ R c down,
    match c in Call R return (Thrown + R) * bool with
    | getProjectId => if down then (Worlds.unavailable, false) else (inr "p", false)
    | existsSync _ => (inr true, down)
    | datasetGet _ _ => (inr (), down)
    | getRoutines _ => (inr [], down)
    | getModels _ => (inr [], down)
    | getTables _ => (inr [t1], down)
    | walk _ => (inr [], down)
    | _ => (Worlds.unavailable, down)
    end.

Definition ctx_q : PushContext :=
  {| ctx_dryRun := true; ctx_force := false; ctx_rootPath := "bigquery";
     ctx_projectId := "q" |}.

End CleanupAll.

(** ** Reading the syntax tree of a file
       ([extractDestinations], [extractRefenrences]) *)

Module SqlTree.

#[local] Unset Elimination Schemes.

(** A node of the tree that the parser returns, as far as the functions
    read it: its text, the type of its parent ([n.parent.type]; the
    nodes that are read this way are given by a field of a node, and
    have a parent), the names in [node.fields], the nodes that the
    fields give ([node.tableNameNode] and the like, absent when [null]
    or [undefined]), and [node.children]. *)
Inductive Node := MkNode {
  text : string;
  parent_type : string;
  fields : list string;
  named : list (string * Node);
  children : list Node
}.

#[local] Set Elimination Schemes.

(** [node[name]] *)
Definition field (node : Node) (name : string) : option Node :=
  snd <$> List.find (λ e : string * Node, bool_decide (e.1 = name)) (named node).

Definition _extractBigQueryResourceIdentifier (node : Node) : option Node :=
  if bool_decide ("tableNameNode" ∈ fields node) then field node "tableNameNode"
  else if bool_decide ("routineNameNode" ∈ fields node) then field node "routineNameNode"
  else if bool_decide ("schemaNameNode" ∈ fields node) then field node "schemaNameNode"
  else if bool_decide ("modelNameNode" ∈ fields node) then field node "modelNameNode"
  else if bool_decide ("aliasNameNode" ∈ fields node) then field node "aliasNameNode"
  else if bool_decide ("functionNode" ∈ fields node) then field node "functionNode"
  else None.

(** The values that the generator yields, in the order in which it
    yields them. *)
Fixpoint findBigQueryResourceIdentifier (node : Node) : list Node :=
  match _extractBigQueryResourceIdentifier node with
  | Some resource_name => [resource_name]
  | None => []
  end ++
  match node with
  | MkNode _ _ _ _ children => children ≫= findBigQueryResourceIdentifier
  end.

(** What one identifier adds to [ret] in [extractDestinations]. *)
Definition destination (n : Node) : list (string * string) :=
  let ty := parent_type n in
  if JsString.includes ty "schema_statement" then [(text n, "SCHEMA")]
  else if JsString.includes ty "procedure_statement"
          || JsString.includes ty "function_statement" then [(text n, "ROUTINE")]
  else if JsString.includes ty "table_statement" then [(text n, "TABLE")]
  else if JsString.includes ty "create_model_statement" then [(text n, "MODEL")]
  else if JsString.includes ty "statement"
          && negb (JsString.includes ty "call_statement") then [(text n, "TABLE")]
  else [].

(** What one identifier adds to [ret] in [extractRefenrences]. *)
Definition reference (n : Node) : list string :=
  let ty := parent_type n in
  (if JsString.includes ty "from_item" then [text n] else []) ++
  (if JsString.includes ty "function_call" then [text n] else []) ++
  (if JsString.includes ty "call_statement" then [text n] else []).

Section parser.

(** [parser.parse(sql).rootNode] *)
Variable parse : string → Node.

Definition extractDestinations (sql : string) : list (string * string) :=
  findBigQueryResourceIdentifier (parse sql) ≫= destination.

Definition extractRefenrences (sql : string) : list string :=
  let found := findBigQueryResourceIdentifier (parse sql) in
  let ret := found ≫= reference in
  let CTEs :=
    JsSet.of_list
      (text <$> filter (λ n, JsString.includes (parent_type n) "non_recursive_cte" = true)
                       found) in
  filter (λ n, n ∉ CTEs) ret.

End parser.

End SqlTree.

(** ** The reporter (the class [Reporter])

    A task on display is a [Task] object together with its place in the
    array [tasks], which stands for the object itself: the variable
    [index] of the closure [spin] of each task is kept in a map from
    these places. *)

Module Report.
Import TaskModel.

(** [s.repeat(n)] *)
Definition repeat_string (s : string) (n : nat) : string :=
  String.concat "" (replicate n s).

Section reporter.

(** [spinnerFrames], which [process.platform] chooses. *)
Variable spinnerFrames : list string.

(** [F_CHECK] and [F_CROSS] of [src/figures.js], and the colours of
    [picocolors]. *)
Variables (F_CHECK F_CROSS : string).
Variables (green red gray bold : string → string).

(** The function that [elegantSpinner()] returns, on its variable
    [index]: [index = ++index % spinnerFrames.length], and then
    [spinnerFrames[index] ?? '']. *)
Definition spin (index : nat) : nat * string :=
  let index' := ((index + 1) mod length spinnerFrames)%nat in
  (index', default "" (spinnerFrames !! index')).

(** The value of [index] after [n] calls of a spinner that is new. *)
Definition spun (n : nat) : nat := Nat.iter n (λ index, (spin index).1) 0%nat.

Abbreviation Shown := (nat * Task)%type.

Abbreviation Spins := (gmap nat nat).

(** [task.spin()] for the task at the place [id]. *)
Definition task_spin (spins : Spins) (id : nat) : string * Spins :=
  let '(index, frame) := spin (default 0%nat (spins !! id)) in
  (frame, <[id := index]> spins).

Definition report_task (spins : Spins) (shown : Shown) : string * Spins :=
  let '(id, task) := shown in
  match status task with
  | pending => ("", spins)
  | st =>
      let '(s, c, spins') :=
        match st with
        | success => (F_CHECK, green, spins)
        | failed => (" " +:+ F_CROSS, red, spins)
        | _ => let '(frame, spins') := task_spin spins id in (frame, gray, spins')
        end in
      let title := c (s +:+ " " +:+ List.last (JsString.split "/" (name task)) "") in
      (if negb (Executor.falsy (error task))
       then JsString.trim (title +:+ Executor.LF +:+ "    "
                           +:+ bold (default "" (error task)))
       else
         let msg := if negb (Executor.falsy (message task))
                    then " (" +:+ default "" (message task) +:+ ")" else "" in
         JsString.trim (title +:+ " " +:+ msg),
       spins')
  end.

(** The key under which [report_tree] puts a task at a level. *)
Definition group_key (level : nat) (task : Task) : string :=
  let parts := JsString.split "/" (name task) in
  if decide (length parts = (level + 1)%nat) then "#tail"
  else default "#none" (parts !! level).

(** [acc.get(key)?.push(t)], after [acc.set(key, [])] for a new key. *)
Definition group_add (acc : list (string * list Shown)) (key : string) (t : Shown)
  : list (string * list Shown) :=
  if decide (key ∈ acc.*1)
  then (λ e : string * list Shown, if decide (e.1 = key) then (e.1, e.2 ++ [t]) else e)
         <$> acc
  else acc ++ [(key, [t])].

Definition groups (level : nat) (tasks : list Shown) : list (string * list Shown) :=
  foldl (λ acc t, group_add acc (group_key level t.2) t) [] tasks.

(** [tasks.map((t) => this.report_task(t))] *)
Definition report_tasks (spins : Spins) (tasks : list Shown) : list string * Spins :=
  foldl (λ '(lines, spins) t,
           let '(line, spins') := report_task spins t in (lines ++ [line], spins'))
        ([], spins) tasks.

Definition childStingifier (spins : Spins) (tasks : list Shown) (level : nat)
  : string * Spins :=
  let spaces := repeat_string "  " level in
  let '(lines, spins') := report_tasks spins tasks in
  let body := JsString.join (Executor.LF +:+ spaces) (filter (λ s, s ≠ "") lines) in
  (spaces +:+ body +:+ Executor.LF, spins').

(** [report_tree(tasks, level, max_level)], by recursion on the number
    [depth] of levels left below [level], that is [max_level - level]:
    the test [level < max_level] is the test that [depth] is not [0]. *)
Fixpoint report_tree_from (depth : nat) (spins : Spins) (tasks : list Shown)
    (level : nat) : string * Spins :=
  foldl (λ '(s, spins) '(key, tasks),
           if decide (key = "#tail") then
             let '(x, spins') := childStingifier spins tasks level in
             (s +:+ x, spins')
           else
             let s := s +:+ repeat_string "  " level +:+ key +:+ Executor.LF in
             match depth with
             | S depth' =>
                 let '(x, spins') := report_tree_from depth' spins tasks (level + 1) in
                 (s +:+ x, spins')
             | O =>
                 let '(x, spins') := childStingifier spins tasks (level + 1) in
                 (s +:+ x, spins')
             end)
        ("", spins) (groups level tasks).

Definition report_tree (spins : Spins) (tasks : list Shown) (level max_level : nat)
  : string * Spins :=
  report_tree_from (max_level - level) spins tasks level.

(** The spinners after each running task of [tasks] has been asked for one
    frame. *)
Definition advance (spins : Spins) (tasks : list Shown) : Spins :=
  foldl (λ spins t,
           match status t.2 with
           | running => (task_spin spins t.1).2
           | _ => spins
           end) spins tasks.

End reporter.

(** Three tasks on display: one that has succeeded, one that is running,
    one that is pending. *)
Definition three_tasks : list (nat * Task) :=
  [(0%nat, {| name := "a/x.sql"; status := success; runningPromise := None;
              error := None; message := Some "1B" |});
   (1%nat, {| name := "a/b/y.sql"; status := running; runningPromise := None;
              error := None; message := None |});
   (2%nat, {| name := "c.sql"; status := pending; runningPromise := None;
              error := None; message := None |})].

End Report.

(** ** The options of [push] on the command line *)

Module Cli.

(** The value of a query parameter: a string, or what [parseInt] gives. *)
Inductive ParamValue :=
| PString (s : string)
| PNumber (n : option Z).

(** The character [c] is not in [s]. *)
Definition free (c : ascii) (s : string) : Prop := c ∉ list_ascii_of_string s.

#[global] Instance free_dec c s : Decision (free c s).
Proof. unfold free. apply _. Defined.

Section cli.

(** [parseInt(s)]; [None] stands for [NaN]. *)
Variable parseInt : string → option Z.

(** The callback of the [map] over [cmdOptions.parameter]; [None] when
    the callback prints [CLI Error] and calls [process.exit(1)]. *)
Definition parse_parameter (s : string) : option (string * ParamValue) :=
  let elms := JsString.split ":" s in
  let rawValue := elms !! 2%nat in
  if Executor.falsy rawValue then None
  else
    let rawValue := default "" rawValue in
    let parsed :=
      if bool_decide (elms !! 1%nat = Some "integers") then PNumber (parseInt rawValue)
      else PString rawValue in
    Some (default "" (elms !! 0%nat), parsed).

(** [Object.fromEntries] of the parameters, when none is refused: a name
    that is given twice keeps its last value. *)
Definition parse_parameters (parameter : list string)
  : option (gmap string ParamValue) :=
  list_to_map ∘ reverse <$> mapM parse_parameter parameter.

(** The callback of the [map] over [cmdOptions.label]; the value is
    [undefined] when the label holds no colon. *)
Definition parse_label (l : string) : string * option string :=
  let elms := JsString.split ":" l in
  (default "" (elms !! 0%nat), elms !! 1%nat).

(** [jobOption.labels], when [cmdOptions.label] is given. *)
Definition parse_labels (label : list string) : gmap string (option string) :=
  <["bqporter-enable" := Some "true"]>
    (list_to_map (reverse (parse_label <$> label))).

End cli.

End Cli.

(** * Proofs *)

(** ** Insertion-ordered sets *)

Module JsSetFacts.
Import JsSet.

Section ordered_set.
Context {A : Type} `{EqDecision A}.
Implicit Types (x y : A) (s xs : list A).

Lemma elem_of_add x y s : y ∈ add x s ↔ y = x ∨ y ∈ s.
Proof.
  unfold add. case_decide as Hx.
  - split; [auto|]. intros [->|]; done.
  - rewrite elem_of_app, list_elem_of_singleton. tauto.
Qed.

Lemma NoDup_add x s : NoDup s → NoDup (add x s).
Proof.
  intros Hs. unfold add. case_decide as Hx; [done|].
  apply NoDup_app. split_and!; [done| |apply NoDup_singleton].
  intros y Hy ->%list_elem_of_singleton. done.
Qed.

Lemma elem_of_delete x y s : y ∈ delete x s ↔ y ∈ s ∧ y ≠ x.
Proof. unfold delete. rewrite list_elem_of_filter. tauto. Qed.

Lemma elem_of_fold_add xs acc y :
  y ∈ foldl (λ s x, add x s) acc xs ↔ y ∈ acc ∨ y ∈ xs.
Proof.
  revert acc. induction xs as [|x xs IH]; intros acc; simpl.
  - rewrite elem_of_nil. tauto.
  - rewrite IH, elem_of_add, elem_of_cons. tauto.
Qed.

Lemma elem_of_of_list xs y : y ∈ of_list xs ↔ y ∈ xs.
Proof.
  unfold of_list. rewrite elem_of_fold_add, elem_of_nil. tauto.
Qed.

Lemma NoDup_fold_add xs acc :
  NoDup acc → NoDup (foldl (λ s x, add x s) acc xs).
Proof.
  revert acc. induction xs as [|x xs IH]; intros acc Hacc; simpl; [done|].
  apply IH, NoDup_add, Hacc.
Qed.

Lemma NoDup_of_list xs : NoDup (of_list xs).
Proof. apply NoDup_fold_add, NoDup_nil_2. Qed.

Lemma filter_iff_elem_of (P Q : A → Prop)
    `{!∀ x, Decision (P x), !∀ x, Decision (Q x)} (l : list A) :
  (∀ x, x ∈ l → P x ↔ Q x) → filter P l = filter Q l.
Proof.
  induction l as [|a l IH]; intros HPQ; [done|].
  rewrite !filter_cons, IH.
  - apply decide_ext, HPQ. left.
  - intros x Hx. apply HPQ. by right.
Qed.

Lemma filter_all (P : A → Prop) `{!∀ x, Decision (P x)} (l : list A) :
  (∀ x, x ∈ l → P x) → filter P l = l.
Proof.
  induction l as [|a l IH]; intros HP; [done|].
  rewrite filter_cons_True by (apply HP; left).
  f_equal. apply IH. intros x Hx. apply HP. by right.
Qed.

(** Deleting, one after the other, every element of [ns] keeps the
    elements that are not in [ns]. *)
Lemma delete_all (ns l : list A) :
  foldl (λ N' n, delete n N') l ns = filter (λ n, n ∉ ns) l.
Proof.
  revert l. induction ns as [|n ns IH]; intros l; simpl.
  - symmetry. apply filter_all. intros x _. apply not_elem_of_nil.
  - rewrite IH. unfold delete. rewrite list_filter_filter.
    apply list_filter_iff. intros x. rewrite not_elem_of_cons. tauto.
Qed.

Lemma filter_not_elem_of_filter (P : A → Prop) `{!∀ x, Decision (P x)}
    (l : list A) :
  filter (λ n, n ∉ filter P l) l = filter (λ n, ¬ P n) l.
Proof.
  apply filter_iff_elem_of. intros x Hx.
  rewrite list_elem_of_filter. tauto.
Qed.

Lemma length_filter_split (P : A → Prop) `{!∀ x, Decision (P x)} (l : list A) :
  (length (filter P l) + length (filter (λ n, ¬ P n) l) = length l)%nat.
Proof.
  rewrite <- length_app. apply Permutation_length, filter_app_complement.
Qed.

End ordered_set.

Lemma pop_snoc {A} (l : list A) x : pop (l ++ [x]) = (Some x, l).
Proof. unfold pop. by rewrite reverse_snoc, reverse_involutive. Qed.

Lemma pop_nonempty {A} (l : list A) :
  l ≠ [] → ∃ x l', l = l' ++ [x] ∧ pop l = (Some x, l').
Proof.
  destruct l as [|y l] using rev_ind; [done|]. intros _.
  exists y, l. split; [done|]. apply pop_snoc.
Qed.

End JsSetFacts.

(** ** The topological sorter *)

Module TopoSortFacts.
Import JsSet JsSetFacts TopoSort TopoSpec.

(** *** The three containers built by the [reduce] *)

Lemma build_snoc rel r : build (rel ++ [r]) = graph_step (build rel) r.
Proof. unfold build. by rewrite foldl_snoc. Qed.

Lemma E_get_insert E n v m :
  E_get (<[n := v]> E) m = if decide (n = m) then v else E_get E m.
Proof. unfold E_get. rewrite lookup_insert. by case_decide. Qed.

Lemma G_get_insert G n v m :
  G_get (<[n := v]> G) m = if decide (n = m) then v else G_get G m.
Proof. unfold G_get. rewrite lookup_insert. by case_decide. Qed.

Lemma build_E rel n :
  E_get (gE (build rel)) n = Z.of_nat (length (filter (λ e : Relation, e.1 = n) rel)).
Proof.
  induction rel as [|[s d] rel IH] using rev_ind; [done|].
  rewrite build_snoc, filter_app, length_app. simpl.
  rewrite E_get_insert, filter_cons, filter_nil. simpl.
  destruct (decide (s = n)) as [->|Hne]; simpl; rewrite IH; lia.
Qed.

Lemma build_G rel d :
  NoDup (G_get (gG (build rel)) d) ∧
  ∀ s, s ∈ G_get (gG (build rel)) d ↔ edge rel s d.
Proof.
  unfold edge. induction rel as [|[s' d'] rel [IHn IHe]] using rev_ind.
  - split; [apply NoDup_nil_2|]. intros s. cbn. rewrite !elem_of_nil. tauto.
  - rewrite build_snoc. simpl. rewrite G_get_insert.
    destruct (decide (d' = d)) as [->|Hne].
    + split; [apply NoDup_of_list|]. intros s.
      rewrite elem_of_of_list, elem_of_cons, IHe, elem_of_app, list_elem_of_singleton.
      split; [intros [->|]; auto|]. intros [|[= -> ]]; auto.
    + split; [done|]. intros s.
      rewrite IHe, elem_of_app, list_elem_of_singleton.
      split; [auto|]. intros [|[= -> ->]]; done.
Qed.

Lemma build_N rel :
  NoDup (gN (build rel)) ∧ ∀ n, n ∈ gN (build rel) ↔ is_node rel n.
Proof.
  unfold is_node. induction rel as [|[s d] rel [IHn IHe]] using rev_ind.
  - split; [apply NoDup_nil_2|]. intros n. cbn. rewrite elem_of_nil.
    split; [done|]. intros (e & []%elem_of_nil & _).
  - rewrite build_snoc. simpl. split; [by do 2 apply NoDup_add|].
    intros n. rewrite !elem_of_add, IHe. split.
    + intros [->|[->|(e & He & Hn)]].
      * exists (s, d). rewrite elem_of_app, list_elem_of_singleton. auto.
      * exists (s, d). rewrite elem_of_app, list_elem_of_singleton. auto.
      * exists e. rewrite elem_of_app. auto.
    + intros (e & [He| ->%list_elem_of_singleton]%elem_of_app & Hn); [eauto|].
      simpl in Hn. tauto.
Qed.

(** *** The steps of the loop body *)

Lemma decrement_get E ns n :
  NoDup ns →
  E_get (decrement E ns) n = E_get E n - (if decide (n ∈ ns) then 1 else 0).
Proof.
  unfold decrement. revert E.
  induction ns as [|x ns IH]; intros E Hnd; simpl.
  - lia.
  - apply NoDup_cons in Hnd as [Hx Hnd]. rewrite IH, E_get_insert by done.
    destruct (decide (x = n)) as [->|Hne].
    + rewrite decide_False by done. rewrite decide_True by left. lia.
    + destruct (decide (n ∈ ns)) as [Hin|Hin].
      * rewrite decide_True by (by right). done.
      * rewrite decide_False; [done|]. rewrite not_elem_of_cons. split; auto.
Qed.

Lemma refill_eq ready S0 N0 :
  refill ready S0 N0 = (reverse ready ++ S0, filter (λ n, n ∉ ready) N0).
Proof.
  unfold refill. revert S0 N0.
  induction ready as [|x r IH]; intros S0 N0; simpl.
  - f_equal. symmetry. apply filter_all. intros y _. apply not_elem_of_nil.
  - rewrite IH, reverse_cons, <- app_assoc. simpl. f_equal.
    unfold delete. rewrite list_filter_filter.
    apply list_filter_iff. intros y. rewrite not_elem_of_cons. tauto.
Qed.

(** The body of the loop in closed form, when the node on top of the
    worklist has a non-empty name. *)
Lemma body_continue G E N0 S1 L tgt :
  tgt ≠ "" →
  body G (State E N0 (S1 ++ [tgt]) L) =
    let E1 := decrement E (G_get G tgt) in
    Continue (State E1
      (filter (λ n, ¬ E_get E1 n ≤ 0) N0)
      (reverse (filter (λ n, E_get E1 n ≤ 0) N0) ++ S1)
      (add tgt L)).
Proof.
  intros Hne. unfold body. simpl. rewrite pop_snoc.
  rewrite decide_False by done. rewrite refill_eq. simpl.
  by rewrite filter_not_elem_of_filter.
Qed.

Lemma body_break G E N0 S1 L :
  body G (State E N0 (S1 ++ [""]) L) = Break (State E N0 S1 L).
Proof. unfold body. simpl. by rewrite pop_snoc. Qed.

Lemma init_eq g :
  init g = State (gE g) (filter (λ n, ¬ E_get (gE g) n = 0) (gN g))
                 (filter (λ n, E_get (gE g) n = 0) (gN g)) [].
Proof.
  unfold init. f_equal. rewrite delete_all. apply filter_not_elem_of_filter.
Qed.

(** *** The loop invariant *)

Lemma pending_nil rel n :
  pending rel [] n = filter (λ e : Relation, e.1 = n) rel.
Proof.
  apply list_filter_iff. intros e. split; [tauto|].
  split; [done|apply not_elem_of_nil].
Qed.

Lemma pending_snoc rel L tgt n :
  NoDup rel → tgt ∉ L →
  length (pending rel L n) =
    (length (pending rel (L ++ [tgt]) n) + (if decide (edge rel n tgt) then 1 else 0))%nat.
Proof.
  intros Hnd Htgt. unfold pending, edge.
  induction rel as [|e rel IH]; [done|].
  apply NoDup_cons in Hnd as [He Hnd]. specialize (IH Hnd).
  rewrite !filter_cons.
  destruct (decide (e = (n, tgt))) as [->|Hne]; simpl.
  - rewrite decide_True by done.
    rewrite decide_False by (rewrite elem_of_app, list_elem_of_singleton; tauto).
    rewrite (decide_True (P := (n, tgt) ∈ (n, tgt) :: rel)) by left.
    rewrite decide_False in IH by done. cbn [length]. lia.
  - rewrite (decide_ext ((n, tgt) ∈ e :: rel) ((n, tgt) ∈ rel))
      by (rewrite elem_of_cons; split; [intros [?|?]; [congruence|done]|auto]).
    rewrite (decide_ext (e.1 = n ∧ e.2 ∉ L ++ [tgt]) (e.1 = n ∧ e.2 ∉ L)).
    + destruct (decide (e.1 = n ∧ e.2 ∉ L)); cbn [length]; lia.
    + rewrite elem_of_app, list_elem_of_singleton. destruct e as [a b]; simpl in *.
      split; [tauto|]. intros [-> Hb]. split; [done|]. intros [?| ->]; done.
Qed.

Lemma pending_elem rel L n d :
  edge rel n d → length (pending rel L n) = 0%nat → d ∈ L.
Proof.
  intros He Hlen. destruct (decide (d ∈ L)) as [|Hd]; [done|].
  apply length_zero_iff_nil in Hlen.
  assert ((n, d) ∈ pending rel L n) as Hin
    by (unfold pending; rewrite list_elem_of_filter; auto).
  rewrite Hlen in Hin. by apply elem_of_nil in Hin.
Qed.

Lemma Inv_init rel : Inv rel (init (build rel)).
Proof.
  rewrite init_eq. destruct (build_N rel) as [Hnd Hnodes].
  pose proof (filter_app_complement
    (λ n, E_get (gE (build rel)) n = 0) (gN (build rel))) as Hperm.
  rewrite (comm (++)) in Hperm.
  split; simpl; rewrite ?app_nil_r.
  - by rewrite Hperm.
  - intros n. by rewrite Hperm.
  - intros n. by rewrite build_E, pending_nil.
  - intros n [Hn _]%list_elem_of_filter. rewrite build_E in *. lia.
  - intros n. by intros [Hn _]%list_elem_of_filter.
  - intros l1 s l2 d Heq. by destruct l1.
Qed.

Lemma Inv_step rel st S1 tgt :
  NoDup rel → Inv rel st → st_S st = S1 ++ [tgt] →
  let E1 := decrement (st_E st) (G_get (gG (build rel)) tgt) in
  Inv rel (State E1
    (filter (λ n, ¬ E_get E1 n ≤ 0) (st_N st))
    (reverse (filter (λ n, E_get E1 n ≤ 0) (st_N st)) ++ S1)
    (add tgt (st_L st))).
Proof.
  intros Hrel [Hnd Hnodes Hcount Hwait Hready Hord] HS E1.
  destruct (build_G rel tgt) as [HGnd HG].
  rewrite HS in *.
  assert (tgt ∉ st_L st) as HtgtL.
  { apply NoDup_app in Hnd as (_ & _ & Hnd).
    apply NoDup_app in Hnd as (_ & Hdisj & _).
    apply Hdisj. rewrite elem_of_app, list_elem_of_singleton. auto. }
  assert (add tgt (st_L st) = st_L st ++ [tgt]) as ->
    by (unfold add; by rewrite decide_False).
  assert (∀ n, E_get E1 n = Z.of_nat (length (pending rel (st_L st ++ [tgt]) n)))
    as Hcount1.
  { intros n. unfold E1. rewrite decrement_get, Hcount by done.
    rewrite (pending_snoc rel (st_L st) tgt n) by done.
    specialize (HG n).
    destruct (decide (edge rel n tgt)), (decide (n ∈ G_get (gG (build rel)) tgt));
      [lia|tauto|tauto|lia]. }
  assert (∀ n, E_get E1 n ≤ E_get (st_E st) n) as Hle.
  { intros n. rewrite Hcount1, Hcount.
    rewrite (pending_snoc rel (st_L st) tgt n) by done. lia. }
  pose proof (filter_app_complement (λ n, E_get E1 n ≤ 0) (st_N st)) as Hperm0.
  assert (filter (λ n, ¬ E_get E1 n ≤ 0) (st_N st)
            ++ (reverse (filter (λ n, E_get E1 n ≤ 0) (st_N st)) ++ S1)
            ++ st_L st ++ [tgt]
          ≡ₚ st_N st ++ (S1 ++ [tgt]) ++ st_L st) as Hperm.
  { rewrite reverse_Permutation. rewrite <- Hperm0 at 3. solve_Permutation. }
  split; simpl.
  - by rewrite Hperm.
  - intros n. by rewrite Hperm.
  - done.
  - intros n [Hn _]%list_elem_of_filter. lia.
  - intros n Hn. specialize (Hle n). specialize (Hcount1 n).
    rewrite !elem_of_app, elem_of_reverse, list_elem_of_filter in Hn.
    destruct Hn as [[[Hn _]|Hn]|Hn].
    + lia.
    + rewrite Hready in Hle; [lia|]. rewrite !elem_of_app. auto.
    + rewrite Hready in Hle; [lia|].
      rewrite !elem_of_app. rewrite list_elem_of_singleton in *. tauto.
  - intros l1 s l2 d Heq He.
    destruct l2 as [|x l2 _] using rev_ind.
    + apply app_inj_tail in Heq as [Hl <-]. rewrite <- Hl.
      apply (pending_elem rel (st_L st) tgt d He).
      specialize (Hready tgt). rewrite Hcount in Hready.
      apply Nat2Z.inj. rewrite Hready; [done|].
      rewrite !elem_of_app, list_elem_of_singleton. auto.
    + rewrite app_comm_cons, app_assoc in Heq.
      apply app_inj_tail in Heq as [Heq _]. by eapply Hord.
Qed.

(** *** Termination of the loop *)

(** Each pass moves one node out of [S] and moves nodes from [N] to [S],
    so [length S + length N] drops by one. *)
Lemma while_snoc fuel G E N0 S1 tgt L :
  while (S fuel) G (State E N0 (S1 ++ [tgt]) L) =
    match body G (State E N0 (S1 ++ [tgt]) L) with
    | Continue st' => while fuel G st'
    | Break st' => Some st'
    end.
Proof. by destruct S1. Qed.

Lemma while_total fuel G st :
  (length (st_S st) + length (st_N st) ≤ fuel)%nat → is_Some (while fuel G st).
Proof.
  revert st. induction fuel as [|fuel IH]; intros [E N0 S0 L]; simpl; intros Hm.
  - destruct S0; [eauto|simpl in Hm; lia].
  - destruct S0 as [|x S0]; [eauto|].
    destruct (pop_nonempty (x :: S0)) as (tgt & S1 & HS & _); [done|].
    rewrite HS in *. rewrite length_app in Hm. simpl in Hm.
    destruct (decide (tgt = "")) as [->|Hne].
    + rewrite body_break. eauto.
    + rewrite body_continue by done. cbn zeta. apply IH. simpl.
      rewrite length_app, length_reverse.
      pose proof (length_filter_split
        (λ n, E_get (decrement E (G_get G tgt)) n ≤ 0) N0). lia.
Qed.

Lemma run_total rel : is_Some (run rel).
Proof.
  unfold run. apply while_total. rewrite init_eq. simpl.
  pose proof (length_filter_split
    (λ n, E_get (gE (build rel)) n = 0) (gN (build rel))). lia.
Qed.

Lemma while_Inv rel fuel st :
  NoDup rel → named rel → Inv rel st →
  (length (st_S st) + length (st_N st) ≤ fuel)%nat →
  ∃ st', while fuel (gG (build rel)) st = Some st' ∧ Inv rel st' ∧ st_S st' = [].
Proof.
  intros Hrel Hnamed. revert st.
  induction fuel as [|fuel IH]; intros st HI Hm.
  - destruct st as [E N0 S0 L]. simpl in *.
    destruct S0; [eauto|simpl in Hm; lia].
  - destruct (decide (st_S st = [])) as [HS|HS].
    { exists st. destruct st as [E N0 S0 L]. simpl in *. by subst. }
    destruct (pop_nonempty _ HS) as (tgt & S1 & HS1 & _).
    pose proof (Inv_step rel st S1 tgt Hrel HI HS1) as HI'. cbn zeta in HI'.
    assert (tgt ≠ "") as Hne.
    { apply Hnamed, (inv_nodes _ _ HI).
      rewrite HS1, !elem_of_app, list_elem_of_singleton. auto. }
    destruct st as [E N0 S0 L]. simpl in HS1, Hm, HI'. subst S0.
    rewrite while_snoc, body_continue by done. cbn zeta. apply IH; [done|]. simpl.
    rewrite length_app, length_reverse.
    rewrite length_app in Hm. simpl in Hm.
    pose proof (length_filter_split
      (λ n, E_get (decrement E (G_get (gG (build rel)) tgt)) n ≤ 0) N0). lia.
Qed.

Lemma run_Inv rel :
  NoDup rel → named rel →
  ∃ st, run rel = Some st ∧ Inv rel st ∧ st_S st = [].
Proof.
  intros Hrel Hnamed. unfold run.
  apply while_Inv; [done|done|apply Inv_init|].
  rewrite init_eq. simpl.
  pose proof (length_filter_split
    (λ n, E_get (gE (build rel)) n = 0) (gN (build rel))). lia.
Qed.

(** *** What the state at the end of the loop says about the graph *)

Lemma ordered_closed rel L x y : ordered rel L → x ∈ L → edge rel x y → y ∈ L.
Proof.
  intros Hord (l1 & l2 & ->)%list_elem_of_split He.
  rewrite elem_of_app. left. by eapply Hord.
Qed.

Lemma ordered_rtc rel L x y :
  ordered rel L → x ∈ L → rtc (edge rel) x y → y ∈ L.
Proof. intros Hord Hx Hr. induction Hr; eauto using ordered_closed. Qed.

Lemma ordered_before rel L s d :
  ordered rel L → s ∈ L → edge rel s d → before L d s.
Proof.
  intros Hord (l1 & l2 & ->)%list_elem_of_split He.
  destruct (list_elem_of_split l1 d) as (l1a & l1b & ->); [by eapply Hord|].
  exists l1a, l1b, l2. by rewrite <- app_assoc.
Qed.

Lemma ordered_app_l rel L1 L2 : ordered rel (L1 ++ L2) → ordered rel L1.
Proof.
  intros Hord l1 s l2 d -> He.
  eapply (Hord l1 s (l2 ++ L2)); [|done]. by rewrite <- app_assoc.
Qed.

(** A list in which every node comes after what it depends on holds no
    node of a cycle. *)
Lemma ordered_no_cycle rel L x :
  ordered rel L → NoDup L → x ∈ L → ¬ tc (edge rel) x x.
Proof.
  induction L as [|s L IH] using rev_ind; intros Hord Hnd Hx Htc.
  - by apply elem_of_nil in Hx.
  - apply NoDup_app in Hnd as (HndL & Hdisj & _).
    pose proof (ordered_app_l _ _ _ Hord) as HordL.
    apply elem_of_app in Hx as [Hx| ->%list_elem_of_singleton]; [by eapply IH|].
    assert (∃ d, edge rel s d ∧ rtc (edge rel) d s) as (d & Hd & Hds).
    { inversion Htc; subst; eauto using tc_rtc. }
    assert (d ∈ L) as HdL by (by eapply (Hord L s [])).
    eapply Hdisj; [by eapply ordered_rtc|]. by apply list_elem_of_singleton.
Qed.

(** In a finite set of nodes each of which has a successor in the set,
    every walk runs into a cycle. *)
Lemma walk_cycle_aux (R : relation string) (V : list string) :
  (∀ n, n ∈ V → ∃ m, m ∈ V ∧ R n m) →
  ∀ (k : nat) seen n,
    (length V ≤ k + length seen)%nat → NoDup seen →
    (∀ x, x ∈ seen → x ∈ V ∧ tc R x n) → n ∈ V →
    ∃ m, rtc R n m ∧ tc R m m.
Proof.
  intros Hsucc k. induction k as [|k IH]; intros seen n Hlen Hnd Hseen Hn.
  - destruct (decide (n ∈ seen)) as [Hin|Hin].
    { exists n. split; [done|]. by apply Hseen. }
    assert (n :: seen ⊆+ V) as Hsub.
    { apply NoDup_submseteq; [by apply NoDup_cons|].
      intros x [->|Hx]%elem_of_cons; [done|]. by apply Hseen. }
    apply submseteq_length in Hsub. simpl in *. lia.
  - destruct (decide (n ∈ seen)) as [Hin|Hin].
    { exists n. split; [done|]. by apply Hseen. }
    destruct (Hsucc n Hn) as (m & Hm & Hnm).
    destruct (IH (n :: seen) m) as (c & Hmc & Hc).
    + simpl. lia.
    + by apply NoDup_cons.
    + intros x [->|Hx]%elem_of_cons; [split; [done|by apply tc_once]|].
      destruct (Hseen x Hx). split; [done|]. by eapply tc_r.
    + done.
    + exists c. split; [by eapply rtc_l|done].
Qed.

Lemma walk_cycle (R : relation string) (V : list string) n :
  (∀ n, n ∈ V → ∃ m, m ∈ V ∧ R n m) → n ∈ V → ∃ m, rtc R n m ∧ tc R m m.
Proof.
  intros Hsucc Hn. apply (walk_cycle_aux R V Hsucc (length V) [] n).
  - lia.
  - apply NoDup_nil_2.
  - intros x []%elem_of_nil.
  - done.
Qed.

Lemma Inv_successor rel st n :
  Inv rel st → st_S st = [] → n ∈ st_N st → ∃ m, m ∈ st_N st ∧ edge rel n m.
Proof.
  intros HI HS Hn. pose proof (inv_wait _ _ HI n Hn) as Hpos.
  rewrite (inv_count _ _ HI) in Hpos.
  destruct (pending rel (st_L st) n) as [|[a m] ?] eqn:Hp; [simpl in Hpos; lia|].
  assert ((a, m) ∈ pending rel (st_L st) n) as Hin by (rewrite Hp; left).
  unfold pending in Hin. apply list_elem_of_filter in Hin as [[Ha Hm] Hin].
  simpl in *. subst a. exists m. split; [|done].
  assert (is_node rel m) as Hnode by (exists (n, m); auto).
  apply (inv_nodes _ _ HI) in Hnode. rewrite HS in Hnode. simpl in Hnode.
  apply elem_of_app in Hnode as [|]; done.
Qed.

Lemma Inv_L rel st : Inv rel st → NoDup (st_L st).
Proof.
  intros HI. pose proof (inv_nodup _ _ HI) as Hnd.
  apply NoDup_app in Hnd as (_ & _ & Hnd). by apply NoDup_app in Hnd as (_ & _ & Hnd).
Qed.

(** The nodes left in [N] are the nodes from which a cycle is reachable. *)
Lemma Inv_residual rel st n :
  Inv rel st → st_S st = [] →
  n ∈ st_N st ↔ is_node rel n ∧ reaches_cycle rel n.
Proof.
  intros HI HS. split.
  - intros Hn. split.
    + apply (inv_nodes _ _ HI). rewrite elem_of_app. auto.
    + apply (walk_cycle (edge rel) (st_N st)); [|done].
      intros x Hx. by eapply Inv_successor.
  - intros [Hnode (m & Hnm & Hm)].
    apply (inv_nodes _ _ HI) in Hnode. rewrite HS in Hnode. simpl in Hnode.
    apply elem_of_app in Hnode as [|HnL]; [done|].
    destruct (ordered_no_cycle rel (st_L st) m); [apply HI|by eapply Inv_L| |done].
    eapply ordered_rtc; [apply HI|done|done].
Qed.

Lemma Inv_acyclic rel st :
  Inv rel st → st_S st = [] → st_N st = [] → ¬ cyclic rel.
Proof.
  intros HI HS HN [n Hn].
  assert (n ∈ st_N st) as Hin; [|rewrite HN in Hin; by apply elem_of_nil in Hin].
  apply (Inv_residual rel st n HI HS). split.
  - assert (∃ y, edge rel n y) as [y He] by (inversion Hn; subst; eauto).
    exists (n, y). auto.
  - exists n. split; [done|done].
Qed.

(** *** Checking the side conditions on a concrete list *)

Lemma named_Forall rel :
  Forall (λ e : Relation, e.1 ≠ "" ∧ e.2 ≠ "") rel → named rel.
Proof.
  intros Hall n (e & He & Hn). rewrite Forall_forall in Hall.
  destruct (Hall e He). by destruct Hn as [-> | ->].
Qed.

(** A graph whose relations all go down along some rank has no cycle. *)
Lemma ranked_acyclic rel (rank : string → nat) :
  Forall (λ e : Relation, (rank e.2 < rank e.1)%nat) rel → ¬ cyclic rel.
Proof.
  intros Hall [n Hn]. rewrite Forall_forall in Hall.
  assert (∀ x y, tc (edge rel) x y → (rank y < rank x)%nat) as Hdown.
  { intros x y Hxy. induction Hxy as [x y He|x y z He _ IH].
    - apply (Hall (x, y) He).
    - pose proof (Hall (x, y) He). simpl in *. lia. }
  specialize (Hdown n n Hn). lia.
Qed.

Lemma tc_edge_subseteq r1 r2 x y :
  (∀ e, e ∈ r1 → e ∈ r2) → tc (edge r1) x y → tc (edge r2) x y.
Proof.
  intros Hsub Hxy. induction Hxy as [x y He|x y z He _ IH].
  - apply tc_once, Hsub, He.
  - eapply tc_l; [apply Hsub, He|done].
Qed.

Lemma rtc_edge_subseteq r1 r2 x y :
  (∀ e, e ∈ r1 → e ∈ r2) → rtc (edge r1) x y → rtc (edge r2) x y.
Proof. intros Hsub. apply rtc_subrel. intros a b. apply Hsub. Qed.

(** *** The sorter always returns or throws *)

Lemma topologicalSort_total rel : is_Some (topologicalSort rel).
Proof.
  unfold topologicalSort. destruct (run_total rel) as [st ->]. by eexists.
Qed.

(** *** Sorting an acyclic graph *)

(** C1, as amended: for every list of relations without repetitions and
    without empty node names whose graph has no cycle, [topologicalSort]
    returns an order that holds every node of the graph exactly once and in
    which, for every relation [(from, to)], [to] comes before [from]. *)
Theorem topologicalSort_sorts rel :
  NoDup rel → named rel → ¬ cyclic rel →
  ∃ order,
    topologicalSort rel = Some (Return order) ∧
    NoDup order ∧
    (∀ n, n ∈ order ↔ is_node rel n) ∧
    (∀ s d, edge rel s d → before order d s).
Proof.
  intros Hrel Hnamed Hacyc.
  destruct (run_Inv rel Hrel Hnamed) as (st & Hrun & HI & HS).
  destruct (st_N st) as [|n N'] eqn:HN.
  - exists (st_L st). unfold topologicalSort, finish. rewrite Hrun. simpl.
    rewrite HN. split_and!.
    + done.
    + by eapply Inv_L.
    + intros n. rewrite <- (inv_nodes _ _ HI), HN, HS. done.
    + intros s d He. eapply ordered_before; [apply HI| |done].
      assert (is_node rel s) as Hs by (exists (s, d); auto).
      apply (inv_nodes _ _ HI) in Hs. by rewrite HN, HS in Hs.
  - exfalso. apply Hacyc.
    assert (n ∈ st_N st) as Hn by (rewrite HN; left).
    apply (Inv_residual rel st n HI HS) in Hn as [_ (m & _ & Hm)]. by exists m.
Qed.

Lemma topologicalSort_sorts_witness :
  ∃ order,
    topologicalSort chain_example = Some (Return order) ∧
    NoDup order ∧
    (∀ n, n ∈ order ↔ is_node chain_example n) ∧
    (∀ s d, edge chain_example s d → before order d s).
Proof.
  apply (topologicalSort_sorts chain_example).
  - apply (bool_decide_unpack _). vm_compute. exact I.
  - apply named_Forall, (bool_decide_unpack _). vm_compute. exact I.
  - apply (ranked_acyclic _ chain_rank), (bool_decide_unpack _). vm_compute. exact I.
Defined.

Example topologicalSort_chain :
  topologicalSort chain_example = Some (Return ["c"; "b"; "a"]).
Proof. vm_compute. reflexivity. Qed.

(** The list [[a, b], [a, b]] has no cycle, and [topologicalSort] throws
    on it: [E] counts the relation twice and [G] holds it once. *)
Lemma topologicalSort_repeated_relation :
  ¬ cyclic repeated_example ∧
  topologicalSort repeated_example = Some (Throw "Cycle detected: a") ∧
  ¬ ∃ order, topologicalSort repeated_example = Some (Return order).
Proof.
  split_and!.
  - apply (ranked_acyclic _ chain_rank), (bool_decide_unpack _). vm_compute. exact I.
  - vm_compute. reflexivity.
  - intros [order Ho]. vm_compute in Ho. discriminate Ho.
Qed.

(** *** Failing on a cycle *)

Lemma finish_Throw st msg :
  finish st = Throw msg ↔ st_N st ≠ [] ∧ msg = cycle_message (st_N st).
Proof.
  unfold finish. destruct (st_N st) as [|n N']; split.
  - discriminate.
  - by intros [[] _].
  - intros [= <-]. done.
  - by intros [_ ->].
Qed.

(** C2, as amended: for every list of relations without repetitions and
    without empty node names, [topologicalSort] throws if and only if the
    graph has a directed cycle; the message it throws lists the nodes left
    in [N] when the worklist [S] has emptied, which are the nodes whose
    counter in [E] is still positive, and which are the nodes from which a
    cycle can be reached. *)
Theorem topologicalSort_cycle rel :
  NoDup rel → named rel →
  (cyclic rel ↔ ∃ msg, topologicalSort rel = Some (Throw msg)) ∧
  ∀ msg, topologicalSort rel = Some (Throw msg) →
    ∃ st, run rel = Some st ∧ st_S st = [] ∧
      msg = cycle_message (st_N st) ∧ NoDup (st_N st) ∧
      (∀ n, n ∈ st_N st ↔ is_node rel n ∧ 0 < E_get (st_E st) n) ∧
      (∀ n, n ∈ st_N st ↔ is_node rel n ∧ reaches_cycle rel n).
Proof.
  intros Hrel Hnamed.
  destruct (run_Inv rel Hrel Hnamed) as (st & Hrun & HI & HS).
  unfold topologicalSort. rewrite Hrun. simpl. split.
  - split.
    + intros Hc. destruct (finish st) as [order|msg] eqn:Hf; [|by eexists].
      exfalso. apply (Inv_acyclic rel st HI HS); [|done].
      unfold finish in Hf. by destruct (st_N st).
    + intros [msg [= [Hne _]%finish_Throw]].
      destruct (st_N st) as [|n N'] eqn:HN; [done|].
      assert (n ∈ st_N st) as Hn by (rewrite HN; left).
      apply (Inv_residual rel st n HI HS) in Hn as [_ (m & _ & Hm)]. by exists m.
  - intros msg [= [Hne ->]%finish_Throw]. exists st. split_and!; try done.
    + pose proof (inv_nodup _ _ HI) as Hnd. by apply NoDup_app in Hnd as (? & _).
    + intros n. split.
      * intros Hn. split; [|by apply (inv_wait _ _ HI)].
        apply (inv_nodes _ _ HI). rewrite elem_of_app. auto.
      * intros [Hnode Hpos]. apply (inv_nodes _ _ HI) in Hnode.
        rewrite HS in Hnode. simpl in Hnode.
        apply elem_of_app in Hnode as [|HnL]; [done|].
        rewrite (inv_ready _ _ HI) in Hpos; [lia|]. rewrite HS. done.
    + intros n. by apply Inv_residual.
Qed.

Lemma topologicalSort_cycle_witness :
  (cyclic cycle_example ↔ ∃ msg, topologicalSort cycle_example = Some (Throw msg)) ∧
  ∀ msg, topologicalSort cycle_example = Some (Throw msg) →
    ∃ st, run cycle_example = Some st ∧ st_S st = [] ∧
      msg = cycle_message (st_N st) ∧ NoDup (st_N st) ∧
      (∀ n, n ∈ st_N st ↔ is_node cycle_example n ∧ 0 < E_get (st_E st) n) ∧
      (∀ n, n ∈ st_N st ↔ is_node cycle_example n ∧ reaches_cycle cycle_example n).
Proof.
  apply (topologicalSort_cycle cycle_example).
  - apply (bool_decide_unpack _). vm_compute. exact I.
  - apply named_Forall, (bool_decide_unpack _). vm_compute. exact I.
Defined.

Example topologicalSort_cycle_example :
  topologicalSort cycle_example = Some (Throw "Cycle detected: y, x, z").
Proof. vm_compute. reflexivity. Qed.

(** The list [[a, ""]] has no cycle, and [topologicalSort] throws on it:
    the loop is left as soon as the node with the empty name is popped. *)
Lemma topologicalSort_empty_name :
  ¬ cyclic unnamed_example ∧
  topologicalSort unnamed_example = Some (Throw "Cycle detected: a").
Proof.
  split.
  - apply (ranked_acyclic _ chain_rank), (bool_decide_unpack _). vm_compute. exact I.
  - vm_compute. reflexivity.
Qed.

(** *** Dependence on the order of the relations *)

Lemma is_node_equiv r1 r2 n :
  (∀ e, e ∈ r1 ↔ e ∈ r2) → is_node r1 n ↔ is_node r2 n.
Proof.
  intros Heq. unfold is_node. split; intros (e & He & Hn); exists e;
    (split; [by apply Heq|done]).
Qed.

Lemma reaches_cycle_subseteq r1 r2 n :
  (∀ e, e ∈ r1 → e ∈ r2) → reaches_cycle r1 n → reaches_cycle r2 n.
Proof.
  intros Hsub (m & Hnm & Hm). exists m.
  split; [by eapply rtc_edge_subseteq|by eapply tc_edge_subseteq].
Qed.

(** *** The order of extraction *)

Lemma of_list_snoc {A} `{EqDecision A} (xs : list A) x :
  of_list (xs ++ [x]) = add x (of_list xs).
Proof. unfold of_list. by rewrite foldl_snoc. Qed.

Lemma filter_nothing {A} (P : A → Prop) `{!∀ x, Decision (P x)} (l : list A) :
  (∀ x, x ∈ l → ¬ P x) → filter P l = [].
Proof.
  induction l as [|a l IH]; intros HP; [done|].
  rewrite filter_cons_False by (apply HP; left).
  apply IH. intros x Hx. apply HP. by right.
Qed.

Lemma build_first_seen rel : gN (build rel) = first_seen rel.
Proof.
  unfold first_seen. induction rel as [|[s d] rel IH] using rev_ind; [done|].
  rewrite build_snoc, bind_app. simpl. rewrite IH.
  change [d; s] with ([d] ++ [s]). by rewrite app_assoc, !of_list_snoc.
Qed.

Lemma E_zero_iff rel n : E_get (gE (build rel)) n = 0 ↔ n ∉ rel.*1.
Proof.
  rewrite build_E. split.
  - intros Hlen (e & -> & He)%list_elem_of_fmap.
    assert (e ∈ filter (λ e' : Relation, e'.1 = e.1) rel) as Hin
      by (by apply list_elem_of_filter).
    destruct (filter _ rel); [by apply elem_of_nil in Hin|simpl in Hlen; lia].
  - intros Hn. rewrite filter_nothing; [done|].
    intros e He Heq. apply Hn, list_elem_of_fmap. by exists e.
Qed.

Lemma init_ready rel : st_S (init (build rel)) = ready_at_start rel.
Proof.
  rewrite init_eq. simpl. unfold ready_at_start. rewrite build_first_seen.
  apply list_filter_iff. intros n. apply E_zero_iff.
Qed.

Lemma prior_snoc l t : t ∉ l → prior (l ++ [t]) t = l.
Proof.
  induction l as [|x l IH]; simpl; intros Ht.
  - by rewrite decide_True.
  - apply not_elem_of_cons in Ht as [Hne Ht].
    rewrite decide_False by done. by rewrite IH.
Qed.

Lemma prior_app l l' t : t ∈ l → prior (l ++ l') t = prior l t.
Proof.
  induction l as [|x l IH]; simpl; [by intros []%elem_of_nil|].
  destruct (decide (x = t)) as [->|Hne]; [done|].
  intros [?|Ht]%elem_of_cons; [congruence|]. by rewrite IH.
Qed.

Lemma woken_app rel l l' t : t ∈ l → woken rel (l ++ l') t = woken rel l t.
Proof. intros Ht. unfold woken. by rewrite prior_app. Qed.

Lemma filter_elem_of_self {A} `{EqDecision A} (P : A → Prop)
    `{!∀ x, Decision (P x)} (l : list A) :
  filter P l = filter (λ n, n ∈ filter P l) l.
Proof.
  apply filter_iff_elem_of. intros x Hx. rewrite list_elem_of_filter. tauto.
Qed.

Lemma queue_init rel : queue rel (init (build rel)).
Proof.
  split.
  - rewrite init_eq. simpl. rewrite build_first_seen. apply filter_elem_of_self.
  - rewrite init_ready. rewrite init_eq. simpl. by rewrite app_nil_r.
Qed.

Lemma queue_step rel st S1 tgt :
  NoDup rel → Inv rel st → queue rel st → st_S st = S1 ++ [tgt] →
  let E1 := decrement (st_E st) (G_get (gG (build rel)) tgt) in
  queue rel (State E1
    (filter (λ n, ¬ E_get E1 n ≤ 0) (st_N st))
    (reverse (filter (λ n, E_get E1 n ≤ 0) (st_N st)) ++ S1)
    (add tgt (st_L st))).
Proof.
  intros Hrel HI [HN HQ] HS E1.
  pose proof (Inv_step rel st S1 tgt Hrel HI HS) as HI'. cbn zeta in HI'. fold E1 in HI'.
  assert ((tgt ∉ st_L st) ∧ (tgt ∉ st_N st)) as [HtL HtN].
  { pose proof (inv_nodup _ _ HI) as Hnd. rewrite HS in Hnd.
    apply NoDup_app in Hnd as (_ & HNS & Hnd).
    apply NoDup_app in Hnd as (_ & HSL & _). split.
    - apply HSL. rewrite elem_of_app, list_elem_of_singleton. auto.
    - intros Hin. apply (HNS _ Hin). rewrite !elem_of_app, list_elem_of_singleton. auto. }
  assert (add tgt (st_L st) = st_L st ++ [tgt]) as Hadd
    by (unfold add; by rewrite decide_False).
  rewrite Hadd in *.
  split; simpl.
  - rewrite HN at 1. rewrite list_filter_filter.
    rewrite (filter_elem_of_self (λ n, (¬ E_get E1 n ≤ 0) ∧ n ∈ st_N st) (first_seen rel)) at 1.
    apply filter_iff_elem_of. intros n Hn.
    rewrite !list_elem_of_filter. rewrite HN at 2. rewrite list_elem_of_filter. tauto.
  - rewrite reverse_app, reverse_involutive, bind_app. simpl. rewrite app_nil_r.
    rewrite HS, reverse_app in HQ. simpl in HQ.
    transitivity ((st_L st ++ tgt :: reverse S1)
                  ++ filter (λ n, E_get E1 n ≤ 0) (st_N st));
      [by rewrite <- !app_assoc|].
    rewrite HQ, <- app_assoc. f_equal. f_equal.
    + apply Forall_bind_ext, Forall_forall. intros t Ht. symmetry. by apply woken_app.
    + unfold woken. rewrite prior_snoc by done.
      rewrite HN at 1. rewrite list_filter_filter.
      apply filter_iff_elem_of. intros n Hn.
      pose proof (inv_count _ _ HI' n) as Hcount. simpl in Hcount. rewrite Hcount.
      assert (is_node rel n) as Hnode.
      { apply build_N. by rewrite build_first_seen. }
      split.
      * intros [HE1 HnN].
        assert (length (pending rel (st_L st ++ [tgt]) n) = 0%nat) as Hz by lia.
        assert (∀ d, edge rel n d → d = tgt ∨ d ∈ st_L st) as Hdeps.
        { intros d Hd. pose proof (pending_elem rel _ n d Hd Hz) as Hin.
          rewrite elem_of_app, list_elem_of_singleton in Hin. tauto. }
        split.
        -- pose proof (inv_wait _ _ HI n HnN) as Hpos.
           rewrite (inv_count _ _ HI n) in Hpos.
           destruct (pending rel (st_L st) n) as [|[a d] ps] eqn:Hp; [simpl in Hpos; lia|].
           assert ((a, d) ∈ pending rel (st_L st) n) as Hin by (rewrite Hp; left).
           unfold pending in Hin. apply list_elem_of_filter in Hin as [[Ha Hd] Hin].
           simpl in *. subst a. destruct (Hdeps d Hin) as [->|?]; done.
        -- apply Forall_forall. intros [a d] He Ha. simpl in *. subst a.
           by apply Hdeps.
      * intros [Hedge Hall]. rewrite Forall_forall in Hall.
        assert (length (pending rel (st_L st ++ [tgt]) n) = 0%nat) as Hz.
        { apply length_zero_iff_nil, filter_nothing.
          intros [a d] He [Ha Hd]. simpl in *. subst a. apply Hd.
          rewrite elem_of_app, list_elem_of_singleton.
          destruct (Hall (n, d) He eq_refl); auto. }
        split; [lia|].
        apply (inv_nodes _ _ HI) in Hnode.
        apply elem_of_app in Hnode as [|Hready]; [done|]. exfalso.
        pose proof (inv_ready _ _ HI n Hready) as Hzero.
        rewrite (inv_count _ _ HI n) in Hzero.
        assert ((n, tgt) ∈ pending rel (st_L st) n) as Hin
          by (unfold pending; rewrite list_elem_of_filter; auto).
        destruct (pending rel (st_L st) n); [by apply elem_of_nil in Hin|].
        simpl in Hzero. lia.
Qed.

Lemma while_queue rel fuel st :
  NoDup rel → named rel → Inv rel st → queue rel st →
  (length (st_S st) + length (st_N st) ≤ fuel)%nat →
  ∃ st', while fuel (gG (build rel)) st = Some st' ∧ queue rel st' ∧ st_S st' = [].
Proof.
  intros Hrel Hnamed. revert st.
  induction fuel as [|fuel IH]; intros st HI HQ Hm.
  - destruct st as [E N0 S0 L]. simpl in *.
    destruct S0; [eauto|simpl in Hm; lia].
  - destruct (decide (st_S st = [])) as [HS|HS].
    { exists st. destruct st as [E N0 S0 L]. simpl in *. by subst. }
    destruct (pop_nonempty _ HS) as (tgt & S1 & HS1 & _).
    pose proof (Inv_step rel st S1 tgt Hrel HI HS1) as HI'. cbn zeta in HI'.
    pose proof (queue_step rel st S1 tgt Hrel HI HQ HS1) as HQ'. cbn zeta in HQ'.
    assert (tgt ≠ "") as Hne.
    { apply Hnamed, (inv_nodes _ _ HI).
      rewrite HS1, !elem_of_app, list_elem_of_singleton. auto. }
    destruct st as [E N0 S0 L]. simpl in HS1, Hm, HI', HQ'. subst S0.
    rewrite while_snoc, body_continue by done. cbn zeta. apply IH; [done..|]. simpl.
    rewrite length_app, length_reverse.
    rewrite length_app in Hm. simpl in Hm.
    pose proof (length_filter_split
      (λ n, E_get (decrement E (G_get (gG (build rel)) tgt)) n ≤ 0) N0). lia.
Qed.

Lemma run_queue rel :
  NoDup rel → named rel →
  ∃ st, run rel = Some st ∧
    st_N st = filter (λ n, n ∈ st_N st) (first_seen rel) ∧
    st_L st = reverse (ready_at_start rel) ++ (st_L st ≫= woken rel (st_L st)).
Proof.
  intros Hrel Hnamed. unfold run.
  destruct (while_queue rel (length (gN (build rel))) (init (build rel)))
    as (st & Hrun & [HN HQ] & HS); [done|done|apply Inv_init|apply queue_init| |].
  { rewrite init_eq. simpl.
    pose proof (length_filter_split
      (λ n, E_get (gE (build rel)) n = 0) (gN (build rel))). lia. }
  exists st. split_and!; [done..|]. by rewrite HS, app_nil_r in HQ.
Qed.

(** C3, as amended: the returned order is a function of the order in which
    the relations are listed, not of their set.  For two lists without
    repetitions and without empty node names that hold the same relations,
    [topologicalSort] returns on both or throws on both; the two returned
    orders hold the same nodes, and the two messages list the same nodes,
    in an order that may differ.  The order goes by where the nodes first
    appear in the list, and the worklist is a queue: a returned order is
    the nodes that depend on nothing, the one that first appears last
    coming first, and then, for each node of the order in turn, the nodes
    that have it for the last of their dependencies, in the order of
    first appearance; a message lists its nodes in the order of first
    appearance. *)
Theorem topologicalSort_same_relations r1 r2 :
  NoDup r1 → NoDup r2 → named r1 → (∀ e, e ∈ r1 ↔ e ∈ r2) →
  (∃ o1 o2,
      topologicalSort r1 = Some (Return o1) ∧
      topologicalSort r2 = Some (Return o2) ∧ o1 ≡ₚ o2 ∧
      o1 = reverse (ready_at_start r1) ++ (o1 ≫= woken r1 o1) ∧
      o2 = reverse (ready_at_start r2) ++ (o2 ≫= woken r2 o2)) ∨
  (∃ n1 n2,
      topologicalSort r1 = Some (Throw (cycle_message n1)) ∧
      topologicalSort r2 = Some (Throw (cycle_message n2)) ∧ n1 ≡ₚ n2 ∧
      n1 = filter (λ n, n ∈ n1) (first_seen r1) ∧
      n2 = filter (λ n, n ∈ n2) (first_seen r2)).
Proof.
  intros Hr1 Hr2 Hnamed1 Heq.
  assert (named r2) as Hnamed2.
  { intros n Hn. apply Hnamed1. by apply (is_node_equiv r1 r2). }
  destruct (run_Inv r1 Hr1 Hnamed1) as (st1 & Hrun1 & HI1 & HS1).
  destruct (run_Inv r2 Hr2 Hnamed2) as (st2 & Hrun2 & HI2 & HS2).
  destruct (run_queue r1 Hr1 Hnamed1) as (st1' & Hrun1' & HN1q & HL1q).
  rewrite Hrun1 in Hrun1'. injection Hrun1' as <-.
  destruct (run_queue r2 Hr2 Hnamed2) as (st2' & Hrun2' & HN2q & HL2q).
  rewrite Hrun2 in Hrun2'. injection Hrun2' as <-.
  assert (st_N st1 ≡ₚ st_N st2) as HN.
  { apply NoDup_Permutation.
    - pose proof (inv_nodup _ _ HI1) as Hnd. by apply NoDup_app in Hnd as (? & _).
    - pose proof (inv_nodup _ _ HI2) as Hnd. by apply NoDup_app in Hnd as (? & _).
    - intros n. rewrite (Inv_residual r1 st1 n HI1 HS1), (Inv_residual r2 st2 n HI2 HS2).
      rewrite (is_node_equiv r1 r2 n Heq).
      split; intros [? ?]; (split; [done|]).
      + apply (reaches_cycle_subseteq r1 r2); [intros e; apply Heq|done].
      + apply (reaches_cycle_subseteq r2 r1); [intros e; apply Heq|done]. }
  unfold topologicalSort, finish. rewrite Hrun1, Hrun2. simpl.
  destruct (st_N st1) as [|a N1] eqn:HN1.
  - apply Permutation_nil_l in HN. symmetry in HN. left.
    exists (st_L st1), (st_L st2). rewrite HN. split_and!; [done..| |done|done].
    apply NoDup_Permutation; [by eapply Inv_L..|]. intros n.
    pose proof (inv_nodes _ _ HI1 n) as H1. pose proof (inv_nodes _ _ HI2 n) as H2.
    rewrite HN1, HS1 in H1. rewrite HN, HS2 in H2. simpl in *.
    rewrite H1, H2. by apply is_node_equiv.
  - destruct (st_N st2) as [|b N2] eqn:HN2.
    { by apply Permutation_nil_r in HN. }
    right. by exists (a :: N1), (b :: N2).
Qed.

Lemma topologicalSort_same_relations_witness :
  (∃ o1 o2,
      topologicalSort tie_example_1 = Some (Return o1) ∧
      topologicalSort tie_example_2 = Some (Return o2) ∧ o1 ≡ₚ o2 ∧
      o1 = reverse (ready_at_start tie_example_1) ++ (o1 ≫= woken tie_example_1 o1) ∧
      o2 = reverse (ready_at_start tie_example_2) ++ (o2 ≫= woken tie_example_2 o2)) ∨
  (∃ n1 n2,
      topologicalSort tie_example_1 = Some (Throw (cycle_message n1)) ∧
      topologicalSort tie_example_2 = Some (Throw (cycle_message n2)) ∧ n1 ≡ₚ n2 ∧
      n1 = filter (λ n, n ∈ n1) (first_seen tie_example_1) ∧
      n2 = filter (λ n, n ∈ n2) (first_seen tie_example_2)).
Proof.
  apply (topologicalSort_same_relations tie_example_1 tie_example_2).
  - apply (bool_decide_unpack _). vm_compute. exact I.
  - apply (bool_decide_unpack _). vm_compute. exact I.
  - apply named_Forall, (bool_decide_unpack _). vm_compute. exact I.
  - intros e. unfold tie_example_1, tie_example_2.
    rewrite !elem_of_cons, !elem_of_nil. tauto.
Defined.

(** Two nodes are ready at the start: the one that appears last is
    extracted first, and what each of them wakes follows in that order. *)
Example topologicalSort_two_ready :
  first_seen two_ready_example = ["x"; "a"; "y"; "b"] ∧
  ready_at_start two_ready_example = ["x"; "y"] ∧
  topologicalSort two_ready_example = Some (Return ["y"; "x"; "b"; "a"]).
Proof. split_and!; vm_compute; reflexivity. Qed.

(** Two lists that hold the same two relations, in the two possible
    orders, are sorted differently. *)
Lemma topologicalSort_order_of_relations :
  tie_example_1 ≡ₚ tie_example_2 ∧
  topologicalSort tie_example_1 = Some (Return ["#"; "a"; "b"]) ∧
  topologicalSort tie_example_2 = Some (Return ["#"; "b"; "a"]) ∧
  topologicalSort tie_example_1 ≠ topologicalSort tie_example_2.
Proof.
  split_and!.
  - apply perm_swap.
  - vm_compute. reflexivity.
  - vm_compute. reflexivity.
  - vm_compute. discriminate.
Qed.

End TopoSortFacts.

(** ** White space at the ends of a string *)

Module TrimFacts.
Import JsString.











(** A no-break space and a line separator count as white space. *)
Example trim_no_break_space :
  trim (bytes [194; 160; 32]%nat +:+ "boom" +:+ bytes [10; 226; 128; 168]%nat)
    = "boom".
Proof. vm_compute. reflexivity. Qed.

End TrimFacts.

(** ** The task primitive *)

Module TaskFacts.
Import TaskModel.











(** A task that is run twice and whose job fails with the text [" boom "]. *)
Example Task_run_twice :
  steps (new_Task "a") [Run; Run; Settle (Rejects (Error (Some " boom "))); Run] =
  Some {| name := "a"; status := failed;
          runningPromise := Some (Rejected (Error (Some " boom ")));
          error := Some "boom"; message := None |}.
Proof. vm_compute. reflexivity. Qed.

End TaskFacts.

(** ** Running the planned tasks *)

Module SchedulerFacts.
Import TaskModel Planner Scheduler PlanExamples.

Section run.

Variable dag : Dag.
Variable task_name : BigQueryJobResource → string.
Variable concurrency : nat.

Local Abbreviation step := (step dag concurrency).
Local Abbreviation steps := (steps dag concurrency).

Lemma wf_init : wf (init dag task_name).
Proof.
  intros r c Hc. unfold init in Hc. simpl in Hc.
  apply elem_of_list_to_map_2 in Hc. unfold init_cells in Hc.
  apply list_elem_of_join in Hc as (l & Hin & Hl).
  apply list_elem_of_fmap in Hl as ([ns jobs] & -> & _).
  apply elem_of_lookup_imap in Hin as (ix & job & [= -> ->] & _).
  unfold cell_ok. simpl. split_and!; [done..|apply not_elem_of_nil].
Qed.

Lemma store_put s r c r' :
  store (put s r c) !! r' = if decide (r = r') then Some c else store s !! r'.
Proof. unfold put. simpl. apply lookup_insert. Qed.

Lemma next_in_queue_pending s r :
  next_in_queue dag s = Some r → status_of s r = Some pending.
Proof.
  unfold next_in_queue. intros Hnext.
  apply fmap_Some in Hnext as ([i r'] & Hfind & ->).
  by apply list_find_Some in Hfind as (_ & Hp & _).
Qed.

Lemma cell_ok_pending s r c :
  cell_ok s r c → status (cell_task c) = pending →
  cell_phase c = NotCalled ∧ r ∉ deployed s.
Proof.
  unfold cell_ok. destruct (cell_phase c).
  - tauto.
  - intros (Hs & _) Hp. congruence.
  - intros (Hs & _) Hp. congruence.
  - intros [(m & Hs & _)|(e & Hs & _)] Hp; congruence.
Qed.

Lemma cell_ok_deployed s s' r c :
  deployed s' = deployed s → cell_ok s r c → cell_ok s' r c.
Proof. unfold cell_ok. intros ->. done. Qed.

Lemma wf_step s ev s' : wf s → step s ev = Some s' → wf s'.
Proof.
  intros Hwf. destruct ev as [r|r|r o]; simpl.
  - (* Dispatch *)
    case_decide as Hq; [|done]. destruct Hq as [Hnext _].
    apply next_in_queue_pending in Hnext.
    destruct (store s !! r) as [c|] eqn:Hc; [|done]. simpl.
    destruct (job_of dag r) as [job|]; [|done]. simpl.
    intros [= <-] r' c'. rewrite store_put.
    unfold status_of, task_of in Hnext. rewrite Hc in Hnext. simpl in Hnext.
    injection Hnext as Hp.
    destruct (cell_ok_pending s r c (Hwf r c Hc) Hp) as [_ Hnd].
    case_decide as Hr; [|by intros ?%Hwf].
    subst r'. intros [= <-]. unfold cell_ok, run_start. simpl. rewrite Hp. done.
  - (* Wake *)
    destruct (store s !! r) as [c|] eqn:Hc; [|done]. simpl.
    destruct (job_of dag r) as [job|]; [|done]. simpl.
    pose proof (Hwf r c Hc) as Hok. unfold cell_ok in Hok.
    destruct (cell_phase c) as [|ps| |] eqn:Hph; [done| |done..].
    destruct Hok as (Hs & Hp & Hnd).
    destruct (existsb _ ps).
    + intros [= <-] r' c'. rewrite store_put.
      case_decide as Hr; [|by intros ?%Hwf].
      intros [= <-]. unfold cell_ok. simpl. right. by eexists.
    + destruct (forallb _ ps); [|done].
      intros [= <-] r' c'. simpl. rewrite lookup_insert.
      case_decide as Hr.
      * intros [= <-]. unfold cell_ok. simpl. done.
      * intros Hc'. specialize (Hwf r' c' Hc'). unfold cell_ok in *. simpl.
        destruct (cell_phase c') as [|ps'| |]; [| |done|done];
          (destruct Hwf as (? & ? & Hn); split_and!; [done..|];
           rewrite elem_of_app, list_elem_of_singleton;
           intros [?|?]; [done|congruence]).
  - (* Deployed *)
    destruct (store s !! r) as [c|] eqn:Hc; [|done]. simpl.
    pose proof (Hwf r c Hc) as Hok. unfold cell_ok in Hok.
    destruct (cell_phase c) as [|ps| |] eqn:Hph; [done..| |done].
    intros [= <-] r' c'. rewrite store_put.
    case_decide as Hr; [|by intros ?%Hwf].
    intros [= <-]. unfold cell_ok. simpl.
    destruct o as [m|e]; simpl; [left|right]; by eexists.
Qed.

Lemma wf_steps evs s s' : wf s → steps s evs = Some s' → wf s'.
Proof.
  revert s. induction evs as [|ev evs IH]; intros s Hwf; simpl.
  - by intros [= <-].
  - destruct (step s ev) as [s1|] eqn:Hstep; [|done]. simpl.
    apply IH. by eapply wf_step.
Qed.

Lemma suspended_step s ev s' r :
  suspended s r → step s ev = Some s' → suspended s' r.
Proof.
  intros (c & Hc & Hph & Hs & Hnd). destruct ev as [r'|r'|r' o]; simpl.
  - case_decide as Hq; [|done]. destruct Hq as [Hnext _].
    apply next_in_queue_pending in Hnext.
    destruct (store s !! r') as [c'|] eqn:Hc'; [|done]. simpl.
    destruct (job_of dag r') as [job|]; [|done]. simpl.
    intros [= <-]. exists c. rewrite store_put.
    rewrite decide_False; [done|]. intros ->.
    unfold status_of, task_of in Hnext. rewrite Hc in Hnext. simpl in Hnext.
    congruence.
  - destruct (store s !! r') as [c'|] eqn:Hc'; [|done]. simpl.
    destruct (job_of dag r') as [job|]; [|done]. simpl.
    destruct (cell_phase c') as [|ps| |] eqn:Hph'; [done| |done..].
    assert (r' ≠ r) as Hne by (intros ->; congruence).
    destruct (existsb _ ps).
    + intros [= <-]. exists c. rewrite store_put. by rewrite decide_False.
    + destruct (forallb _ ps); [|done].
      intros [= <-]. exists c. simpl. rewrite lookup_insert, decide_False by done.
      split_and!; [done..|].
      rewrite elem_of_app, list_elem_of_singleton. intros [?|?]; [done|congruence].
  - destruct (store s !! r') as [c'|] eqn:Hc'; [|done]. simpl.
    destruct (cell_phase c') as [|ps| |] eqn:Hph'; [done..| |done].
    assert (r' ≠ r) as Hne by (intros ->; congruence).
    intros [= <-]. exists c. rewrite store_put. by rewrite decide_False.
Qed.

Lemma suspended_steps evs s s' r :
  suspended s r → steps s evs = Some s' → suspended s' r.
Proof.
  revert s. induction evs as [|ev evs IH]; intros s Hsus; simpl.
  - by intros [= <-].
  - destruct (step s ev) as [s1|] eqn:Hstep; [|done]. simpl.
    apply IH. by eapply suspended_step.
Qed.

Lemma failed_is_rejected s p :
  wf s → status_of s p = Some failed → is_rejected s p = true.
Proof.
  intros Hwf Hs. unfold status_of, task_of in Hs.
  destruct (store s !! p) as [c|] eqn:Hc; [|done]. simpl in Hs.
  injection Hs as Hs. specialize (Hwf p c Hc). unfold cell_ok in Hwf.
  unfold is_rejected, promise_of, task_of. rewrite Hc. simpl.
  destruct (cell_phase c).
  - destruct Hwf as (? & _). congruence.
  - destruct Hwf as (? & _). congruence.
  - destruct Hwf as (? & _). congruence.
  - destruct Hwf as [(m & ? & _)|(e & _ & ->)]; [congruence|done].
Qed.

Lemma awaiting_ok_init : awaiting_ok dag (init dag task_name).
Proof.
  intros r c ps job Hc Hph. unfold init in Hc. simpl in Hc.
  apply elem_of_list_to_map_2 in Hc. unfold init_cells in Hc.
  apply list_elem_of_join in Hc as (l & Hin & Hl).
  apply list_elem_of_fmap in Hl as ([ns jobs] & -> & _).
  apply elem_of_lookup_imap in Hin as (ix & job' & [= -> ->] & _).
  done.
Qed.

Lemma awaiting_ok_step s ev s' :
  awaiting_ok dag s → step s ev = Some s' → awaiting_ok dag s'.
Proof.
  intros Hok. destruct ev as [r|r|r o]; simpl.
  - case_decide as Hq; [|done].
    destruct (store s !! r) as [c|] eqn:Hc; [|done]. simpl.
    destruct (job_of dag r) as [job|] eqn:Hjob; [|done]. simpl.
    intros [= <-] r' c' ps job'. rewrite store_put.
    case_decide as Hr; [|by apply Hok].
    subst r'. intros [= <-] [= <-] Hjob' p Hp. simpl in *.
    rewrite Hjob in Hjob'. injection Hjob' as <-.
    unfold awaited in Hp. by apply list_elem_of_filter in Hp as [_ Hp].
  - destruct (store s !! r) as [c|] eqn:Hc; [|done]. simpl.
    destruct (job_of dag r) as [job|]; [|done]. simpl.
    destruct (cell_phase c) as [|ps| |] eqn:Hph; [done| |done..].
    destruct (existsb _ ps).
    + intros [= <-] r' c' ps' job'. rewrite store_put.
      case_decide as Hr; [by intros [= <-]|by apply Hok].
    + destruct (forallb _ ps); [|done].
      intros [= <-] r' c' ps' job'. simpl. rewrite lookup_insert.
      case_decide as Hr; [by intros [= <-]|by apply Hok].
  - destruct (store s !! r) as [c|] eqn:Hc; [|done]. simpl.
    destruct (cell_phase c) as [|ps| |] eqn:Hph; [done..| |done].
    intros [= <-] r' c' ps' job'. rewrite store_put.
    case_decide as Hr; [by intros [= <-]|by apply Hok].
Qed.

Lemma awaiting_ok_steps evs s s' :
  awaiting_ok dag s → steps s evs = Some s' → awaiting_ok dag s'.
Proof.
  revert s. induction evs as [|ev evs IH]; intros s Hok; simpl.
  - by intros [= <-].
  - destruct (step s ev) as [s1|] eqn:Hstep; [|done]. simpl.
    apply IH. by eapply awaiting_ok_step.
Qed.

(** *** The order in which the limiter starts the tasks *)

Lemma all_tasks_in_init p :
  p ∈ all_tasks dag → is_Some (store (init dag task_name) !! p).
Proof.
  intros Hp. unfold init. simpl.
  destruct (list_to_map (init_cells dag task_name) !! p) as [c|] eqn:Hc;
    [by eexists|].
  exfalso. apply not_elem_of_list_to_map in Hc. apply Hc. clear Hc.
  unfold all_tasks in Hp.
  apply list_elem_of_join in Hp as (l & Hin & Hl).
  apply list_elem_of_fmap in Hl as ([ns jobs] & -> & Hdag).
  unfold refs_of in Hin. simpl in Hin.
  apply list_elem_of_fmap in Hin as (ix & -> & Hix).
  apply list_elem_of_lookup in Hix as (i & Hi).
  apply lookup_seq in Hi as [-> Hlt]. simpl.
  destruct (lookup_lt_is_Some_2 jobs i Hlt) as [job Hjob].
  apply list_elem_of_fmap.
  exists ((ns, i), {| cell_task := new_Task (task_name job); cell_phase := NotCalled |}).
  split; [done|]. unfold init_cells. apply list_elem_of_join.
  eexists. split; [|apply list_elem_of_fmap; exists (ns, jobs); split; [done|exact Hdag]].
  simpl. apply elem_of_lookup_imap. by exists i, job.
Qed.

Lemma store_dom_step s ev s' p :
  step s ev = Some s' → is_Some (store s !! p) → is_Some (store s' !! p).
Proof.
  intros Hstep Hp.
  assert (∀ r c c', store s !! r = Some c → is_Some (<[r := c']> (store s) !! p))
    as Hins.
  { intros r c c' Hc. rewrite lookup_insert_is_Some.
    destruct (decide (r = p)); [by left|by right]. }
  destruct ev as [r|r|r o]; simpl in Hstep.
  - case_decide; [|done].
    destruct (store s !! r) as [c|] eqn:Hc; [|done]. simpl in Hstep.
    destruct (job_of dag r); [|done]. injection Hstep as <-. by eapply Hins.
  - destruct (store s !! r) as [c|] eqn:Hc; [|done]. simpl in Hstep.
    destruct (job_of dag r); [|done]. simpl in Hstep.
    destruct (cell_phase c) as [|ps| |]; [done| |done..].
    destruct (existsb _ ps); [injection Hstep as <-; by eapply Hins|].
    destruct (forallb _ ps); [|done]. injection Hstep as <-. by eapply Hins.
  - destruct (store s !! r) as [c|] eqn:Hc; [|done]. simpl in Hstep.
    destruct (cell_phase c); [done..| |done]. injection Hstep as <-. by eapply Hins.
Qed.

Lemma next_in_queue_earlier s r p :
  next_in_queue dag s = Some r → before_in (all_tasks dag) p r →
  status_of s p ≠ Some pending.
Proof.
  unfold next_in_queue. intros Hnext (l1 & l2 & Hall & Hp & Hr).
  apply fmap_Some in Hnext as ([i r'] & Hfind & ->). simpl in *.
  apply list_find_Some in Hfind as (Hi & _ & Hbefore).
  apply list_elem_of_lookup in Hp as (j & Hj).
  pose proof (lookup_lt_Some _ _ _ Hj) as Hlt.
  apply (Hbefore j p).
  - rewrite Hall. by rewrite lookup_app_l.
  - destruct (decide (i < length l1)%nat) as [Hil|Hil]; [|lia].
    exfalso. apply Hr. rewrite Hall, lookup_app_l in Hi by done.
    by eapply list_elem_of_lookup_2.
Qed.

Lemma started_has_promise s p :
  wf s → is_Some (store s !! p) → status_of s p ≠ Some pending →
  is_Some (promise_of s p).
Proof.
  intros Hwf [c Hc] Hs. unfold status_of, promise_of, task_of in *.
  rewrite Hc in *. simpl in *. specialize (Hwf p c Hc). unfold cell_ok in Hwf.
  destruct (cell_phase c).
  - destruct Hwf as (Hp & _). by rewrite Hp in Hs.
  - destruct Hwf as (_ & -> & _). by eexists.
  - destruct Hwf as (_ & ->). by eexists.
  - destruct Hwf as [(m & _ & ->)|(e & _ & ->)]; by eexists.
Qed.

Lemma awaiting_complete_step s ev s' :
  reached dag s → step s ev = Some s' → awaiting_complete dag s'.
Proof.
  intros (Hwf & Hdom & _ & Hok). destruct ev as [r|r|r o]; simpl.
  - case_decide as Hq; [|done]. destruct Hq as [Hnext _].
    destruct (store s !! r) as [c|] eqn:Hc; [|done]. simpl.
    destruct (job_of dag r) as [job|] eqn:Hjob; [|done]. simpl.
    intros [= <-] r' c' ps job'. rewrite store_put.
    case_decide as Hr; [|by apply Hok].
    subst r'. intros [= <-] [= <-] Hjob' p Hp Hbefore. simpl in *.
    rewrite Hjob in Hjob'. injection Hjob' as <-.
    unfold awaited. apply list_elem_of_filter. split; [|done].
    apply started_has_promise; [done| |by eapply next_in_queue_earlier].
    apply Hdom. destruct Hbefore as (l1 & l2 & -> & Hin & _).
    rewrite elem_of_app. by left.
  - destruct (store s !! r) as [c|] eqn:Hc; [|done]. simpl.
    destruct (job_of dag r) as [job|]; [|done]. simpl.
    destruct (cell_phase c) as [|ps| |] eqn:Hph; [done| |done..].
    destruct (existsb _ ps).
    + intros [= <-] r' c' ps' job'. rewrite store_put.
      case_decide as Hr; [by intros [= <-]|by apply Hok].
    + destruct (forallb _ ps); [|done].
      intros [= <-] r' c' ps' job'. simpl. rewrite lookup_insert.
      case_decide as Hr; [by intros [= <-]|by apply Hok].
  - destruct (store s !! r) as [c|] eqn:Hc; [|done]. simpl.
    destruct (cell_phase c) as [|ps| |] eqn:Hph; [done..| |done].
    intros [= <-] r' c' ps' job'. rewrite store_put.
    case_decide as Hr; [by intros [= <-]|by apply Hok].
Qed.

Lemma reached_init : reached dag (init dag task_name).
Proof.
  split_and!.
  - apply wf_init.
  - apply all_tasks_in_init.
  - apply awaiting_ok_init.
  - intros r c ps job Hc Hph. unfold init in Hc. simpl in Hc.
    apply elem_of_list_to_map_2 in Hc. unfold init_cells in Hc.
    apply list_elem_of_join in Hc as (l & Hin & Hl).
    apply list_elem_of_fmap in Hl as ([ns jobs] & -> & _).
    apply elem_of_lookup_imap in Hin as (ix & job' & [= -> ->] & _).
    done.
Qed.

Lemma reached_step s ev s' :
  reached dag s → step s ev = Some s' → reached dag s'.
Proof.
  intros Hs Hstep. pose proof Hs as (Hwf & Hdom & Hok & Hcomplete). split_and!.
  - by eapply wf_step.
  - intros p Hp. eapply store_dom_step; [done|]. by apply Hdom.
  - by eapply awaiting_ok_step.
  - by eapply awaiting_complete_step.
Qed.

Lemma reached_steps evs s s' :
  reached dag s → steps s evs = Some s' → reached dag s'.
Proof.
  revert s. induction evs as [|ev evs IH]; intros s Hs; simpl.
  - by intros [= <-].
  - destruct (step s ev) as [s1|] eqn:Hstep; [|done]. simpl.
    apply IH. by eapply reached_step.
Qed.

Lemma fulfilled_is_success s p :
  wf s → is_fulfilled s p = true → status_of s p = Some success.
Proof.
  intros Hwf Hf. unfold is_fulfilled, promise_of, status_of, task_of in *.
  destruct (store s !! p) as [c|] eqn:Hc; [|done]. simpl in *.
  specialize (Hwf p c Hc). unfold cell_ok in Hwf.
  destruct (cell_phase c).
  - destruct Hwf as (_ & Hp & _). by rewrite Hp in Hf.
  - destruct Hwf as (_ & Hp & _). by rewrite Hp in Hf.
  - destruct Hwf as (_ & Hp). by rewrite Hp in Hf.
  - destruct Hwf as [(m & -> & _)|(e & _ & Hp)]; [done|by rewrite Hp in Hf].
Qed.

(** The closure of a task calls [deployBigQueryResouce] only when every
    promise it was awaiting has been fulfilled: the tasks it awaited have
    all succeeded by then. *)
Lemma deploy_after_awaited evs s r c ps s' :
  steps (init dag task_name) evs = Some s →
  store s !! r = Some c → cell_phase c = Awaiting ps →
  step s (Wake r) = Some s' → r ∈ deployed s' →
  ∀ p, p ∈ ps → status_of s p = Some success.
Proof.
  intros Hsteps Hc Hph Hstep Hdep p Hp.
  pose proof (wf_steps _ _ _ wf_init Hsteps) as Hwf.
  pose proof (Hwf r c Hc) as Hok. unfold cell_ok in Hok. rewrite Hph in Hok.
  destruct Hok as (_ & _ & Hnd).
  simpl in Hstep. rewrite Hc in Hstep. simpl in Hstep.
  destruct (job_of dag r) as [job|]; [|done]. simpl in Hstep. rewrite Hph in Hstep.
  destruct (existsb _ ps).
  { injection Hstep as <-. done. }
  destruct (forallb (is_fulfilled s) ps) eqn:Hall; [|done].
  apply fulfilled_is_success; [done|].
  rewrite forallb_forall in Hall. apply Hall. by apply list_elem_of_In.
Qed.

(** What the closures do ensure: a task calls [deployBigQueryResouce]
    only after every predecessor that was handed to the limiter before it
    (a task of a name space in its [job.dependencies] that comes earlier
    in the [DAG], or an earlier task of its own name space) has
    succeeded. *)
Theorem deploy_after_earlier_predecessors evs s r c ps job s' :
  steps (init dag task_name) evs = Some s →
  store s !! r = Some c → cell_phase c = Awaiting ps → job_of dag r = Some job →
  step s (Wake r) = Some s' → r ∈ deployed s' →
  ∀ p, p ∈ predecessors dag r job → before_in (all_tasks dag) p r →
       status_of s p = Some success.
Proof.
  intros Hsteps Hc Hph Hjob Hstep Hdep p Hp Hbefore.
  eapply deploy_after_awaited; try done.
  destruct (reached_steps _ _ _ reached_init Hsteps) as (_ & _ & _ & Hcomplete).
  by eapply Hcomplete.
Qed.

(** C6, as amended: in every state that the planned tasks can reach, a
    task that is awaiting its predecessors, one of which has failed, fails
    as soon as [Promise.all] settles; the text of its error is
    ["Suspended: Parent job is faild: " + names], trimmed, where [names]
    are the names, joined by [", "], of the tasks of the name spaces in its
    [job.dependencies] that have failed by then; and
    [deployBigQueryResouce] is not called for it, then or later. *)
Theorem suspended_by_failed_parent evs s r c ps job :
  steps (init dag task_name) evs = Some s →
  store s !! r = Some c → cell_phase c = Awaiting ps → job_of dag r = Some job →
  (∃ p, p ∈ ps ∧ status_of s p = Some failed) →
  (∀ p, p ∈ ps → p ∈ predecessors dag r job) ∧
  ∃ s', step s (Wake r) = Some s' ∧
    status_of s' r = Some failed ∧
    (error <$> task_of s' r) =
      Some (Some (JsString.trim (suspended_message dag s job))) ∧
    deployed s' = deployed s ∧
    ∀ evs' s'', steps s' evs' = Some s'' →
      (r ∉ deployed s'') ∧ status_of s'' r = Some failed.
Proof.
  intros Hsteps Hc Hph Hjob (p & Hp & Hfailed).
  split.
  { by apply (awaiting_ok_steps _ _ _ awaiting_ok_init Hsteps r c ps job). }
  pose proof (wf_steps _ _ _ wf_init Hsteps) as Hwf.
  pose proof (Hwf r c Hc) as Hok. unfold cell_ok in Hok. rewrite Hph in Hok.
  destruct Hok as (_ & _ & Hnd).
  assert (existsb (is_rejected s) ps = true) as Hex.
  { apply existsb_exists. exists p. split; [by apply list_elem_of_In|].
    by apply failed_is_rejected. }
  eexists. split_and!.
  - simpl. rewrite Hc. simpl. rewrite Hjob. simpl. rewrite Hph, Hex. done.
  - unfold status_of, task_of. rewrite store_put, decide_True by done. done.
  - unfold task_of. rewrite store_put, decide_True by done. done.
  - done.
  - intros evs' s'' Hsteps'.
    assert (suspended s'' r) as (c'' & Hc'' & _ & Hs'' & Hnd'').
    { eapply suspended_steps; [|exact Hsteps'].
      eexists. rewrite store_put, decide_True by done. done. }
    split; [done|]. unfold status_of, task_of. rewrite Hc''. simpl. by rewrite Hs''.
Qed.

End run.

(** The table [z] fails to be created; the task of [t], which awaits it,
    is suspended. *)
Lemma suspended_by_failed_parent_witness :
  ∃ s,
    steps dag_z_t 8 (init dag_z_t (task_name "/work" "bigquery" "p"))
      [Dispatch ("p.ds.z", 0%nat); Dispatch ("p.ds.t", 0%nat);
       Wake ("p.ds.z", 0%nat);
       Deployed ("p.ds.z", 0%nat) (Rejects (Error (Some "boom")))] = Some s ∧
    (cell_phase <$> store s !! ("p.ds.t", 0%nat)) = Some (Awaiting [("p.ds.z", 0%nat)]) ∧
    job_of dag_z_t ("p.ds.t", 0%nat) = Some create_t ∧
    status_of s ("p.ds.z", 0%nat) = Some failed ∧
    (∀ p, p ∈ [("p.ds.z", 0%nat)] → p ∈ predecessors dag_z_t ("p.ds.t", 0%nat) create_t) ∧
    ∃ s', step dag_z_t 8 s (Wake ("p.ds.t", 0%nat)) = Some s' ∧
      status_of s' ("p.ds.t", 0%nat) = Some failed ∧
      (error <$> task_of s' ("p.ds.t", 0%nat)) =
        Some (Some (JsString.trim (suspended_message dag_z_t s create_t))) ∧
      deployed s' = deployed s ∧
      ∀ evs' s'', steps dag_z_t 8 s' evs' = Some s'' →
        (("p.ds.t", 0%nat) ∉ deployed s'') ∧
        status_of s'' ("p.ds.t", 0%nat) = Some failed.
Proof.
  destruct (steps dag_z_t 8 (init dag_z_t (task_name "/work" "bigquery" "p"))
      [Dispatch ("p.ds.z", 0%nat); Dispatch ("p.ds.t", 0%nat);
       Wake ("p.ds.z", 0%nat);
       Deployed ("p.ds.z", 0%nat) (Rejects (Error (Some "boom")))]) as [s|] eqn:Hs;
    [|vm_compute in Hs; discriminate Hs].
  exists s.
  assert (cell_phase <$> store s !! ("p.ds.t", 0%nat) = Some (Awaiting [("p.ds.z", 0%nat)])) as Hph.
  { vm_compute in Hs. injection Hs as <-. vm_compute. reflexivity. }
  assert (status_of s ("p.ds.z", 0%nat) = Some failed) as Hz.
  { vm_compute in Hs. injection Hs as <-. vm_compute. reflexivity. }
  split; [reflexivity|]. split; [exact Hph|]. split; [vm_compute; reflexivity|].
  split; [exact Hz|].
  destruct (store s !! ("p.ds.t", 0%nat)) as [c|] eqn:Hc; [|discriminate Hph].
  injection Hph as Hph.
  apply (suspended_by_failed_parent dag_z_t (task_name "/work" "bigquery" "p") 8 _ s ("p.ds.t", 0%nat) c
           [("p.ds.z", 0%nat)] create_t Hs Hc Hph).
  - vm_compute. reflexivity.
  - exists ("p.ds.z", 0%nat). split; [left|exact Hz].
Defined.

(** The text names the failed tasks of [job.dependencies] in the words of
    the source, and a failed task of the same directory is awaited and not
    named. *)
Lemma suspended_message_text :
  (∃ s s',
     steps dag_z_t 8 (init dag_z_t (task_name "/work" "bigquery" "p"))
       [Dispatch ("p.ds.z", 0%nat); Dispatch ("p.ds.t", 0%nat);
        Wake ("p.ds.z", 0%nat);
        Deployed ("p.ds.z", 0%nat) (Rejects (Error (Some "boom")))] = Some s ∧
     step dag_z_t 8 s (Wake ("p.ds.t", 0%nat)) = Some s' ∧
     (error <$> task_of s' ("p.ds.t", 0%nat)) =
       Some (Some "Suspended: Parent job is faild: p/ds/z/ddl.sql") ∧
     (error <$> task_of s' ("p.ds.t", 0%nat)) ≠
       Some (Some "suspended: parent failed: p/ds/z/ddl.sql")) ∧
  (∃ s s',
     steps dag_z_t 8 (init dag_z_t (task_name "/work" "bigquery" "p"))
       [Dispatch ("p.ds.z", 0%nat); Dispatch ("p.ds.t", 0%nat);
        Wake ("p.ds.z", 0%nat); Deployed ("p.ds.z", 0%nat) (Resolves None);
        Wake ("p.ds.t", 0%nat); Dispatch ("p.ds.t", 1%nat);
        Deployed ("p.ds.t", 0%nat) (Rejects (Error (Some "boom")))] = Some s ∧
     (cell_phase <$> store s !! ("p.ds.t", 1%nat)) = Some (Awaiting [("p.ds.t", 0%nat)]) ∧
     status_of s ("p.ds.t", 0%nat) = Some failed ∧
     step dag_z_t 8 s (Wake ("p.ds.t", 1%nat)) = Some s' ∧
     (error <$> task_of s' ("p.ds.t", 1%nat)) =
       Some (Some "Suspended: Parent job is faild:")).
Proof.
  split.
  - eexists _, _. split_and!.
    + vm_compute. reflexivity.
    + vm_compute. reflexivity.
    + vm_compute. reflexivity.
    + vm_compute. intros [=].
  - eexists _, _. split_and!.
    + vm_compute. reflexivity.
    + vm_compute. reflexivity.
    + vm_compute. reflexivity.
    + vm_compute. reflexivity.
    + vm_compute. reflexivity.
Qed.

(** The relations hold [[p.ds.b, p.ds.a]], so that [p.ds.a] is sorted
    before [p.ds.b]; the job in the directory [b] does not name [p.ds.a],
    and with several workers its task deploys while the task of [p.ds.a]
    is running. *)
Example deploy_beside_relation :
  ("p.ds.b", "p.ds.a") ∈ relations [create_a; create_b; insert_b] ∧
  build_DAG [create_a; create_b; insert_b] = Some (inr dag_a_x_b) ∧
  ∃ s,
    steps dag_a_x_b 8 (init dag_a_x_b (task_name "/work" "bigquery" "p"))
      [Dispatch ("p.ds.a", 0%nat); Dispatch ("p.ds.x", 0%nat);
       Dispatch ("p.ds.b", 0%nat); Wake ("p.ds.b", 0%nat)] = Some s ∧
    deployed s = [("p.ds.b", 0%nat)] ∧
    status_of s ("p.ds.a", 0%nat) = Some running.
Proof.
  split_and!.
  - vm_compute. do 5 right. left.
  - vm_compute. reflexivity.
  - eexists. split_and!; vm_compute; reflexivity.
Qed.

(** C5 (the code departs from it): the directory [a] holds a query on the
    table [z], so [p.ds.z] is one of the dependencies of its job, and both
    name spaces get a task.  The plan puts [p.ds.a] first; when the
    closure of its task is called the task of [p.ds.z] has not been run
    and has no [runningPromise], so that the closure awaits nothing and
    calls [deployBigQueryResouce] while the task of [p.ds.z] is still
    [pending].  This holds for one worker and for eight. *)
Theorem deploy_before_dependency :
  build_DAG [query_on_z; create_z] = Some (inr dag_a_z) ∧
  "p.ds.z" ∈ dependencies query_on_z ∧
  job_of dag_a_z ("p.ds.a", 0%nat) = Some query_on_z ∧
  tasks_of dag_a_z "p.ds.z" = [("p.ds.z", 0%nat)] ∧
  (∃ s,
     steps dag_a_z 1 (init dag_a_z (task_name "/work" "bigquery" "p"))
       [Dispatch ("p.ds.a", 0%nat); Wake ("p.ds.a", 0%nat)] = Some s ∧
     deployed s = [("p.ds.a", 0%nat)] ∧
     status_of s ("p.ds.z", 0%nat) = Some pending) ∧
  (∃ s,
     steps dag_a_z 8 (init dag_a_z (task_name "/work" "bigquery" "p"))
       [Dispatch ("p.ds.a", 0%nat); Dispatch ("p.ds.z", 0%nat);
        Wake ("p.ds.a", 0%nat)] = Some s ∧
     deployed s = [("p.ds.a", 0%nat)] ∧
     status_of s ("p.ds.z", 0%nat) = Some running).
Proof.
  split_and!.
  - vm_compute. reflexivity.
  - right. left.
  - vm_compute. reflexivity.
  - vm_compute. reflexivity.
  - eexists. split_and!; vm_compute; reflexivity.
  - eexists. split_and!; vm_compute; reflexivity.
Qed.

End SchedulerFacts.

(** ** Strings *)

Module JsStringFacts.
Import JsString.

Lemma split_nonempty c s : split c s ≠ [].
Proof.
  destruct s as [|a s]; simpl; [done|].
  destruct (Ascii.eqb a c); [done|]. by destruct (split c s).
Qed.

Lemma split_singleton c s w : split c s = [w] → w = s.
Proof.
  revert w. induction s as [|a s IH]; intros w; simpl.
  - by intros [= <-].
  - destruct (Ascii.eqb a c).
    + intros [= <- Hs]. by apply split_nonempty in Hs.
    + destruct (split c s) as [|w' ws] eqn:Hs; [by apply split_nonempty in Hs|].
      intros [= <- ->]. f_equal. by apply IH.
Qed.

Lemma endsWith_refl s : endsWith s s = true.
Proof. destruct s; [done|]. cbn [endsWith]. by rewrite String.eqb_refl. Qed.

Lemma endsWith_cons a s p : endsWith s p = true → endsWith (String a s) p = true.
Proof.
  intros Hs. cbn [endsWith]. rewrite Hs. by destruct (String.eqb (String a s) p).
Qed.

Lemma endsWith_trans s p q :
  endsWith s p = true → endsWith p q = true → endsWith s q = true.
Proof.
  induction s as [|a s IH]; cbn [endsWith].
  - destruct (String.eqb "" p) eqn:Heq; [|done].
    apply String.eqb_eq in Heq as <-. done.
  - destruct (String.eqb (String a s) p) eqn:Heq.
    + apply String.eqb_eq in Heq as <-. done.
    + intros Hs Hp. rewrite IH by done. by destruct (String.eqb (String a s) q).
Qed.

Lemma endsWith_last c s : endsWith s (List.last (split c s) "") = true.
Proof.
  induction s as [|a s IH]; [done|].
  cbn [split]. destruct (Ascii.eqb a c).
  - apply endsWith_cons.
    destruct (split c s) as [|w ws] eqn:Hs; [by apply split_nonempty in Hs|].
    exact IH.
  - destruct (split c s) as [|w ws] eqn:Hs; [by apply split_nonempty in Hs|].
    destruct ws as [|w' ws].
    + apply split_singleton in Hs as ->. apply endsWith_refl.
    + apply endsWith_cons. exact IH.
Qed.

(** A path ends with whatever its base name ends with. *)
Lemma basename_endsWith p b q :
  basename p = b → endsWith b q = true → endsWith p q = true.
Proof.
  intros <- Hq. eapply endsWith_trans; [|done]. apply endsWith_last.
Qed.

End JsStringFacts.

(** ** The deployment planner *)

Module PlannerFacts.
Import Planner PlanExamples.

Section analysis.

Variable path2bq : string → string → string → string.
Variable normalizedBQPath : string → string → bool → string.
Variable extractRefenrences : string → list string.
Variable extractDestinations : string → list (string * string).
Variable readFile : string → string.
Variables (rootPath defaultProjectId : string).

Local Abbreviation job_resource :=
  (job_resource path2bq normalizedBQPath extractRefenrences extractDestinations
     readFile rootPath defaultProjectId).
Local Abbreviation extractBigQueryDependencies :=
  (extractBigQueryDependencies path2bq normalizedBQPath extractRefenrences
     readFile rootPath defaultProjectId).

(** A dependency is dropped when [path2bq], given the dependency itself
    for a path, returns it unchanged; the name space of the file plays no
    part. *)
Lemma job_resource_dependencies n d :
  d ∈ dependencies (job_resource n) ↔
  d ∈ extractBigQueryDependencies n ∧ d ≠ path2bq d rootPath defaultProjectId.
Proof. simpl. rewrite list_elem_of_filter. tauto. Qed.

Lemma self_reference_stays n :
  namespace (job_resource n) ∈ extractBigQueryDependencies n →
  path2bq (namespace (job_resource n)) rootPath defaultProjectId
    ≠ namespace (job_resource n) →
  namespace (job_resource n) ∈ dependencies (job_resource n).
Proof. intros Hin Hne. apply job_resource_dependencies. split; [done|congruence]. Qed.

End analysis.

(** C7 (the code departs from it): the file [ds/a/ddl.sql] reads the table
    [ds.a] that it creates; its name space is [p.ds.a], and [p.ds.a] is
    one of the dependencies of its job. *)
Theorem self_reference_kept :
  namespace self_job = "p.ds.a" ∧
  dependencies self_job = ["p.ds"; "p.ds.a"] ∧
  namespace self_job ∈ dependencies self_job.
Proof.
  split_and!.
  - vm_compute. reflexivity.
  - vm_compute. reflexivity.
  - vm_compute. right. left.
Qed.

End PlannerFacts.

(** ** Functions that await calls *)

Module EffectsFacts.
Import TaskModel Effects.

Section interp.

Context {W : Type}.
Variable answer : ∀ R, Call R → W → (Thrown + R) * W.

Lemma interp_await {A R} (c : Call R) (k : R → Prog A) w :
  interp answer (await c k) w =
    match answer R c w with
    | (inl e, w1) => ([Ev c], Threw e, w1)
    | (inr v, w1) =>
        let '(tr, o, w2) := interp answer (k v) w1 in (Ev c :: tr, o, w2)
    end.
Proof. simpl. by destruct (answer R c w) as [[e|v] w1]. Qed.

Lemma never_interp bad {A} (p : Prog A) w :
  never bad p → (∀ line, bad (Printed line) = false) →
  Forall (λ ev, bad ev = false) (interp answer p w).1.1.
Proof.
  intros Hp Hprint. revert w.
  induction Hp as [a|e|line p _ IH|R c k Hc _ IH]; intros w; simpl.
  - constructor.
  - constructor.
  - specialize (IH w). destruct (interp answer p w) as [[tr o] w1]. simpl in *.
    constructor; [apply Hprint|done].
  - destruct (answer R c w) as [r w1]. specialize (IH r w1).
    destruct (interp answer (k r) w1) as [[tr o] w2]. simpl in *.
    by constructor.
Qed.

End interp.

Lemma never_await bad {A R} (c : Call R) (k : R → Prog A) :
  bad (Ev c) = false → (∀ v, never bad (k v)) → never bad (await c k).
Proof.
  intros Hc Hk. apply never_Perform; [done|]. intros [e|v]; [constructor|apply Hk].
Qed.

End EffectsFacts.

(** ** The deploy executor *)

Module ExecutorFacts.
Import TaskModel Effects Executor EffectsFacts Worlds.

Section executor.

Context {W : Type}.
Variable answer : ∀ R, Call R → W → (Thrown + R) * W.
Variable path2bq : string → string → string → string.
Variable humanFileSize_parseInt : string → string.
Variable deploy_query :
  string → string → option Query → string → string → option string →
  Prog (option string).

Local Abbreviation deployBigQueryResouce :=
  (deployBigQueryResouce path2bq humanFileSize_parseInt deploy_query).

(** C8, as amended: for a file [view.sql] whose path gives a data set and
    a name, deployed with [dryRun] set, that can be read and for which the
    warehouse answers the dry run with [totalBytesProcessed], the executor
    makes three calls, for the project, for the text of the file and for
    one query job; the job is a dry run of
    [CREATE OR REPLACE VIEW `dataset.name` as], a line feed and the text;
    the executor returns the bytes as [humanFileSize] writes them, and no
    table or view is created. *)
Theorem view_dry_run rootPath p options w defaultProjectId w1 schemaId tableId
    body w2 ret w3 bytes :
  JsString.basename p = "view.sql" →
  options ≫= dryRun = Some true →
  answer _ getProjectId w = (inr defaultProjectId, w1) →
  JsString.split "." (path2bq p rootPath defaultProjectId) !! 1%nat = Some schemaId →
  schemaId ≠ "" →
  JsString.split "." (path2bq p rootPath defaultProjectId) !! 2%nat = Some tableId →
  tableId ≠ "" →
  answer _ (readFile p) w1 = (inr body, w2) →
  answer _ (createQueryJob (view_job options schemaId tableId body)) w2 = (inr ret, w3) →
  totalBytesProcessed ret = Some bytes →
  interp answer (deployBigQueryResouce rootPath p options) w =
    ([Ev getProjectId; Ev (readFile p);
      Ev (createQueryJob (view_job options schemaId tableId body))],
     Returned (Some (humanFileSize_parseInt bytes)), w3) ∧
  query (view_job options schemaId tableId body) =
    Some ("CREATE OR REPLACE VIEW `" +:+ schemaId +:+ "." +:+ tableId +:+ "` as"
          +:+ LF +:+ body) ∧
  dryRun (view_job options schemaId tableId body) = Some true ∧
  Forall (λ ev, is_createTable ev = false)
    (interp answer (deployBigQueryResouce rootPath p options) w).1.1.
Proof.
  intros Hbase Hdry Hpid Hschema Hschema_ne Hname Hname_ne Hread Hjob Hbytes.
  assert (interp answer (deployBigQueryResouce rootPath p options) w =
    ([Ev getProjectId; Ev (readFile p);
      Ev (createQueryJob (view_job options schemaId tableId body))],
     Returned (Some (humanFileSize_parseInt bytes)), w3)) as Hrun.
  { unfold Executor.deployBigQueryResouce. rewrite interp_await, Hpid.
    rewrite (JsStringFacts.basename_endsWith p "view.sql" "sql" Hbase eq_refl).
    rewrite andb_false_r. cbn zeta. rewrite Hschema, Hname.
    cbn [interp]. rewrite Hread.
    unfold falsy. rewrite !bool_decide_eq_false_2 by done.
    rewrite decide_True by done. rewrite bool_decide_eq_true_2 by done.
    simpl default. rewrite interp_await, Hjob, Hbytes. done. }
  split_and!.
  - exact Hrun.
  - done.
  - exact Hdry.
  - rewrite Hrun. simpl. repeat constructor.
Qed.

End executor.

Lemma view_dry_run_witness :
  JsString.basename a_view_file = "view.sql" ∧
  interp estimating
    (deployBigQueryResouce Identifiers.path2bq (λ b, b +:+ "B") no_query
       "bigquery" a_view_file (Some dry_run)) () =
    ([Ev getProjectId; Ev (readFile a_view_file);
      Ev (createQueryJob (view_job (Some dry_run) "ds" "v" "SELECT 1"))],
     Returned (Some "0B"), ()) ∧
  query (view_job (Some dry_run) "ds" "v" "SELECT 1") =
    Some ("CREATE OR REPLACE VIEW `" +:+ "ds" +:+ "." +:+ "v" +:+ "` as"
          +:+ LF +:+ "SELECT 1") ∧
  dryRun (view_job (Some dry_run) "ds" "v" "SELECT 1") = Some true ∧
  Forall (λ ev, is_createTable ev = false)
    (interp estimating
       (deployBigQueryResouce Identifiers.path2bq (λ b, b +:+ "B") no_query
          "bigquery" a_view_file (Some dry_run)) ()).1.1.
Proof.
  split; [vm_compute; reflexivity|].
  apply (view_dry_run estimating Identifiers.path2bq (λ b, b +:+ "B") no_query
           "bigquery" a_view_file (Some dry_run) () "p" () "ds" "v" "SELECT 1" ()
           {| totalBytesProcessed := Some "0"; configuration_dryRun := Some true |}
           () "0").
  - vm_compute. reflexivity.
  - reflexivity.
  - reflexivity.
  - vm_compute. reflexivity.
  - discriminate.
  - vm_compute. reflexivity.
  - discriminate.
  - reflexivity.
  - reflexivity.
  - reflexivity.
Defined.

(** A file [view.sql] in the directory of a data set: in a dry run the
    executor reads the file and returns, without a query job and without
    an estimate. *)
Lemma view_at_dataset_scope :
  JsString.basename a_dataset_view_file = "view.sql" ∧
  interp estimating
    (deployBigQueryResouce Identifiers.path2bq (λ b, b +:+ "B") no_query
       "bigquery" a_dataset_view_file (Some dry_run)) () =
    ([Ev getProjectId; Ev (readFile a_dataset_view_file)], Returned None, ()).
Proof. split; vm_compute; reflexivity. Qed.

(** When the answer to the dry run holds no [totalBytesProcessed], the
    executor goes on and creates the view. *)
Example dry_run_without_statistics :
  (interp silent
     (deployBigQueryResouce Identifiers.path2bq (λ b, b +:+ "B") no_query
        "bigquery" a_view_file (Some dry_run)) ()).1.1 =
  [Ev getProjectId; Ev (readFile a_view_file);
   Ev (createQueryJob (view_job (Some dry_run) "ds" "v" "SELECT 1"));
   Ev (tableExists "ds" "v"); Ev (createTable "ds" "v" "SELECT 1");
   Ev (syncMetadata a_view "bigquery/@default/ds/v" true)].
Proof. vm_compute. reflexivity. Qed.

End ExecutorFacts.

(** ** The reconciliation planner *)

Module CleanupFacts.
Import TaskModel Effects Cleanup EffectsFacts Worlds.

(** What running the job of a deletion task does, whatever the warehouse
    answers. *)
Lemma deletion_job_run {W} (answer : ∀ R, Call R → W → (Thrown + R) * W)
    isDry bqId resource w :
  (interp answer (deletion_job isDry bqId resource) w).1.2 = Returned isDry ∧
  (interp answer (deletion_job isDry bqId resource) w).1.1 =
    Printed ((if isDry then "(DRYRUN) " else "") +:+ "Deleting " +:+ bqId)
    :: (if isDry then [] else [Ev (resourceDelete resource)]).
Proof.
  unfold deletion_job. destruct isDry; simpl; [done|].
  by destruct (answer unit (resourceDelete resource) w) as [[e|[]] w1].
Qed.

Lemma never_deletion_job_dry bqId resource :
  never is_delete (deletion_job true bqId resource).
Proof. unfold deletion_job. simpl. repeat constructor. Qed.

Section cleanup.

Variable path2bq : string → string → string → string.
Variables (nsProject datasetId : string) (dry force : bool).

Local Abbreviation emit := (emit nsProject datasetId dry force).

(** The tasks handed back are the tasks handed in and tasks made by
    [new_task]. *)
Lemma emit_tasks {W} (answer : ∀ R, Call R → W → (Thrown + R) * W)
    (P : DeletionTask → Prop) kinds acc w tasks :
  (∀ resourceType e, P (new_task nsProject datasetId resourceType dry e)) →
  Forall P acc →
  (interp answer (emit kinds acc) w).1.2 = Returned tasks →
  Forall P tasks.
Proof.
  intros Hnew. revert acc w.
  induction kinds as [|kind kinds IH]; intros acc w Hacc; simpl.
  - by intros [= <-].
  - destruct kind as [|[k first] kind]; [by apply IH|].
    assert (Forall P (acc ++
      (new_task nsProject datasetId (constructor_name first) dry <$> (k, first) :: kind)))
      as Hacc'.
    { apply Forall_app. split; [done|]. apply Forall_fmap, Forall_forall.
      intros e _. apply Hnew. }
    destruct (negb force && negb dry); [|by apply IH].
    rewrite interp_await.
    destruct (answer _ (prompt (question (constructor_name first) ((k, first) :: kind))) w)
      as [[e|ans] w1]; [done|].
    destruct (negb (JsString.startsWith (JsString.trim ans) "y")).
    + specialize (IH acc w1 Hacc).
      destruct (interp answer (emit kinds acc) w1) as [[tr o] w2]. exact IH.
    + specialize (IH _ w1 Hacc').
      destruct (interp answer (emit kinds _) w1) as [[tr o] w2]. exact IH.
Qed.

Lemma never_emit kinds acc : never is_delete (emit kinds acc).
Proof.
  revert acc. induction kinds as [|kind kinds IH]; intros acc; simpl.
  - constructor.
  - destruct kind as [|[k first] kind]; [apply IH|].
    destruct (negb force && negb dry); [|apply IH].
    apply never_await; [done|]. intros ans.
    destruct (negb (JsString.startsWith (JsString.trim ans) "y")); apply IH.
Qed.

End cleanup.

Section claims.

Context {W : Type}.
Variable answer : ∀ R, Call R → W → (Thrown + R) * W.
Variable path2bq : string → string → string → string.
Variables (rootDir projectId datasetId : string) (options : option Options).

Local Abbreviation cleanupBigQueryDataset :=
  (cleanupBigQueryDataset path2bq rootDir projectId datasetId options).

Lemma cleanup_tasks (P : DeletionTask → Prop) w tasks :
  (∀ nsProject resourceType e,
     P (new_task nsProject datasetId resourceType (isDryRun options) e)) →
  (interp answer cleanupBigQueryDataset w).1.2 = Returned tasks →
  Forall P tasks.
Proof.
  intros Hnew. unfold Cleanup.cleanupBigQueryDataset.
  rewrite interp_await.
  destruct (answer _ getProjectId w) as [[e|defaultProjectId] w1]; [done|].
  rewrite interp_await.
  destruct (answer _ (existsSync _) w1) as [[e|found] w2]; [done|].
  destruct found; simpl negb; cbv iota.
  2:{ simpl. intros [= <-]. constructor. }
  cbn [interp].
  destruct (answer _ (datasetGet _ _) w2) as [[e|[]] w3].
  { simpl. intros [= <-]. constructor. }
  rewrite interp_await.
  destruct (answer _ (getRoutines _) w3) as [[e|rr] w4]; [done|].
  rewrite interp_await.
  destruct (answer _ (getModels _) w4) as [[e|mm] w5]; [done|].
  rewrite interp_await.
  destruct (answer _ (getTables _) w5) as [[e|tt] w6]; [done|].
  rewrite interp_await.
  destruct (answer _ (walk _) w6) as [[e|paths] w7]; [done|].
  destruct (foldl _ _ _) as [[routines models] tables].
  destruct (interp answer (Cleanup.emit _ _ _ _ _ _) w7) as [[tr o] w8] eqn:Hemit.
  simpl. intros ->.
  eapply emit_tasks; [apply Hnew|constructor|]. by rewrite Hemit.
Qed.

Lemma never_cleanup : never is_delete cleanupBigQueryDataset.
Proof.
  unfold Cleanup.cleanupBigQueryDataset.
  apply never_await; [done|]. intros defaultProjectId.
  apply never_await; [done|]. intros found.
  destruct found; simpl negb; cbv iota; [|constructor].
  apply never_Perform; [done|]. intros [e|[]]; [constructor|].
  apply never_await; [done|]. intros rr.
  apply never_await; [done|]. intros mm.
  apply never_await; [done|]. intros tt.
  apply never_await; [done|]. intros paths.
  destruct (foldl _ _ _) as [[routines models] tables].
  apply never_emit.
Qed.


(** C10: [cleanupBigQueryDataset] itself never deletes; when it is called
    without options, or with options whose [dryRun] is undefined, the run
    is a dry run and no task that it hands back deletes; and a task that
    deletes comes from a call whose [dryRun] was [false]. *)
Theorem cleanup_is_dry_by_default w :
  (options ≫= dryRun = None → isDryRun options = true) ∧
  Forall (λ ev, is_delete ev = false) (interp answer cleanupBigQueryDataset w).1.1 ∧
  ∀ tasks t W' (answer' : ∀ R, Call R → W' → (Thrown + R) * W') w',
    (interp answer cleanupBigQueryDataset w).1.2 = Returned tasks → t ∈ tasks →
    (options ≫= dryRun = None →
       Forall (λ ev, is_delete ev = false) (interp answer' (task_job t) w').1.1) ∧
    (Exists (λ ev, is_delete ev = true) (interp answer' (task_job t) w').1.1 →
       options ≫= dryRun = Some false).
Proof.
  split_and!.
  - unfold isDryRun. by intros ->.
  - apply never_interp; [apply never_cleanup|done].
  - intros tasks t W' answer' w' Hrun Ht.
    pose proof (cleanup_tasks
      (λ t, ∃ bqId resource, task_job t = deletion_job (isDryRun options) bqId resource)
      w tasks) as Hall.
    rewrite Forall_forall in Hall.
    destruct (Hall (λ _ _ e, ex_intro _ e.1 (ex_intro _ e.2 eq_refl)) Hrun t Ht)
      as (bqId & resource & Hjob).
    rewrite Hjob.
    destruct (deletion_job_run answer' (isDryRun options) bqId resource w') as [_ Htr].
    rewrite Htr. unfold isDryRun. split.
    + intros ->. simpl. repeat constructor.
    + destruct (options ≫= dryRun) as [[]|]; simpl; [|done|].
      * intros [[=]|[]%Exists_nil]%Exists_cons.
      * intros [[=]|[]%Exists_nil]%Exists_cons.
Qed.

End claims.

(** The directory holds [r1] and the data set holds [r1] and [r2]: with
    [force] and without [dryRun] one task is handed back, for [r2]. *)
Example reconcile_two_routines :
  (interp two_routines
     (cleanupBigQueryDataset Identifiers.path2bq "bigquery" "@default" "ds"
        (Some {| dryRun := Some false; withoutConrimation := true |})) ()).1.2 =
  Returned [{| task_name := "p/ds/(DELETE)/ROUTINE/r2";
               task_job := deletion_job false "p.ds.r2" r2 |}].
Proof. vm_compute. reflexivity. Qed.


End CleanupFacts.

(** ** The sorter on every input *)

Module TopoSoundFacts.
Import JsSet JsSetFacts TopoSort TopoSpec TopoSound TopoSortFacts.

Lemma pending_snoc_le rel L tgt n :
  tgt ∉ L →
  (length (pending rel (L ++ [tgt]) n) + (if decide (edge rel n tgt) then 1 else 0)
   ≤ length (pending rel L n))%nat.
Proof.
  intros Htgt. unfold pending, edge.
  induction rel as [|e rel IH]; [simpl; try case_decide; lia|].
  rewrite !filter_cons.
  destruct (decide (e = (n, tgt))) as [->|Hne]; simpl.
  - rewrite (decide_True (P := n = n ∧ tgt ∉ L)) by done.
    rewrite (decide_False (P := n = n ∧ tgt ∉ L ++ [tgt]))
      by (rewrite elem_of_app, list_elem_of_singleton; tauto).
    rewrite (decide_True (P := (n, tgt) ∈ (n, tgt) :: rel)) by left.
    cbn [length]. destruct (decide ((n, tgt) ∈ rel)); lia.
  - rewrite (decide_ext ((n, tgt) ∈ e :: rel) ((n, tgt) ∈ rel))
      by (rewrite elem_of_cons; split; [intros [?|?]; [congruence|done]|auto]).
    rewrite (decide_ext (e.1 = n ∧ e.2 ∉ L ++ [tgt]) (e.1 = n ∧ e.2 ∉ L)).
    + destruct (decide (e.1 = n ∧ e.2 ∉ L)); cbn [length]; lia.
    + rewrite elem_of_app, list_elem_of_singleton. destruct e as [a b]; simpl in *.
      split; [tauto|]. intros [-> Hb]. split; [done|]. intros [?| ->]; done.
Qed.

(** A relation that stands twice in the list counts twice. *)
Lemma pending_snoc_twice rel L s d :
  d ∉ L → twice rel (s, d) →
  (length (pending rel (L ++ [d]) s) + 2 ≤ length (pending rel L s))%nat.
Proof.
  intros Hd (l1 & l2 & -> & Hin). unfold pending.
  rewrite !filter_app, !filter_cons. simpl.
  rewrite (decide_True (P := s = s ∧ d ∉ L)) by done.
  rewrite (decide_False (P := s = s ∧ d ∉ L ++ [d]))
    by (rewrite elem_of_app, list_elem_of_singleton; tauto).
  rewrite !length_app. cbn [length].
  pose proof (pending_snoc_le l1 L d s Hd) as H1.
  pose proof (pending_snoc_le l2 L d s Hd) as H2.
  unfold pending, edge in H1, H2.
  apply elem_of_app in Hin as [Hin|Hin].
  - rewrite decide_True in H1 by done. destruct (decide ((s, d) ∈ l2)); lia.
  - rewrite decide_True in H2 by done. destruct (decide ((s, d) ∈ l1)); lia.
Qed.

Lemma pending_mono rel L tgt n :
  (length (pending rel (L ++ [tgt]) n) ≤ length (pending rel L n))%nat.
Proof.
  unfold pending. induction rel as [|e rel IH]; [done|].
  rewrite !filter_cons.
  destruct (decide (e.1 = n ∧ e.2 ∉ L ++ [tgt])) as [[H1 H2]|H].
  - rewrite decide_True; [cbn [length]; lia|].
    split; [done|]. rewrite elem_of_app in H2. tauto.
  - destruct (decide (e.1 = n ∧ e.2 ∉ L)); cbn [length]; lia.
Qed.

Lemma Sound_init rel : Sound rel (init (build rel)).
Proof.
  rewrite init_eq. destruct (build_N rel) as [Hnd Hnodes].
  pose proof (filter_app_complement
    (λ n, E_get (gE (build rel)) n = 0) (gN (build rel))) as Hperm.
  rewrite (comm (++)) in Hperm.
  split; simpl; rewrite ?app_nil_r.
  - by rewrite Hperm.
  - intros n. by rewrite Hperm, Hnodes.
  - intros n. rewrite build_E, pending_nil. lia.
  - intros s d _ []%elem_of_nil.
  - intros n. intros [Hn _]%list_elem_of_filter. lia.
  - intros n Hn Hpos. apply list_elem_of_filter. split; [lia|by apply Hnodes].
  - apply not_elem_of_nil.
  - intros l1 s l2 d Heq. by destruct l1.
Qed.

Lemma Sound_step rel st S1 tgt :
  Sound rel st → st_S st = S1 ++ [tgt] → tgt ≠ "" →
  let E1 := decrement (st_E st) (G_get (gG (build rel)) tgt) in
  Sound rel (State E1
    (filter (λ n, ¬ E_get E1 n ≤ 0) (st_N st))
    (reverse (filter (λ n, E_get E1 n ≤ 0) (st_N st)) ++ S1)
    (add tgt (st_L st))).
Proof.
  intros [Hnd Hnodes Hcount Hexcess Hready Hwait Hnamed Hord] HS Hne E1.
  destruct (build_G rel tgt) as [HGnd HG].
  rewrite HS in *.
  assert (tgt ∉ st_L st) as HtgtL.
  { apply NoDup_app in Hnd as (_ & _ & Hnd).
    apply NoDup_app in Hnd as (_ & Hdisj & _).
    apply Hdisj. rewrite elem_of_app, list_elem_of_singleton. auto. }
  assert (add tgt (st_L st) = st_L st ++ [tgt]) as ->
    by (unfold add; by rewrite decide_False).
  assert (∀ n, E_get E1 n =
               E_get (st_E st) n - (if decide (edge rel n tgt) then 1 else 0)) as HE1.
  { intros n. unfold E1. rewrite decrement_get by done. specialize (HG n).
    destruct (decide (edge rel n tgt)), (decide (n ∈ G_get (gG (build rel)) tgt));
      [lia|tauto|tauto|lia]. }
  assert (∀ n, E_get E1 n ≤ E_get (st_E st) n) as Hle.
  { intros n. rewrite HE1. destruct (decide (edge rel n tgt)); lia. }
  pose proof (filter_app_complement (λ n, E_get E1 n ≤ 0) (st_N st)) as Hperm0.
  assert (filter (λ n, ¬ E_get E1 n ≤ 0) (st_N st)
            ++ (reverse (filter (λ n, E_get E1 n ≤ 0) (st_N st)) ++ S1)
            ++ st_L st ++ [tgt]
          ≡ₚ st_N st ++ (S1 ++ [tgt]) ++ st_L st) as Hperm.
  { rewrite reverse_Permutation. rewrite <- Hperm0 at 3. solve_Permutation. }
  split; simpl.
  - by rewrite Hperm.
  - intros n. rewrite Hperm. apply Hnodes.
  - intros n. rewrite HE1. specialize (Hcount n).
    pose proof (pending_snoc_le rel (st_L st) tgt n HtgtL).
    destruct (decide (edge rel n tgt)); lia.
  - intros s d Htw Hd. rewrite HE1. apply elem_of_app in Hd as [Hd|Hd].
    + specialize (Hexcess s d Htw Hd).
      pose proof (pending_snoc_le rel (st_L st) tgt s HtgtL).
      destruct (decide (edge rel s tgt)); lia.
    + apply list_elem_of_singleton in Hd as ->. specialize (Hcount s).
      pose proof (pending_snoc_twice rel (st_L st) s tgt HtgtL Htw).
      destruct (decide (edge rel s tgt)); lia.
  - intros n Hn. specialize (Hle n).
    rewrite !elem_of_app, elem_of_reverse, list_elem_of_filter in Hn.
    destruct Hn as [[[Hn _]|Hn]|Hn].
    + lia.
    + assert (E_get (st_E st) n ≤ 0); [|lia].
      apply Hready. rewrite !elem_of_app. auto.
    + assert (E_get (st_E st) n ≤ 0); [|lia].
      apply Hready. rewrite !elem_of_app in *. tauto.
  - intros n Hn Hpos. apply list_elem_of_filter. split; [lia|].
    apply Hwait; [done|]. specialize (Hle n). lia.
  - rewrite elem_of_app, list_elem_of_singleton. intros [?|?]; [done|congruence].
  - intros l1 s l2 d Heq He.
    destruct l2 as [|x l2 _] using rev_ind.
    + apply app_inj_tail in Heq as [Hl <-]. rewrite <- Hl.
      apply (pending_elem rel (st_L st) tgt d He).
      assert (E_get (st_E st) tgt ≤ 0) as Hr.
      { apply Hready. rewrite !elem_of_app, list_elem_of_singleton. auto. }
      specialize (Hcount tgt). lia.
    + rewrite app_comm_cons, app_assoc in Heq.
      apply app_inj_tail in Heq as [Heq _]. by eapply Hord.
Qed.

Lemma Sound_break rel E N0 S1 L :
  Sound rel (State E N0 (S1 ++ [""]) L) → Sound rel (State E N0 S1 L).
Proof.
  intros [Hnd Hnodes Hcount Hexcess Hready Hwait Hnamed Hord]. simpl in *.
  assert (N0 ++ (S1 ++ [""]) ++ L ≡ₚ "" :: N0 ++ S1 ++ L) as Hperm
    by solve_Permutation.
  split; simpl; try done.
  - rewrite Hperm in Hnd. by apply NoDup_cons in Hnd as [_ Hnd].
  - intros n Hn. apply Hnodes. rewrite Hperm. by right.
  - intros n Hn. apply Hready. rewrite !elem_of_app in *. tauto.
Qed.

Lemma while_Sound rel fuel st st' :
  Sound rel st → while fuel (gG (build rel)) st = Some st' → Sound rel st'.
Proof.
  revert st. induction fuel as [|fuel IH]; intros st HI.
  - destruct st as [E N0 S0 L]. simpl. destruct S0; [|done]. by intros [= <-].
  - destruct (decide (st_S st = [])) as [HS|HS].
    { destruct st as [E N0 S0 L]. simpl in *. subst. by intros [= <-]. }
    destruct (pop_nonempty _ HS) as (tgt & S1 & HS1 & _).
    destruct (decide (tgt = "")) as [->|Hne].
    + destruct st as [E N0 S0 L]. simpl in HS1. subst S0.
      rewrite while_snoc, body_break. intros [= <-]. by apply Sound_break.
    + pose proof (Sound_step rel st S1 tgt HI HS1 Hne) as HI'. cbn zeta in HI'.
      destruct st as [E N0 S0 L]. simpl in HS1, HI'. subst S0.
      rewrite while_snoc, body_continue by done. cbn zeta. by apply IH.
Qed.

Lemma run_Sound rel : ∃ st, run rel = Some st ∧ Sound rel st.
Proof.
  destruct (run_total rel) as [st Hrun]. exists st. split; [done|].
  unfold run in Hrun. eapply while_Sound; [apply Sound_init|done].
Qed.

Lemma Sound_L rel st : Sound rel st → NoDup (st_L st).
Proof.
  intros HI. pose proof (snd_nodup _ _ HI) as Hnd.
  apply NoDup_app in Hnd as (_ & _ & Hnd). by apply NoDup_app in Hnd as (_ & _ & Hnd).
Qed.

(** A node whose counter stays positive is named when the sorter throws. *)
Lemma Sound_throws rel st s :
  run rel = Some st → Sound rel st → is_node rel s → 0 < E_get (st_E st) s →
  ∃ residual, topologicalSort rel = Some (Throw (cycle_message residual)) ∧
              s ∈ residual ∧ NoDup residual ∧ ∀ n, n ∈ residual → is_node rel n.
Proof.
  intros Hrun HI Hs Hpos. pose proof (snd_wait _ _ HI s Hs Hpos) as HN.
  exists (st_N st). unfold topologicalSort, finish. rewrite Hrun. simpl.
  destruct (st_N st) as [|n N'] eqn:HNeq; [by apply elem_of_nil in HN|].
  split_and!; [done|done| |].
  - pose proof (snd_nodup _ _ HI) as Hnd. rewrite HNeq in Hnd.
    by apply NoDup_app in Hnd as (Hnd & _).
  - intros m Hm. apply (snd_nodes _ _ HI). rewrite HNeq, elem_of_app. by left.
Qed.

Lemma Sound_Return rel order :
  topologicalSort rel = Some (Return order) →
  NoDup order ∧ (∀ n, n ∈ order → is_node rel n) ∧ ordered rel order.
Proof.
  destruct (run_Sound rel) as (st & Hrun & HI).
  unfold topologicalSort, finish. rewrite Hrun. simpl.
  destruct (st_N st) as [|n N']; [|done]. intros [= <-]. split_and!.
  - by eapply Sound_L.
  - intros n Hn. apply (snd_nodes _ _ HI). rewrite !elem_of_app. auto.
  - apply HI.
Qed.

(** Whatever the relations, an order that the sorter returns holds no
    node twice, holds nodes of the graph only, and holds, before each of
    its nodes, every node on which that node depends. *)
Theorem topologicalSort_return_sound rel order :
  topologicalSort rel = Some (Return order) →
  NoDup order ∧
  (∀ n, n ∈ order → is_node rel n) ∧
  (∀ s d, s ∈ order → edge rel s d → before order d s).
Proof.
  intros (Hnd & Hnodes & Hord)%Sound_Return. split_and!; [done..|].
  intros s d Hs He. by eapply ordered_before.
Qed.

Lemma topologicalSort_return_sound_witness :
  NoDup ["c"; "b"; "a"] ∧
  (∀ n, n ∈ ["c"; "b"; "a"] → is_node chain_example n) ∧
  (∀ s d, s ∈ ["c"; "b"; "a"] → edge chain_example s d → before ["c"; "b"; "a"] d s).
Proof.
  apply (topologicalSort_return_sound chain_example). vm_compute. reflexivity.
Defined.

(** A relation that stands twice in the list makes the sorter throw, and
    the message names the first component of that relation. *)
Theorem topologicalSort_repeated_throws rel s d :
  twice rel (s, d) →
  ∃ residual, topologicalSort rel = Some (Throw (cycle_message residual)) ∧
              s ∈ residual ∧ NoDup residual ∧ ∀ n, n ∈ residual → is_node rel n.
Proof.
  intros Htw. destruct (run_Sound rel) as (st & Hrun & HI).
  apply (Sound_throws rel st s Hrun HI).
  - destruct Htw as (l1 & l2 & -> & _). exists (s, d).
    rewrite elem_of_app, elem_of_cons. auto.
  - destruct (decide (d ∈ st_L st)) as [Hd|Hd].
    + pose proof (snd_excess _ _ HI s d Htw Hd). lia.
    + pose proof (snd_count _ _ HI s) as Hc.
      assert ((s, d) ∈ pending rel (st_L st) s) as Hin.
      { unfold pending. rewrite list_elem_of_filter. split; [done|].
        destruct Htw as (l1 & l2 & -> & _). rewrite elem_of_app, elem_of_cons. auto. }
      destruct (pending rel (st_L st) s); [by apply elem_of_nil in Hin|].
      simpl in Hc. lia.
Qed.

Lemma topologicalSort_repeated_throws_witness :
  ∃ residual,
    topologicalSort repeated_later_example = Some (Throw (cycle_message residual)) ∧
    "a" ∈ residual ∧ NoDup residual ∧
    ∀ n, n ∈ residual → is_node repeated_later_example n.
Proof.
  apply (topologicalSort_repeated_throws repeated_later_example "a" "b").
  exists [("b", "c")], [("a", "b")]. split; [reflexivity|].
  apply (bool_decide_unpack _). vm_compute. exact I.
Defined.

(** A relation whose second component is the empty string makes the
    sorter throw, and the message names its first component. *)
Theorem topologicalSort_unnamed_throws rel s :
  edge rel s "" →
  ∃ residual, topologicalSort rel = Some (Throw (cycle_message residual)) ∧
              s ∈ residual ∧ NoDup residual ∧ ∀ n, n ∈ residual → is_node rel n.
Proof.
  intros He. destruct (run_Sound rel) as (st & Hrun & HI).
  apply (Sound_throws rel st s Hrun HI).
  - exists (s, ""). split; [exact He|by left].
  - pose proof (snd_count _ _ HI s) as Hc.
    assert ((s, "") ∈ pending rel (st_L st) s) as Hin.
    { unfold pending. rewrite list_elem_of_filter. split; [|exact He].
      split; [done|]. apply (snd_named _ _ HI). }
    destruct (pending rel (st_L st) s); [by apply elem_of_nil in Hin|].
    simpl in Hc. lia.
Qed.

Lemma topologicalSort_unnamed_throws_witness :
  ∃ residual,
    topologicalSort unnamed_example = Some (Throw (cycle_message residual)) ∧
    "a" ∈ residual ∧ NoDup residual ∧ ∀ n, n ∈ residual → is_node unnamed_example n.
Proof.
  apply (topologicalSort_unnamed_throws unnamed_example "a").
  apply (bool_decide_unpack _). vm_compute. exact I.
Defined.

Lemma while_more_fuel fuel fuel' G st st' :
  (fuel ≤ fuel')%nat → while fuel G st = Some st' → while fuel' G st = Some st'.
Proof.
  revert fuel' st. induction fuel as [|fuel IH]; intros fuel' st Hle.
  - destruct st as [E N0 S0 L]. simpl. destruct S0; [|done].
    intros [= <-]. by destruct fuel'.
  - destruct fuel' as [|fuel']; [lia|].
    destruct st as [E N0 S0 L]. simpl. destruct S0 as [|x S0]; [done|].
    destruct (body G _); [|done]. apply IH. lia.
Qed.

(** The loop ends, on every list of relations: one pass for each node of
    the graph is enough, and with more passes allowed the loop is left in
    the same state. *)
Theorem topologicalSort_loop_ends rel fuel :
  (length (gN (build rel)) ≤ fuel)%nat →
  ∃ st, while fuel (gG (build rel)) (init (build rel)) = Some st ∧
        topologicalSort rel = Some (finish st).
Proof.
  intros Hle. destruct (run_total rel) as [st Hrun]. exists st. split.
  - by eapply while_more_fuel.
  - unfold topologicalSort. by rewrite Hrun.
Qed.

Lemma topologicalSort_loop_ends_witness :
  ∃ st, while 7 (gG (build cycle_example)) (init (build cycle_example)) = Some st ∧
        topologicalSort cycle_example = Some (finish st).
Proof.
  apply (topologicalSort_loop_ends cycle_example 7). vm_compute. lia.
Defined.

End TopoSoundFacts.

(** ** The plan of a deployment *)

Module PlanFacts.
Import JsSet JsSetFacts TopoSort TopoSpec TopoSound TopoSortFacts TopoSoundFacts.
Import Planner PlanCheck PlanExamples.

Implicit Types (results : list BigQueryJobResource) (r : BigQueryJobResource).

(** *** The relations *)

Lemma add_pairs_spec (dst : string) (srcs : list string) (ret : list Relation) :
  let ret' := foldl (λ ret src, add (dst, src) ret) ret srcs in
  (NoDup ret → NoDup ret') ∧
  ∀ x, x ∈ ret' ↔ x ∈ ret ∨ ∃ src, src ∈ srcs ∧ x = (dst, src).
Proof.
  revert ret. induction srcs as [|src srcs IH]; intros ret; simpl.
  - split; [done|]. intros x. split; [auto|]. intros [?|(? & []%elem_of_nil & _)]. done.
  - destruct (IH (add (dst, src) ret)) as [IHn IHe]. split.
    + intros Hnd. by apply IHn, NoDup_add.
    + intros x. rewrite IHe, elem_of_add. split.
      * intros [[->|?]|(src' & ? & ->)]; [right|by left|right].
        -- exists src. split; [left|done].
        -- exists src'. split; [by right|done].
      * intros [?|(src' & [->|?]%elem_of_cons & ->)]; [by left; right|by left; left|].
        right. by exists src'.
Qed.

Lemma relations_step_spec (ret : list Relation) r :
  (NoDup ret → NoDup (relations_step ret r)) ∧
  ∀ a b, (a, b) ∈ relations_step ret r ↔
    (a, b) ∈ ret ∨
    (a = namespace r ∨ a ∈ destinations r) ∧ b = sentinal ∨
    a ∈ destinations r ∧ b ∈ dependencies r ∧ b ∉ destinations r.
Proof.
  unfold relations_step.
  set (srcs := filter (λ s, s ∉ destinations r) (dependencies r)).
  assert (∀ b, b ∈ srcs ↔ b ∈ dependencies r ∧ b ∉ destinations r) as Hsrcs
    by (intros b; unfold srcs; rewrite list_elem_of_filter; tauto).
  clearbody srcs.
  assert (∀ (dsts : list string) (acc : list Relation),
    let acc' := foldl (λ ret dst,
                   foldl (λ ret src, add (dst, src) ret)
                         (add (dst, sentinal) ret) srcs) acc dsts in
    (NoDup acc → NoDup acc') ∧
    ∀ a b, (a, b) ∈ acc' ↔
      (a, b) ∈ acc ∨ a ∈ dsts ∧ (b = sentinal ∨ b ∈ srcs)) as Houter.
  { induction dsts as [|dst dsts IH]; intros acc; simpl.
    - split; [done|]. intros a b. split; [auto|]. intros [?|[[]%elem_of_nil _]]. done.
    - destruct (add_pairs_spec dst srcs (add (dst, sentinal) acc)) as [Hn He].
      cbn zeta in Hn, He.
      destruct (IH (foldl (λ ret src, add (dst, src) ret)
                          (add (dst, sentinal) acc) srcs)) as [IHn IHe].
      split.
      + intros Hnd. by apply IHn, Hn, NoDup_add.
      + intros a b. rewrite IHe, He, elem_of_add, elem_of_cons. split.
        * intros [[[[= -> ->]|?]|(src & ? & [= -> ->])]|[? ?]]; auto.
        * intros [?|[[->|?] [->|?]]]; auto.
          -- left. right. by exists b.
  }
  destruct (Houter (destinations r) (add (namespace r, sentinal) ret)) as [Hn He].
  cbn zeta in Hn, He. split.
  - intros Hnd. by apply Hn, NoDup_add.
  - intros a b. rewrite He, elem_of_add, Hsrcs. split.
    + intros [[[= -> ->]|?]|[? [->|?]]]; auto.
    + intros [?|[[[->|?] ->]|(? & ? & ?)]]; auto.
Qed.

Lemma relations_fold_spec results (acc : list Relation) :
  (NoDup acc → NoDup (foldl relations_step acc results)) ∧
  ∀ a b, (a, b) ∈ foldl relations_step acc results ↔
    (a, b) ∈ acc ∨
    ∃ r, r ∈ results ∧
      ((a = namespace r ∨ a ∈ destinations r) ∧ b = sentinal ∨
       a ∈ destinations r ∧ b ∈ dependencies r ∧ b ∉ destinations r).
Proof.
  revert acc. induction results as [|r results IH]; intros acc; simpl.
  - split; [done|]. intros a b. split; [auto|]. intros [?|(? & []%elem_of_nil & _)]. done.
  - destruct (relations_step_spec acc r) as [Hn He].
    destruct (IH (relations_step acc r)) as [IHn IHe]. split.
    + intros Hnd. by apply IHn, Hn.
    + intros a b. rewrite IHe, He. split.
      * intros [[?|Hr]|(r' & ? & Hr)]; [by left| |].
        -- right. exists r. split; [left|done].
        -- right. exists r'. split; [by right|done].
      * intros [?|(r' & [->|?]%elem_of_cons & Hr)]; [by left; left|by left; right|].
        right. by exists r'.
Qed.

Lemma relations_NoDup results : NoDup (relations results).
Proof.
  unfold relations. apply NoDup_filter.
  apply (relations_fold_spec results []), NoDup_nil_2.
Qed.

Lemma relations_elem results a b :
  (a, b) ∈ relations results ↔
  a ≠ b ∧ ∃ r, r ∈ results ∧
    ((a = namespace r ∨ a ∈ destinations r) ∧ b = sentinal ∨
     a ∈ destinations r ∧ b ∈ dependencies r ∧ b ∉ destinations r).
Proof.
  unfold relations. rewrite list_elem_of_filter. simpl.
  destruct (relations_fold_spec results []) as [_ ->].
  rewrite elem_of_nil. tauto.
Qed.

(** The relations that the planner hands to the sorter hold no pair
    twice, and a pair [(a, b)] is one of them exactly when [a] is not [b]
    and some file has [a] for its name space or for a destination and [b]
    is the sentinel, or has [a] for a destination and [b] for a
    dependency that is not one of its destinations. *)
Theorem relations_of_plan results :
  NoDup (relations results) ∧
  ∀ a b, (a, b) ∈ relations results ↔
    a ≠ b ∧ ∃ r, r ∈ results ∧
      ((a = namespace r ∨ a ∈ destinations r) ∧ b = sentinal ∨
       a ∈ destinations r ∧ b ∈ dependencies r ∧ b ∉ destinations r).
Proof. split; [apply relations_NoDup|apply relations_elem]. Qed.

(** *** The files of a name space *)

Lemma bigquery2Objs_lookup results ns :
  bigquery2Objs results !! ns =
    match filter (λ r, namespace r = ns) results with
    | [] => None
    | jobs => Some jobs
    end.
Proof.
  unfold bigquery2Objs.
  induction results as [|r results IH] using rev_ind; [done|].
  rewrite foldl_snoc, filter_app, filter_cons, filter_nil.
  destruct (decide (namespace r = ns)) as [<-|Hne].
  - rewrite lookup_insert_eq, IH.
    destruct (filter _ results); done.
  - rewrite lookup_insert_ne, IH, app_nil_r by done. done.
Qed.

Lemma bigquery2Objs_default results ns :
  default [] (bigquery2Objs results !! ns) = filter (λ r, namespace r = ns) results.
Proof. rewrite bigquery2Objs_lookup. by destruct (filter _ results). Qed.

(** *** The [DAG] map *)

Lemma build_DAG_eq results dag :
  build_DAG results = Some (inr dag) →
  ∃ order,
    topologicalSort (relations results) = Some (Return order) ∧
    dag = (λ ns, (ns, filter (λ r, namespace r = ns) results)) <$>
          filter (λ ns, filter (λ r, namespace r = ns) results ≠ []) order.
Proof.
  unfold build_DAG.
  destruct (topologicalSort (relations results)) as [[order|msg]|]; [|done..].
  intros [= <-]. exists order. split; [done|].
  induction order as [|ns order IH]; [done|].
  rewrite fmap_cons, !filter_cons. simpl. rewrite bigquery2Objs_default.
  destruct (filter (λ r, namespace r = ns) results) as [|job jobs] eqn:Hjobs.
  - rewrite decide_False by (simpl; lia).
    rewrite decide_False by (intros Hn; by apply Hn). exact IH.
  - rewrite decide_True by (simpl; lia). rewrite decide_True by done.
    rewrite fmap_cons, Hjobs. f_equal. exact IH.
Qed.

Lemma build_DAG_keys results dag :
  build_DAG results = Some (inr dag) →
  ∃ order,
    topologicalSort (relations results) = Some (Return order) ∧
    dag.*1 = filter (λ ns, filter (λ r, namespace r = ns) results ≠ []) order.
Proof.
  intros (order & Hsort & ->)%build_DAG_eq. exists order. split; [done|].
  rewrite <- list_fmap_compose. apply list_fmap_id.
Qed.

(** In the [DAG] map that the planner builds, every key is the name space
    of some file, and its tasks are the files of that name space, in the
    order in which the files were given; no name space is a key twice. *)
Theorem build_DAG_groups results dag :
  build_DAG results = Some (inr dag) →
  NoDup dag.*1 ∧
  ∀ ns jobs, (ns, jobs) ∈ dag →
    jobs ≠ [] ∧ jobs = filter (λ r, namespace r = ns) results.
Proof.
  intros Hdag. destruct (build_DAG_keys _ _ Hdag) as (order & Hsort & Hkeys).
  apply build_DAG_eq in Hdag as (order' & Hsort' & Hdag).
  rewrite Hsort in Hsort'. injection Hsort' as <-.
  destruct (Sound_Return _ _ Hsort) as (Hnd & _).
  split.
  - rewrite Hkeys. by apply NoDup_filter.
  - intros ns jobs Hin. rewrite Hdag in Hin.
    apply list_elem_of_fmap in Hin as (ns' & [= -> ->] & Hns).
    by apply list_elem_of_filter in Hns as [Hne _].
Qed.

Lemma build_DAG_groups_witness :
  NoDup dag_a_x_b.*1 ∧
  ∀ ns jobs, (ns, jobs) ∈ dag_a_x_b →
    jobs ≠ [] ∧ jobs = filter (λ r, namespace r = ns) [create_a; create_b; insert_b].
Proof.
  apply (build_DAG_groups [create_a; create_b; insert_b] dag_a_x_b).
  vm_compute. reflexivity.
Defined.

(** *** Every file is planned *)

Lemma filter_disjoint_app {A} (P Q : A → Prop)
    `{!∀ x, Decision (P x), !∀ x, Decision (Q x)} (l : list A) :
  (∀ x, P x → Q x → False) →
  filter P l ++ filter Q l ≡ₚ filter (λ x, P x ∨ Q x) l.
Proof.
  intros Hdisj. induction l as [|x l IH]; [done|].
  rewrite !filter_cons.
  destruct (decide (P x)) as [HP|HP], (decide (Q x)) as [HQ|HQ].
  - by destruct (Hdisj x).
  - rewrite decide_True by auto. simpl. by rewrite IH.
  - rewrite decide_True by auto. rewrite <- Permutation_middle. by rewrite IH.
  - rewrite decide_False by tauto. exact IH.
Qed.

Lemma filter_none {A} (P : A → Prop) `{!∀ x, Decision (P x)} (l : list A) :
  (∀ x, x ∈ l → ¬ P x) → filter P l = [].
Proof.
  induction l as [|a l IH]; intros HP; [done|].
  rewrite filter_cons_False by (apply HP; left).
  apply IH. intros x Hx. apply HP. by right.
Qed.

Lemma groups_Permutation {A K} `{EqDecision K} (f : A → K) (ks : list K) (l : list A) :
  NoDup ks →
  mjoin ((λ k, filter (λ x, f x = k) l) <$> ks) ≡ₚ filter (λ x, f x ∈ ks) l.
Proof.
  induction ks as [|k ks IH]; intros Hnd; simpl.
  - rewrite filter_none; [done|]. intros x _. apply not_elem_of_nil.
  - apply NoDup_cons in Hnd as [Hk Hnd]. rewrite IH by done.
    rewrite (filter_disjoint_app (λ x, f x = k) (λ x, f x ∈ ks)).
    + erewrite (filter_iff_elem_of _ (λ x, f x ∈ k :: ks)); [done|].
      intros x _. by rewrite elem_of_cons.
    + intros x <- Hx. done.
Qed.

Lemma join_nonempty_groups {A K} (g : K → list A) (ks : list K) :
  mjoin (g <$> filter (λ k, g k ≠ []) ks) = mjoin (g <$> ks).
Proof.
  induction ks as [|k ks IH]; [done|].
  rewrite filter_cons. destruct (decide (g k ≠ [])) as [Hne|He]; csimpl.
  - by rewrite IH.
  - rewrite IH. destruct (g k); [done|]. by destruct He.
Qed.

Lemma fmap_snd_pair {A B} (g : A → B) (l : list A) :
  ((λ k, (k, g k)) <$> l).*2 = g <$> l.
Proof. by rewrite <- list_fmap_compose. Qed.

Lemma length_all_tasks (dag : Dag) :
  length (Scheduler.all_tasks dag) = length (mjoin dag.*2).
Proof.
  unfold Scheduler.all_tasks. induction dag as [|[ns jobs] dag IH]; [done|].
  csimpl. rewrite !length_app, IH. unfold Scheduler.refs_of.
  by rewrite length_fmap, length_seq.
Qed.

(** When the relations hold no repetition and no empty name, every node
    of the graph is in the order that the sorter returns. *)
Lemma Return_complete rel order n :
  NoDup rel → named rel → topologicalSort rel = Some (Return order) →
  is_node rel n → n ∈ order.
Proof.
  intros Hrel Hnamed Hsort Hn.
  destruct (run_Inv rel Hrel Hnamed) as (st & Hrun & HI & HS).
  unfold topologicalSort, finish in Hsort. rewrite Hrun in Hsort. simpl in Hsort.
  destruct (st_N st) as [|m N'] eqn:HN; [|done]. injection Hsort as <-.
  apply (inv_nodes _ _ HI) in Hn. by rewrite HN, HS in Hn.
Qed.

Lemma namespace_planned results dag r :
  build_DAG results = Some (inr dag) →
  named (relations results) → namespace r ≠ sentinal → r ∈ results →
  namespace r ∈ dag.*1.
Proof.
  intros (order & Hsort & ->)%build_DAG_keys Hnamed Hns Hr.
  apply list_elem_of_filter. split.
  - intros Hnil. eapply (filter_nil_not_elem_of _ _ r); done.
  - apply (Return_complete (relations results)); [apply relations_NoDup|done..|].
    exists (namespace r, sentinal). split; [|by left].
    apply relations_elem. split; [done|]. exists r. auto.
Qed.

(** When the planner builds the [DAG] map, no name being the empty string
    and no name space the sentinel, every file is the job of exactly one
    task: the jobs of the map are the files, each once, and there are as
    many tasks as files. *)
Theorem plan_holds_every_file results dag :
  build_DAG results = Some (inr dag) →
  named (relations results) →
  (∀ r, r ∈ results → namespace r ≠ sentinal) →
  mjoin dag.*2 ≡ₚ results ∧
  length (Scheduler.all_tasks dag) = length results.
Proof.
  intros Hdag Hnamed Hns.
  assert (mjoin dag.*2 ≡ₚ results) as Hperm.
  { pose proof Hdag as (order & Hsort & ->)%build_DAG_eq.
    destruct (Sound_Return _ _ Hsort) as (Hnd & _).
    rewrite (fmap_snd_pair (λ ns, filter (λ r, namespace r = ns) results)).
    rewrite (join_nonempty_groups (λ ns, filter (λ r, namespace r = ns) results)).
    rewrite (groups_Permutation namespace order results Hnd).
    rewrite filter_all; [done|]. intros r Hr.
    apply (Return_complete (relations results)); [apply relations_NoDup|done..|].
    exists (namespace r, sentinal). split; [|by left].
    apply relations_elem. split; [by apply Hns|]. exists r. auto. }
  split; [done|]. by rewrite length_all_tasks, Hperm.
Qed.

Lemma plan_holds_every_file_witness :
  mjoin dag_a_x_b.*2 ≡ₚ [create_a; create_b; insert_b] ∧
  length (Scheduler.all_tasks dag_a_x_b) = length [create_a; create_b; insert_b].
Proof.
  apply (plan_holds_every_file [create_a; create_b; insert_b] dag_a_x_b).
  - vm_compute. reflexivity.
  - apply named_Forall, (bool_decide_unpack _). vm_compute. exact I.
  - intros r Hr. apply (bool_decide_unpack _).
    revert r Hr. apply Forall_forall, (bool_decide_unpack _). vm_compute. exact I.
Defined.

(** *** The warnings *)

(** After the [DAG] map is built, no name being the empty string and no
    name space the sentinel, the check never warns that a name space has
    no deployment file: it prints one line for each name space none of
    whose files has the name space among its destinations, and nothing
    else. *)
Theorem validation_of_plan results dag :
  build_DAG results = Some (inr dag) →
  named (relations results) →
  (∀ r, r ∈ results → namespace r ≠ sentinal) →
  validation results dag =
    keys results ≫= λ key,
      if decide (key ∈ filter (λ r, namespace r = key) results ≫= destinations)
      then []
      else ["Warning: No DDL file exist but target directory found: " +:+ key].
Proof.
  intros Hdag Hnamed Hns. unfold validation.
  apply Forall_bind_ext, Forall_forall. intros key Hkey.
  unfold keys in Hkey. rewrite elem_of_of_list in Hkey.
  apply list_elem_of_fmap in Hkey as (r & -> & Hr).
  pose proof (namespace_planned results dag r Hdag Hnamed (Hns r Hr) Hr) as Hplanned.
  rewrite decide_False by tauto. rewrite bigquery2Objs_default. simpl.
  destruct (decide (namespace r ∈ _ ≫= destinations)) as [Hin|Hin].
  - rewrite decide_False; [done|]. rewrite elem_of_of_list. tauto.
  - rewrite decide_True; [done|]. by rewrite elem_of_of_list.
Qed.

Lemma validation_of_plan_witness :
  validation [create_a; create_b; insert_b] dag_a_x_b =
    keys [create_a; create_b; insert_b] ≫= λ key,
      if decide (key ∈ filter (λ r, namespace r = key) [create_a; create_b; insert_b]
                       ≫= destinations)
      then []
      else ["Warning: No DDL file exist but target directory found: " +:+ key].
Proof.
  apply (validation_of_plan [create_a; create_b; insert_b] dag_a_x_b).
  - vm_compute. reflexivity.
  - apply named_Forall, (bool_decide_unpack _). vm_compute. exact I.
  - intros r Hr. apply (bool_decide_unpack _).
    revert r Hr. apply Forall_forall, (bool_decide_unpack _). vm_compute. exact I.
Defined.

End PlanFacts.

(** ** Whole runs of the planned tasks *)

Module RunFacts.
Import TaskModel Planner Scheduler PlanExamples RunSpec SchedulerFacts PlanFacts.

Section run.

Variable dag : Dag.
Variable task_name : BigQueryJobResource → string.
Variable concurrency : nat.

Local Abbreviation step := (step dag concurrency).
Local Abbreviation steps := (steps dag concurrency).
Local Abbreviation init := (init dag task_name).

Local Abbreviation changes := (changes dag concurrency).

Lemma step_changes s ev s' : step s ev = Some s' ↔ changes s ev s'.
Proof.
  split.
  - destruct ev as [r|r|r o]; simpl.
    + case_decide as Hq; [|done]. destruct Hq as [Hnext Hlt].
      destruct (store s !! r) as [c|] eqn:Hc; [|done]. simpl.
      destruct (job_of dag r) as [job|] eqn:Hjob; [|done]. simpl.
      intros [= <-]. by econstructor.
    + destruct (store s !! r) as [c|] eqn:Hc; [|done]. simpl.
      destruct (job_of dag r) as [job|] eqn:Hjob; [|done]. simpl.
      destruct (cell_phase c) as [|ps| |] eqn:Hph; [done| |done..].
      destruct (existsb _ ps) eqn:Hex.
      * intros [= <-]. by econstructor.
      * destruct (forallb _ ps) eqn:Hall; [|done]. intros [= <-]. by econstructor.
    + destruct (store s !! r) as [c|] eqn:Hc; [|done]. simpl.
      destruct (cell_phase c) as [|ps| |] eqn:Hph; [done..| |done].
      intros [= <-]. by econstructor.
  - intros [r c job Hnext Hlt Hc Hjob|r c job ps Hc Hjob Hph Hex
            |r c job ps Hc Hjob Hph Hex Hall|r c o Hc Hph]; simpl.
    + rewrite decide_True by done. rewrite Hc. simpl. by rewrite Hjob.
    + rewrite Hc. simpl. rewrite Hjob. simpl. by rewrite Hph, Hex.
    + rewrite Hc. simpl. rewrite Hjob. simpl. by rewrite Hph, Hex, Hall.
    + rewrite Hc. simpl. by rewrite Hph.
Qed.

(** A property that holds at the start and that every change keeps holds
    in every state that is reached. *)
Lemma steps_invariant (I : Sys → Prop) :
  I init →
  (∀ s ev s', reached dag s → I s → changes s ev s' → I s') →
  ∀ evs s, steps init evs = Some s → I s.
Proof.
  intros Hinit Hstep evs s Hsteps.
  assert (∀ s0, reached dag s0 → I s0 → steps s0 evs = Some s → I s) as Hgen.
  { clear Hsteps. induction evs as [|ev evs IH]; intros s0 Hr HI; simpl.
    - by intros [= <-].
    - destruct (step s0 ev) as [s1|] eqn:Hs1; [|done]. simpl.
      apply IH; [by eapply reached_step|].
      eapply Hstep; [done..|]. by apply step_changes. }
  apply (Hgen init); [apply reached_init|done..].
Qed.

Lemma status_of_put s r c p :
  status_of (put s r c) p =
    if decide (r = p) then Some (status (cell_task c)) else status_of s p.
Proof.
  unfold status_of, task_of. rewrite store_put. by case_decide.
Qed.

(** What a change does to the status of the tasks, and to the list of
    the calls of the executor. *)
Lemma changes_status s ev s' :
  wf s → changes s ev s' →
  ∃ r c, store s !! r = Some c ∧ cell_phase c ≠ Over ∧
         status_of s' r ≠ Some pending ∧
         (∀ p, p ≠ r → store s' !! p = store s !! p) ∧
         (∀ p, p ∈ deployed s → p ∈ deployed s').
Proof.
  intros Hwf Hch.
  destruct Hch as [r c job Hnext Hlt Hc Hjob|r c job ps Hc Hjob Hph Hex
                  |r c job ps Hc Hjob Hph Hex Hall|r c o Hc Hph];
    exists r, c; (split; [done|]).
  - apply next_in_queue_pending in Hnext.
    unfold status_of, task_of in Hnext. rewrite Hc in Hnext. injection Hnext as Hp.
    destruct (cell_ok_pending s r c (Hwf r c Hc) Hp) as [Hph _].
    split_and!.
    + by rewrite Hph.
    + rewrite status_of_put, decide_True by done. unfold run_start. by rewrite Hp.
    + intros p Hne. by rewrite store_put, decide_False.
    + done.
  - split_and!.
    + by rewrite Hph.
    + by rewrite status_of_put, decide_True.
    + intros p Hne. by rewrite store_put, decide_False.
    + done.
  - pose proof (Hwf r c Hc) as Hok. unfold cell_ok in Hok. rewrite Hph in Hok.
    destruct Hok as (Hs & _). split_and!.
    + by rewrite Hph.
    + unfold status_of, task_of. simpl. rewrite lookup_insert_eq. simpl. by rewrite Hs.
    + intros p Hne. simpl. by rewrite lookup_insert_ne.
    + intros p Hp. simpl. rewrite elem_of_app. by left.
  - split_and!.
    + by rewrite Hph.
    + rewrite status_of_put, decide_True by done. by destruct o.
    + intros p Hne. by rewrite store_put, decide_False.
    + done.
Qed.

(** A task that is over stays as it is. *)
Lemma changes_over s ev s' p c :
  wf s → changes s ev s' →
  store s !! p = Some c → cell_phase c = Over → store s' !! p = Some c.
Proof.
  intros Hwf Hch Hc Hph.
  destruct (changes_status s ev s' Hwf Hch) as (r & c' & Hc' & Hne & _ & Hsame & _).
  rewrite Hsame; [done|]. intros ->. congruence.
Qed.

Lemma success_is_over s p :
  wf s → status_of s p = Some success →
  ∃ c, store s !! p = Some c ∧ cell_phase c = Over ∧ status (cell_task c) = success.
Proof.
  intros Hwf Hs. unfold status_of, task_of in Hs.
  destruct (store s !! p) as [c|] eqn:Hc; [|done]. injection Hs as Hs.
  exists c. split; [done|]. split; [|done].
  specialize (Hwf p c Hc). unfold cell_ok in Hwf.
  destruct (cell_phase c); [|  | |done]; destruct Hwf as (? & _); congruence.
Qed.

Lemma changes_success s ev s' p :
  wf s → changes s ev s' →
  status_of s p = Some success → status_of s' p = Some success.
Proof.
  intros Hwf Hch (c & Hc & Hph & Hs)%success_is_over; [|done].
  unfold status_of, task_of. rewrite (changes_over s ev s' p c); try done.
  simpl. by rewrite Hs.
Qed.

(** *** The calls of the executor *)

Lemma init_NotCalled r c : store init !! r = Some c → cell_phase c = NotCalled.
Proof.
  intros Hc. unfold Scheduler.init in Hc. simpl in Hc.
  apply elem_of_list_to_map_2 in Hc. unfold init_cells in Hc.
  apply list_elem_of_join in Hc as (l & Hin & Hl).
  apply list_elem_of_fmap in Hl as ([ns jobs] & -> & _).
  by apply elem_of_lookup_imap in Hin as (ix & job & [= -> ->] & _).
Qed.

Lemma deploys_ok_init : deploys_ok dag init.
Proof.
  split_and!.
  - apply NoDup_nil_2.
  - intros r []%elem_of_nil.
  - intros r c Hc. unfold deploy_ok. by rewrite (init_NotCalled r c Hc).
Qed.

Lemma deploys_ok_changes s ev s' :
  reached dag s → deploys_ok dag s → changes s ev s' → deploys_ok dag s'.
Proof.
  intros (Hwf & _) (Hnd & Hjobs & Hok) Hch.
  destruct Hch as [r c job Hnext Hlt Hc Hjob|r c job ps Hc Hjob Hph Hex
                  |r c job ps Hc Hjob Hph Hex Hall|r c o Hc Hph].
  - split_and!; [done..|]. intros r' c'. rewrite store_put.
    case_decide as Hr; [by intros [= <-]|apply Hok].
  - split_and!; [done..|]. intros r' c'. rewrite store_put.
    case_decide as Hr; [|apply Hok].
    intros [= <-]. unfold deploy_ok. simpl. right. split; [done|]. by eexists.
  - pose proof (Hwf r c Hc) as Hcell. unfold cell_ok in Hcell. rewrite Hph in Hcell.
    destruct Hcell as (_ & _ & Hnew). simpl. split_and!.
    + apply NoDup_app. split_and!; [done| |apply NoDup_singleton].
      intros x Hx ->%list_elem_of_singleton. done.
    + intros r' [?| ->%list_elem_of_singleton]%elem_of_app; [by apply Hjobs|].
      by eexists.
    + intros r' c'. simpl. rewrite lookup_insert. case_decide as Hr.
      * intros [= <-]. unfold deploy_ok. simpl. subst r'.
        rewrite elem_of_app, list_elem_of_singleton. auto.
      * intros Hc'. specialize (Hok r' c' Hc'). unfold deploy_ok in *. simpl.
        destruct (cell_phase c'); [done|done| |];
          rewrite elem_of_app; tauto.
  - split_and!; [done..|]. intros r' c'. rewrite store_put.
    case_decide as Hr; [|apply Hok].
    intros [= <-]. unfold deploy_ok. simpl. left. subst r'.
    specialize (Hok r c Hc). unfold deploy_ok in Hok. by rewrite Hph in Hok.
Qed.

Lemma deploys_ok_steps evs s : steps init evs = Some s → deploys_ok dag s.
Proof.
  apply (steps_invariant (deploys_ok dag)); [apply deploys_ok_init|].
  apply deploys_ok_changes.
Qed.

(** In no run is [deployBigQueryResouce] called twice for one task. *)
Theorem deployed_at_most_once evs s :
  steps init evs = Some s → NoDup (deployed s).
Proof. by intros (Hnd & _)%deploys_ok_steps. Qed.

(** In every run, a task that ends as [success] is a task for which
    [deployBigQueryResouce] was called, and a task that ends as [failed]
    without such a call holds the text of a suspended task. *)
Theorem success_is_deployed evs s r :
  steps init evs = Some s →
  (status_of s r = Some success → r ∈ deployed s) ∧
  (status_of s r = Some failed → r ∉ deployed s →
   ∃ t, task_of s r = Some t ∧ suspended_text (error t)).
Proof.
  intros Hsteps. pose proof (deploys_ok_steps evs s Hsteps) as (_ & _ & Hok).
  pose proof (wf_steps dag concurrency _ _ _ (wf_init dag task_name) Hsteps) as Hwf.
  unfold status_of, task_of.
  destruct (store s !! r) as [c|] eqn:Hc; simpl; [|done].
  specialize (Hok r c Hc). specialize (Hwf r c Hc).
  unfold deploy_ok in Hok. unfold cell_ok in Hwf.
  destruct (cell_phase c).
  - destruct Hwf as (Hs & _). rewrite Hs. done.
  - destruct Hwf as (Hs & _). rewrite Hs. done.
  - destruct Hwf as (Hs & _). rewrite Hs. done.
  - split.
    + intros [= Hs]. destruct Hok as [?|[? _]]; [done|congruence].
    + intros _ Hnd. destruct Hok as [?|[_ ?]]; [done|]. by exists (cell_task c).
Qed.

(** *** The order of the calls of the executor *)

Lemma deploys_in_order_changes s ev s' :
  reached dag s → deploys_in_order dag s → changes s ev s' → deploys_in_order dag s'.
Proof.
  intros (Hwf & _ & _ & Hcomplete) Hord Hch r' job' p Hr' Hjob' Hp Hbefore.
  assert (r' ∈ deployed s → status_of s' p = Some success) as Hold.
  { intros Hin. eapply changes_success; [done..|]. by eapply Hord. }
  destruct Hch as [r c job Hnext Hlt Hc Hjob|r c job ps Hc Hjob Hph Hex
                  |r c job ps Hc Hjob Hph Hex Hall|r c o Hc Hph];
    try (by apply Hold).
  simpl in Hr'. apply elem_of_app in Hr' as [?|Hr']; [by apply Hold|].
  apply list_elem_of_singleton in Hr' as ->.
  rewrite Hjob in Hjob'. injection Hjob' as <-.
  apply (changes_success s (Wake r)); [done|by apply changes_deploy with job ps|].
  apply fulfilled_is_success; [done|].
  rewrite forallb_forall in Hall. apply Hall, list_elem_of_In.
  by eapply Hcomplete.
Qed.

Lemma deploys_in_order_steps evs s :
  steps init evs = Some s → deploys_in_order dag s.
Proof.
  apply (steps_invariant (deploys_in_order dag)).
  - intros r job p []%elem_of_nil.
  - apply deploys_in_order_changes.
Qed.

Lemma all_tasks_app (d1 d2 : Dag) :
  all_tasks (d1 ++ d2) = all_tasks d1 ++ all_tasks d2.
Proof. unfold all_tasks. by rewrite fmap_app, join_app. Qed.

Lemma all_tasks_cons ns jobs (d : Dag) :
  all_tasks ((ns, jobs) :: d) = refs_of ns jobs ++ all_tasks d.
Proof. done. Qed.

Lemma elem_of_all_tasks (d : Dag) ns ix :
  (ns, ix) ∈ all_tasks d → ns ∈ d.*1.
Proof.
  unfold all_tasks. intros (l & Hin & Hl)%list_elem_of_join.
  apply list_elem_of_fmap in Hl as ([ns' jobs] & -> & Hd).
  unfold refs_of in Hin. apply list_elem_of_fmap in Hin as (i & [= -> ->] & _).
  apply list_elem_of_fmap. by exists (ns', jobs).
Qed.

Lemma DAG_get_split (d : Dag) ns jobs :
  DAG_get d ns = Some jobs →
  ∃ d1 d2, d = d1 ++ (ns, jobs) :: d2 ∧ ns ∉ d1.*1.
Proof.
  induction d as [|[k js] d IH]; [done|]. simpl.
  destruct (decide (k = ns)) as [->|Hne].
  - intros [= ->]. exists [], d. split; [done|]. apply not_elem_of_nil.
  - intros (d1 & d2 & -> & Hd1)%IH. exists ((k, js) :: d1), d2. split; [done|].
    simpl. rewrite not_elem_of_cons. auto.
Qed.

Lemma DAG_get_app (d1 d2 : Dag) ns :
  ns ∉ d1.*1 → DAG_get (d1 ++ d2) ns = DAG_get d2 ns.
Proof.
  induction d1 as [|[k js] d1 IH]; [done|]. simpl.
  rewrite not_elem_of_cons. intros [Hne Hd1]. rewrite decide_False by done. auto.
Qed.

Lemma DAG_get_app_l (d1 d2 : Dag) ns :
  ns ∈ d1.*1 → DAG_get (d1 ++ d2) ns = DAG_get d1 ns.
Proof.
  induction d1 as [|[k js] d1 IH]; [by intros []%elem_of_nil|]. simpl.
  destruct (decide (k = ns)); [done|].
  rewrite elem_of_cons. intros [?|?]; [congruence|auto].
Qed.

Lemma refs_of_split ns (jobs : list BigQueryJobResource) ix :
  (ix < length jobs)%nat →
  refs_of ns jobs =
    take ix (refs_of ns jobs) ++ (ns, ix) :: drop (S ix) (refs_of ns jobs).
Proof.
  intros Hlt. symmetry. apply take_drop_middle.
  unfold refs_of. rewrite list_lookup_fmap, lookup_seq_lt by done. done.
Qed.

Lemma elem_of_take_refs_of ns (jobs : list BigQueryJobResource) ix p :
  p ∈ take ix (refs_of ns jobs) ↔ ∃ j, p = (ns, j) ∧ (j < ix)%nat ∧ (j < length jobs)%nat.
Proof.
  unfold refs_of. rewrite <- fmap_take, take_seq, list_elem_of_fmap.
  split.
  - intros (j & -> & Hj). exists j. apply elem_of_seq in Hj. split; [done|lia].
  - intros (j & -> & ? & ?). exists j. split; [done|]. apply elem_of_seq. lia.
Qed.

Lemma first_key_unique (d1 d1' d2 d2' : Dag) k js js' :
  d1 ++ (k, js) :: d2 = d1' ++ (k, js') :: d2' →
  k ∉ d1.*1 → k ∉ d1'.*1 → d1 = d1'.
Proof.
  revert d1'. induction d1 as [|[a b] d1 IH]; intros [|[a' b'] d1']; simpl;
    intros Heq; inversion Heq; subst; rewrite ?not_elem_of_cons;
    [done|tauto|tauto|].
  intros [_ ?] [_ ?]. f_equal. by apply IH.
Qed.

(** Where a task stands in the list given to the limiter, when its name
    space is a key of the [DAG] map: behind the tasks of the keys before
    its own and the tasks of its own name space with a smaller index. *)
Lemma task_position r job :
  job_of dag r = Some job →
  ∃ d1 jobs d2,
    dag = d1 ++ (r.1, jobs) :: d2 ∧ (r.1 ∉ d1.*1) ∧ jobs !! r.2 = Some job ∧
    tasks_of dag r.1 = refs_of r.1 jobs ∧
    all_tasks dag =
      (all_tasks d1 ++ take r.2 (refs_of r.1 jobs)) ++
      r :: (drop (S r.2) (refs_of r.1 jobs) ++ all_tasks d2) ∧
    r ∉ all_tasks d1 ++ take r.2 (refs_of r.1 jobs).
Proof.
  destruct r as [ns ix]. unfold job_of, tasks_of. simpl.
  destruct (DAG_get dag ns) as [jobs|] eqn:Hget; [|done]. simpl. intros Hjob.
  destruct (DAG_get_split dag ns jobs Hget) as (d1 & d2 & Hdag & Hd1).
  exists d1, jobs, d2. split_and!; [done..| |].
  - rewrite Hdag, all_tasks_app, all_tasks_cons.
    rewrite (refs_of_split ns jobs ix) at 1 by (by eapply lookup_lt_Some).
    by rewrite <- !app_assoc.
  - rewrite elem_of_app. intros [Hin|Hin].
    + by apply elem_of_all_tasks in Hin.
    + apply elem_of_take_refs_of in Hin as (j & [= <-] & ? & _). lia.
Qed.

(** In every run, a task for which [deployBigQueryResouce] has been
    called comes after the tasks of its own name space that have a
    smaller index: these have all ended as [success]. *)
Theorem deployed_in_directory_order evs s ns ix j :
  steps init evs = Some s →
  (ns, ix) ∈ deployed s → (j < ix)%nat →
  status_of s (ns, j) = Some success.
Proof.
  intros Hsteps Hdep Hlt.
  pose proof (deploys_ok_steps evs s Hsteps) as (_ & Hjobs & _).
  destruct (Hjobs _ Hdep) as [job Hjob].
  destruct (task_position (ns, ix) job Hjob)
    as (d1 & jobs & d2 & Hdag & Hd1 & Hix & Htasks & Hall & Hnot).
  simpl in *.
  assert ((ns, j) ∈ take ix (refs_of ns jobs)) as Hin.
  { apply elem_of_take_refs_of. exists j. split_and!; [done..|].
    apply lookup_lt_Some in Hix. lia. }
  apply (deploys_in_order_steps evs s Hsteps (ns, ix) job); [done..| |].
  - unfold predecessors. simpl. rewrite Htasks, elem_of_app. by right.
  - eexists _, _. split; [exact Hall|]. split; [|done].
    rewrite elem_of_app. by right.
Qed.

Lemma after_sorted_dependency evs s r job d d1 jobs d2 p :
  steps init evs = Some s →
  r ∈ deployed s → job_of dag r = Some job → d ∈ dependencies job →
  dag = d1 ++ (r.1, jobs) :: d2 → r.1 ∉ d1.*1 → d ∈ d1.*1 →
  p ∈ tasks_of dag d →
  status_of s p = Some success.
Proof.
  intros Hsteps Hdep Hjob Hd Hdag Hd1 Hin Hp.
  destruct (task_position r job Hjob)
    as (d1' & jobs' & d2' & Hdag' & Hd1' & Hix & Htasks & Hall & Hnot).
  assert (d1' = d1) as ->.
  { rewrite Hdag in Hdag'. symmetry. by eapply first_key_unique. }
  apply (deploys_in_order_steps evs s Hsteps r job); [done..| |].
  - unfold predecessors. rewrite elem_of_app. left.
    apply list_elem_of_bind. by exists d.
  - eexists _, _. split; [exact Hall|]. split; [|done].
    rewrite elem_of_app. left.
    unfold tasks_of in Hp. rewrite Hdag, DAG_get_app_l in Hp by done.
    destruct (DAG_get d1 d) as [jobs_d|] eqn:Hget; [|by apply elem_of_nil in Hp].
    destruct (DAG_get_split d1 d jobs_d Hget) as (e1 & e2 & -> & _).
    rewrite all_tasks_app, all_tasks_cons, !elem_of_app. auto.
Qed.

(** In every run, a task for which [deployBigQueryResouce] has been
    called comes after the tasks of every name space that is one of the
    dependencies of its job and a key of the [DAG] map before its own:
    these have all ended as [success]. *)
Theorem deployed_after_sorted_dependency evs s r job d d1 jobs d2 p :
  steps init evs = Some s →
  r ∈ deployed s → job_of dag r = Some job → d ∈ dependencies job →
  dag = d1 ++ (r.1, jobs) :: d2 → r.1 ∉ d1.*1 → d ∈ d1.*1 →
  p ∈ tasks_of dag d →
  status_of s p = Some success.
Proof. apply after_sorted_dependency. Qed.

(** *** The run goes on until every task is over *)

Lemma all_tasks_NoDup (d : Dag) : NoDup d.*1 → NoDup (all_tasks d).
Proof.
  induction d as [|[ns jobs] d IH]; [intros _; apply NoDup_nil_2|].
  simpl. intros [Hns Hd]%NoDup_cons. rewrite all_tasks_cons.
  apply NoDup_app. split_and!.
  - unfold refs_of. apply NoDup_fmap_2; [|apply NoDup_seq].
    by intros i j [= ->].
  - intros [ns' ix] (i & [= -> ->] & _)%list_elem_of_fmap Hin.
    by apply elem_of_all_tasks in Hin.
  - by apply IH.
Qed.

Lemma DAG_get_elem (d : Dag) ns jobs :
  NoDup d.*1 → (ns, jobs) ∈ d → DAG_get d ns = Some jobs.
Proof.
  induction d as [|[k js] d IH]; [by intros _ []%elem_of_nil|].
  simpl. intros [Hk Hd]%NoDup_cons [[= -> ->]|Hin]%elem_of_cons.
  - by rewrite decide_True.
  - rewrite decide_False; [by apply IH|]. intros ->. apply Hk.
    apply list_elem_of_fmap. by exists (ns, jobs).
Qed.

Lemma not_pending_changes s ev s' p :
  wf s → changes s ev s' →
  status_of s p ≠ Some pending → status_of s' p ≠ Some pending.
Proof.
  intros Hwf Hch Hp.
  destruct (changes_status s ev s' Hwf Hch) as (r & c & _ & _ & Hr & Hsame & _).
  destruct (decide (p = r)) as [->|Hne]; [done|].
  unfold status_of, task_of in *. by rewrite Hsame.
Qed.

Lemma promise_not_pending s p :
  wf s → is_Some (promise_of s p) → status_of s p ≠ Some pending.
Proof.
  intros Hwf [pr Hpr]. unfold promise_of, status_of, task_of in *.
  destruct (store s !! p) as [c|] eqn:Hc; [|done]. simpl in *.
  specialize (Hwf p c Hc). unfold cell_ok in Hwf.
  destruct (cell_phase c).
  - destruct Hwf as (_ & Hn & _). congruence.
  - destruct Hwf as (Hs & _). rewrite Hs. done.
  - destruct Hwf as (Hs & _). rewrite Hs. done.
  - destruct Hwf as [(m & Hs & _)|(e & Hs & _)]; rewrite Hs; done.
Qed.

Lemma running_in_phase s r c :
  wf s → store s !! r = Some c →
  cell_phase c ≠ NotCalled → status_of s r ≠ Some pending.
Proof.
  intros Hwf Hc Hph. unfold status_of, task_of. rewrite Hc. simpl.
  specialize (Hwf r c Hc). unfold cell_ok in Hwf.
  destruct (cell_phase c); [done| | |].
  - destruct Hwf as (Hs & _). by rewrite Hs.
  - destruct Hwf as (Hs & _). by rewrite Hs.
  - destruct Hwf as [(m & Hs & _)|(e & Hs & _)]; by rewrite Hs.
Qed.

(** A change makes no task pending, and the one task that it may take
    out of the pending ones is the task that the limiter starts. *)
Lemma changes_pending s ev s' :
  wf s → changes s ev s' →
  (∀ p, status_of s' p = Some pending → status_of s p = Some pending) ∧
  ((∀ p, status_of s p = Some pending → status_of s' p = Some pending) ∨
   ∃ r, ev = Dispatch r ∧ next_in_queue dag s = Some r ∧
        ∀ p, p ≠ r → status_of s p = Some pending → status_of s' p = Some pending).
Proof.
  intros Hwf Hch.
  destruct (changes_status s ev s' Hwf Hch) as (r0 & c0 & Hc0 & _ & Hr0 & Hsame & _).
  split.
  { intros p Hp. destruct (decide (p = r0)) as [->|Hne]; [done|].
    unfold status_of, task_of in *. by rewrite <- Hsame. }
  assert (∀ r c, store s !! r = Some c → cell_phase c ≠ NotCalled →
                 (∀ p, p ≠ r → store s' !! p = store s !! p) →
                 ∀ p, status_of s p = Some pending → status_of s' p = Some pending)
    as Hkeep.
  { intros r c Hc Hph Hothers p Hp.
    destruct (decide (p = r)) as [->|Hne].
    - by destruct (running_in_phase s r c Hwf Hc Hph).
    - unfold status_of, task_of in *. by rewrite Hothers. }
  destruct Hch as [r c job Hnext Hlt Hc Hjob|r c job ps Hc Hjob Hph Hex
                  |r c job ps Hc Hjob Hph Hex Hall|r c o Hc Hph].
  - right. exists r. split_and!; [done..|]. intros p Hne Hp.
    by rewrite status_of_put, decide_False.
  - left. apply (Hkeep r c Hc); [by rewrite Hph|].
    intros p Hne. by rewrite store_put, decide_False.
  - left. apply (Hkeep r c Hc); [by rewrite Hph|].
    intros p Hne. simpl. by rewrite lookup_insert_ne.
  - left. apply (Hkeep r c Hc); [by rewrite Hph|].
    intros p Hne. by rewrite store_put, decide_False.
Qed.

(** A cell that awaits after a change awaited before it, or is the cell
    of the task that the limiter has started. *)
Lemma changes_awaiting s ev s' r c ps :
  changes s ev s' → store s' !! r = Some c → cell_phase c = Awaiting ps →
  store s !! r = Some c ∨
  ∃ job, ev = Dispatch r ∧ next_in_queue dag s = Some r ∧
         job_of dag r = Some job ∧ ps = awaited dag s r job.
Proof.
  intros Hch.
  destruct Hch as [r0 c0 job Hnext Hlt Hc0 Hjob|r0 c0 job ps0 Hc0 Hjob Hph0 Hex
                  |r0 c0 job ps0 Hc0 Hjob Hph0 Hex Hall|r0 c0 o Hc0 Hph0].
  - rewrite store_put. case_decide as Hr; [|by left].
    subst r0. intros [= <-] [= <-]. right. by exists job.
  - rewrite store_put. case_decide as Hr; [|by left]. by intros [= <-].
  - simpl. rewrite lookup_insert. case_decide as Hr; [|by left]. by intros [= <-].
  - rewrite store_put. case_decide as Hr; [|by left]. by intros [= <-].
Qed.

Section keys.

Hypothesis Hkeys : NoDup dag.*1.

Local Abbreviation queue_ok := (queue_ok dag).

Lemma init_cell r c :
  store init !! r = Some c →
  ∃ jobs job, (r.1, jobs) ∈ dag ∧ jobs !! r.2 = Some job ∧
              c = {| cell_task := new_Task (task_name job); cell_phase := NotCalled |}.
Proof.
  intros Hc. unfold Scheduler.init in Hc. simpl in Hc.
  apply elem_of_list_to_map_2 in Hc. unfold init_cells in Hc.
  apply list_elem_of_join in Hc as (l & Hin & Hl).
  apply list_elem_of_fmap in Hl as ([ns jobs] & -> & Hdag).
  apply elem_of_lookup_imap in Hin as (ix & job & [= -> ->] & Hix).
  by exists jobs, job.
Qed.

Lemma queue_ok_init : queue_ok init.
Proof.
  split_and!.
  - intros [ns ix] [c Hc]. destruct (init_cell _ _ Hc) as (jobs & job & Hdag & Hix & _).
    simpl in *. split.
    + unfold all_tasks. apply list_elem_of_join. exists (refs_of ns jobs). split.
      * unfold refs_of. apply list_elem_of_fmap. exists ix. split; [done|].
        apply elem_of_seq. apply lookup_lt_Some in Hix. lia.
      * apply list_elem_of_fmap. by exists (ns, jobs).
    + unfold job_of. simpl. rewrite (DAG_get_elem dag ns jobs) by done. simpl.
      by eexists.
  - intros l1 r l2 q Hall _ Hq.
    destruct (all_tasks_in_init dag task_name q) as [c Hc].
    { rewrite Hall, elem_of_app, elem_of_cons. auto. }
    unfold status_of, task_of. rewrite Hc. simpl.
    by destruct (init_cell _ _ Hc) as (jobs & job & _ & _ & ->).
  - intros r c ps l1 l2 Hc Hph. by rewrite (init_NotCalled r c Hc) in Hph.
Qed.

Lemma queue_ok_changes s ev s' :
  reached dag s → queue_ok s → changes s ev s' → queue_ok s'.
Proof.
  intros (Hwf & Hdom & Hawait & _) (Hstore & Hfifo & Hearlier) Hch.
  pose proof (all_tasks_NoDup dag Hkeys) as Hnd.
  destruct (changes_pending s ev s' Hwf Hch) as [Hback Hforth].
  split_and!.
  - intros r Hr. apply Hstore.
    destruct (changes_status s ev s' Hwf Hch) as (r0 & c0 & Hc0 & _ & _ & Hsame & _).
    destruct (decide (r = r0)) as [->|Hne]; [by eexists|]. by rewrite <- Hsame.
  - intros l1 r l2 q Hall Hr Hq.
    pose proof (Hfifo l1 r l2 q Hall (Hback r Hr) Hq) as Hqs.
    destruct Hforth as [Hforth|(r0 & _ & Hnext & Hforth)]; [by apply Hforth|].
    destruct (decide (q = r0)) as [->|Hne]; [|by apply Hforth].
    exfalso. unfold next_in_queue in Hnext.
    apply fmap_Some in Hnext as ([i r'] & Hfind & Heq). simpl in Heq. subst r'.
    apply list_find_Some in Hfind as (Hi & _ & Hfirst).
    destruct (decide (i < length l1)%nat) as [Hlt'|Hge].
    + rewrite Hall, lookup_app_l in Hi by done.
      apply list_elem_of_lookup_2 in Hi.
      rewrite Hall in Hnd. apply NoDup_app in Hnd as (_ & Hdisj & _).
      apply (Hdisj r0 Hi). by right.
    + destruct (decide (i = length l1)) as [->|?].
      * rewrite Hall, list_lookup_middle in Hi by done. injection Hi as ->.
        rewrite Hall in Hnd. apply NoDup_app in Hnd as (_ & _ & Hnd).
        by apply NoDup_cons in Hnd as [Hnot _].
      * apply (Hfirst (length l1) r); [|lia|by apply Hback].
        rewrite Hall. by rewrite list_lookup_middle.
  - intros r c ps l1 l2 Hc Hph Hall p Hp.
    destruct (changes_awaiting s ev s' r c ps Hch Hc Hph)
      as [Hold|(job & _ & Hnext & Hjob & ->)].
    + destruct (Hearlier r c ps l1 l2 Hold Hph Hall p Hp) as [? ?].
      split; [done|by eapply not_pending_changes].
    + unfold awaited in Hp. apply list_elem_of_filter in Hp as [Hprom Hpred].
      pose proof (promise_not_pending s p Hwf Hprom) as Hnp.
      pose proof (next_in_queue_pending dag s r Hnext) as Hpend.
      assert (p ∈ all_tasks dag) as Hin.
      { apply Hstore. destruct Hprom as [pr Hpr].
        unfold promise_of, task_of in Hpr.
        destruct (store s !! p); [by eexists|done]. }
      split; [|by eapply not_pending_changes].
      rewrite Hall, elem_of_app, elem_of_cons in Hin.
      destruct Hin as [?|[->|Hin]]; [done|done|].
      by destruct (Hnp (Hfifo l1 r l2 p Hall Hpend Hin)).
Qed.

Lemma queue_ok_steps evs s : steps init evs = Some s → queue_ok s.
Proof.
  apply (steps_invariant queue_ok); [apply queue_ok_init|apply queue_ok_changes].
Qed.

(** Either something can happen, or every task of a first part of the
    queue is over or still pending. *)
Lemma waiting_or_over s l1 l2 :
  reached dag s → queue_ok s → all_tasks dag = l1 ++ l2 →
  (∃ ev s', step s ev = Some s') ∨
  Forall (λ p, status_of s p = Some pending ∨
               ∃ c, store s !! p = Some c ∧ cell_phase c = Over) l1.
Proof.
  intros (Hwf & Hdom & _) (Hstore & _ & Hearlier).
  revert l2. induction l1 as [|r l1 IH] using rev_ind; intros l2 Hall.
  { right. constructor. }
  rewrite <- app_assoc in Hall. simpl in Hall.
  destruct (IH _ Hall) as [?|Hl1]; [by left|].
  destruct (Hdom r) as [c Hc].
  { rewrite Hall, elem_of_app, elem_of_cons. auto. }
  destruct (Hstore r) as [_ [job Hjob]]; [by eexists|].
  pose proof (Hwf r c Hc) as Hok. unfold cell_ok in Hok.
  destruct (cell_phase c) as [|ps| |] eqn:Hph.
  - right. apply Forall_app. split; [done|]. constructor; [|constructor].
    left. unfold status_of, task_of. rewrite Hc. simpl. by destruct Hok as (-> & _).
  - left. exists (Wake r).
    destruct (existsb (is_rejected s) ps) eqn:Hex.
    { eexists. apply step_changes. by eapply changes_suspend. }
    eexists. apply step_changes. eapply changes_deploy; [done..|].
    apply forallb_forall. intros p Hp%list_elem_of_In.
    destruct (Hearlier r c ps l1 l2 Hc Hph Hall p Hp) as [Hin Hnp].
    rewrite Forall_forall in Hl1.
    destruct (Hl1 p Hin) as [?|(cp & Hcp & Hphp)]; [done|].
    pose proof (Hwf p cp Hcp) as Hokp. unfold cell_ok in Hokp. rewrite Hphp in Hokp.
    unfold is_fulfilled, promise_of, task_of. rewrite Hcp. simpl.
    destruct Hokp as [(m & _ & ->)|(e & _ & Hrej)]; [done|].
    exfalso. apply not_true_iff_false in Hex. apply Hex.
    apply existsb_exists. exists p. split; [by apply list_elem_of_In|].
    unfold is_rejected, promise_of, task_of. rewrite Hcp. simpl. by rewrite Hrej.
  - left. exists (Deployed r (Resolves None)). eexists.
    apply step_changes. by eapply changes_Deployed.
  - right. apply Forall_app. split; [done|]. constructor; [|constructor].
    right. by exists c.
Qed.

(** When the limiter lets at least one task run, a run is never stuck
    while a task is neither [success] nor [failed]: the limiter can start
    a task, or a closure that awaits can go on, or the executor can
    return for a task that it deploys. *)
Theorem run_goes_on evs s r :
  (0 < concurrency)%nat →
  steps init evs = Some s →
  r ∈ all_tasks dag →
  status_of s r ≠ Some success → status_of s r ≠ Some failed →
  ∃ ev s', step s ev = Some s'.
Proof.
  intros Hconc Hsteps Hr Hns Hnf.
  pose proof (reached_steps dag concurrency _ _ _ (reached_init dag task_name) Hsteps)
    as Hreach.
  pose proof (queue_ok_steps evs s Hsteps) as Hqueue.
  destruct (waiting_or_over s (all_tasks dag) [] Hreach Hqueue) as [?|Hall];
    [by rewrite app_nil_r|done|].
  destruct Hreach as (Hwf & Hdom & _). destruct Hqueue as (Hstore & _).
  rewrite Forall_forall in Hall.
  (* no task is running; [r] is not over, so that it is pending *)
  assert (status_of s r = Some pending) as Hpend.
  { destruct (Hall r Hr) as [?|(c & Hc & Hph)]; [done|].
    pose proof (Hwf r c Hc) as Hok. unfold cell_ok in Hok. rewrite Hph in Hok.
    unfold status_of, task_of in Hns, Hnf. rewrite Hc in Hns, Hnf. simpl in *.
    destruct Hok as [(m & Hs & _)|(e & Hs & _)]; rewrite Hs in *; done. }
  destruct (list_find_elem_of (λ p, status_of s p = Some pending) (all_tasks dag) r)
    as [[i q] Hfind]; [done..|].
  exists (Dispatch q).
  assert (next_in_queue dag s = Some q) as Hnext
    by (unfold next_in_queue; by rewrite Hfind).
  apply list_find_Some in Hfind as (Hq%list_elem_of_lookup_2 & _ & _).
  destruct (Hdom q Hq) as [c Hc].
  destruct (Hstore q) as [_ [job Hjob]]; [by eexists|].
  eexists. apply step_changes. eapply changes_Dispatch; [done| |done..].
  unfold under_way. rewrite filter_none; [done|].
  intros p Hp Hrun. destruct (Hall p Hp) as [?|(cp & Hcp & Hph)]; [congruence|].
  pose proof (Hwf p cp Hcp) as Hok. unfold cell_ok in Hok. rewrite Hph in Hok.
  unfold status_of, task_of in Hrun. rewrite Hcp in Hrun. simpl in Hrun.
  destruct Hok as [(m & Hs & _)|(e & Hs & _)]; congruence.
Qed.

(** *** Every run ends *)

Lemma sum_list_one_more {A} `{EqDecision A} (f g : A → nat) (l : list A) r :
  NoDup l → r ∈ l → (∀ p, p ≠ r → f p = g p) → (f r < g r)%nat →
  (sum_list (f <$> l) < sum_list (g <$> l))%nat.
Proof.
  intros Hnd Hr Hsame Hlt.
  induction l as [|a l IH]; [by apply elem_of_nil in Hr|].
  apply NoDup_cons in Hnd as [Ha Hnd]. csimpl.
  destruct (decide (a = r)) as [->|Hne].
  - assert (sum_list (f <$> l) = sum_list (g <$> l)) as ->; [|lia].
    f_equal. apply list_fmap_ext. intros i x Hx%list_elem_of_lookup_2.
    apply Hsame. by intros ->.
  - rewrite (Hsame a Hne). apply elem_of_cons in Hr as [?|Hr]; [done|].
    specialize (IH Hnd Hr). lia.
Qed.

Lemma progress_changes s ev s' :
  reached dag s → queue_ok s → changes s ev s' →
  (progress dag s < progress dag s')%nat.
Proof.
  intros (Hwf & _) (Hstore & _) Hch.
  pose proof (all_tasks_NoDup dag Hkeys) as Hnd.
  assert (∀ r c c', store s !! r = Some c →
            (∀ p, p ≠ r → store s' !! p = store s !! p) →
            store s' !! r = Some c' →
            (phase_rank (cell_phase c) < phase_rank (cell_phase c'))%nat →
            (progress dag s < progress dag s')%nat) as Hone.
  { intros r c c' Hc Hsame Hc' Hlt. unfold progress.
    apply (sum_list_one_more _ _ _ r); [done| | |].
    - apply Hstore. by eexists.
    - intros p Hne. unfold progress_of. by rewrite Hsame.
    - unfold progress_of. by rewrite Hc, Hc'. }
  destruct Hch as [r c job Hnext Hlt Hc Hjob|r c job ps Hc Hjob Hph Hex
                  |r c job ps Hc Hjob Hph Hex Hall|r c o Hc Hph].
  - apply next_in_queue_pending in Hnext.
    unfold status_of, task_of in Hnext. rewrite Hc in Hnext. injection Hnext as Hp.
    destruct (cell_ok_pending s r c (Hwf r c Hc) Hp) as [Hph _].
    eapply (Hone r c); [done| | |].
    + intros p Hne. by rewrite store_put, decide_False.
    + by rewrite store_put, decide_True.
    + rewrite Hph. simpl. lia.
  - eapply (Hone r c); [done| | |].
    + intros p Hne. by rewrite store_put, decide_False.
    + by rewrite store_put, decide_True.
    + rewrite Hph. simpl. lia.
  - eapply (Hone r c); [done| | |].
    + intros p Hne. simpl. by rewrite lookup_insert_ne.
    + simpl. by rewrite lookup_insert_eq.
    + rewrite Hph. simpl. lia.
  - eapply (Hone r c); [done| | |].
    + intros p Hne. by rewrite store_put, decide_False.
    + by rewrite store_put, decide_True.
    + rewrite Hph. simpl. lia.
Qed.

Lemma progress_steps evs s0 s :
  reached dag s0 → queue_ok s0 → steps s0 evs = Some s →
  (progress dag s0 + length evs ≤ progress dag s)%nat.
Proof.
  revert s0. induction evs as [|ev evs IH]; intros s0 Hreach Hqueue; simpl.
  - intros [= <-]. lia.
  - destruct (step s0 ev) as [s1|] eqn:Hs1; [|done]. simpl. intros Hsteps.
    pose proof Hs1 as Hch%step_changes.
    pose proof (progress_changes s0 ev s1 Hreach Hqueue Hch).
    specialize (IH s1 (reached_step dag concurrency _ _ _ Hreach Hs1)
                  (queue_ok_changes _ _ _ Hreach Hqueue Hch) Hsteps).
    lia.
Qed.

Lemma progress_le s : (progress dag s ≤ 3 * length (all_tasks dag))%nat.
Proof.
  unfold progress. induction (all_tasks dag) as [|r l IH]; csimpl; [lia|].
  assert (progress_of s r ≤ 3)%nat; [|lia].
  unfold progress_of. destruct (store s !! r) as [c|]; simpl; [|lia].
  destruct (cell_phase c); simpl; lia.
Qed.

(** Every run ends: no run is longer than three events for each task,
    one for the limiter that starts it, one for the closure that has
    awaited, one for the executor that returns. *)
Theorem run_is_bounded evs s :
  steps init evs = Some s →
  (length evs ≤ 3 * length (all_tasks dag))%nat.
Proof.
  intros Hsteps.
  pose proof (progress_steps evs init s (reached_init dag task_name)
                queue_ok_init Hsteps).
  pose proof (progress_le s). lia.
Qed.

End keys.

End run.

Local Abbreviation init_z_t := (init dag_z_t (task_name "/work" "bigquery" "p")).

Lemma deployed_at_most_once_witness :
  ∃ s, steps dag_z_t 8 init_z_t run_z_t = Some s ∧ NoDup (deployed s).
Proof.
  eexists. split; [vm_compute; reflexivity|].
  apply (deployed_at_most_once dag_z_t (task_name "/work" "bigquery" "p") 8 run_z_t).
  vm_compute. reflexivity.
Defined.

Lemma success_is_deployed_witness :
  ∃ s, steps dag_z_t 8 init_z_t run_z_t = Some s ∧
    (status_of s ("p.ds.z", 0%nat) = Some success → ("p.ds.z", 0%nat) ∈ deployed s) ∧
    (status_of s ("p.ds.z", 0%nat) = Some failed → ("p.ds.z", 0%nat) ∉ deployed s →
     ∃ t, task_of s ("p.ds.z", 0%nat) = Some t ∧ suspended_text (error t)).
Proof.
  eexists. split; [vm_compute; reflexivity|].
  apply (success_is_deployed dag_z_t (task_name "/work" "bigquery" "p") 8 run_z_t).
  vm_compute. reflexivity.
Defined.

Lemma deployed_in_directory_order_witness :
  ∃ s, steps dag_z_t 8 init_z_t run_z_t = Some s ∧
    ("p.ds.t", 1%nat) ∈ deployed s ∧
    status_of s ("p.ds.t", 0%nat) = Some success.
Proof.
  eexists. split; [vm_compute; reflexivity|]. split.
  - apply (bool_decide_unpack _). vm_compute. exact I.
  - apply (deployed_in_directory_order dag_z_t (task_name "/work" "bigquery" "p") 8 run_z_t
             _ "p.ds.t" 1 0).
    + vm_compute. reflexivity.
    + apply (bool_decide_unpack _). vm_compute. exact I.
    + lia.
Defined.

Lemma deployed_after_sorted_dependency_witness :
  ∃ s, steps dag_z_t 8 init_z_t run_z_t = Some s ∧
    ("p.ds.t", 0%nat) ∈ deployed s ∧
    status_of s ("p.ds.z", 0%nat) = Some success.
Proof.
  eexists. split; [vm_compute; reflexivity|]. split.
  - apply (bool_decide_unpack _). vm_compute. exact I.
  - apply (deployed_after_sorted_dependency dag_z_t (task_name "/work" "bigquery" "p") 8
             run_z_t _ ("p.ds.t", 0%nat) create_t "p.ds.z"
             [("p.ds.z", [create_z])] [create_t; check_t] []).
    + vm_compute. reflexivity.
    + apply (bool_decide_unpack _). vm_compute. exact I.
    + reflexivity.
    + apply (bool_decide_unpack _). vm_compute. exact I.
    + reflexivity.
    + apply (bool_decide_unpack _). vm_compute. exact I.
    + apply (bool_decide_unpack _). vm_compute. exact I.
    + apply (bool_decide_unpack _). vm_compute. exact I.
Defined.

Lemma run_goes_on_witness :
  ∃ s, steps dag_z_t 8 init_z_t run_z_t = Some s ∧
    ∃ ev s', step dag_z_t 8 s ev = Some s'.
Proof.
  eexists. split; [vm_compute; reflexivity|].
  apply (run_goes_on dag_z_t (task_name "/work" "bigquery" "p") 8) with run_z_t ("p.ds.t", 1%nat).
  - apply (bool_decide_unpack _). vm_compute. exact I.
  - lia.
  - vm_compute. reflexivity.
  - apply (bool_decide_unpack _). vm_compute. exact I.
  - vm_compute. discriminate.
  - vm_compute. discriminate.
Defined.

Lemma run_is_bounded_witness :
  (length run_z_t ≤ 3 * length (all_tasks dag_z_t))%nat.
Proof.
  apply (run_is_bounded dag_z_t (task_name "/work" "bigquery" "p") 8) with
    (s := default init_z_t (steps dag_z_t 8 init_z_t run_z_t)).
  - apply (bool_decide_unpack _). vm_compute. exact I.
  - vm_compute. reflexivity.
Defined.

End RunFacts.

(** ** The deploy executor, besides dry runs of views *)

Module ExecutorEdges.
Import TaskModel Effects Executor EffectsFacts Worlds ExecutorWorlds.

Section executor.

Context {W : Type}.
Variable answer : ∀ R, Call R → W → (Thrown + R) * W.
Variable path2bq : string → string → string → string.
Variable humanFileSize_parseInt : string → string.
Variable deploy_query :
  string → string → option Query → string → string → option string →
  Prog (option string).

Local Abbreviation deployBigQueryResouce :=
  (deployBigQueryResouce path2bq humanFileSize_parseInt deploy_query).

(** A file whose name does not end with [sql] is not deployed: the
    executor asks for the project and returns [undefined], without
    reading the file. *)
Theorem other_files_are_skipped rootPath p options :
  p ≠ "" → JsString.endsWith p "sql" = false →
  deployBigQueryResouce rootPath p options = await getProjectId (λ _, Ret None).
Proof.
  intros Hp Hsql. unfold Executor.deployBigQueryResouce.
  rewrite Hsql. rewrite bool_decide_eq_false_2 by done. done.
Qed.

(** The executor up to the text of the file, for a file that is
    deployed. *)
Lemma deploy_reads rootPath p options w defaultProjectId w1 :
  JsString.endsWith p "sql" = true →
  answer _ getProjectId w = (inr defaultProjectId, w1) →
  interp answer (deployBigQueryResouce rootPath p options) w =
    let parts := JsString.split "." (path2bq p rootPath defaultProjectId) in
    let '(r, w2) := answer _ (readFile p) w1 in
    let '(tr, o, w3) :=
      interp answer
        (match r with
         | inl err => Raise (Error (Some (JsString.dirname p +:+ ": " +:+ text_of err)))
         | inr body =>
             if falsy (parts !! 1%nat) then Raise (Error (Some "Invalid SchemaId"))
             else
               let schemaId := default "" (parts !! 1%nat) in
               if decide (JsString.basename p = "view.sql") then
                 if falsy (parts !! 2%nat) then Ret None
                 else
                   let tableId := default "" (parts !! 2%nat) in
                   if bool_decide (options ≫= dryRun = Some true) then
                     await (createQueryJob (view_job options schemaId tableId body))
                       (λ ret,
                          match totalBytesProcessed ret with
                          | Some bytes => Ret (Some (humanFileSize_parseInt bytes))
                          | None => create_view p schemaId tableId body
                          end)
                   else create_view p schemaId tableId body
               else deploy_query rootPath p options defaultProjectId schemaId
                                 (parts !! 2%nat)
         end) w2 in
    (Ev getProjectId :: Ev (readFile p) :: tr, o, w3).
Proof.
  intros Hsql Hpid. unfold Executor.deployBigQueryResouce.
  rewrite interp_await, Hpid, Hsql, andb_false_r. cbn zeta. cbn [interp].
  destruct (answer _ (readFile p) w1) as [r w2].
  by destruct (interp answer _ w2) as [[tr o] w3].
Qed.


(** A file whose path gives no data set: the executor reads the file and
    throws [Invalid SchemaId], and nothing is sent to the warehouse. *)
Theorem no_dataset_throws rootPath p options w defaultProjectId w1 body w2 :
  JsString.endsWith p "sql" = true →
  answer _ getProjectId w = (inr defaultProjectId, w1) →
  answer _ (readFile p) w1 = (inr body, w2) →
  falsy (JsString.split "." (path2bq p rootPath defaultProjectId) !! 1%nat) = true →
  interp answer (deployBigQueryResouce rootPath p options) w =
    ([Ev getProjectId; Ev (readFile p)],
     Threw (Error (Some "Invalid SchemaId")), w2).
Proof.
  intros Hsql Hpid Hread Hschema.
  rewrite (deploy_reads _ _ _ _ _ _ Hsql Hpid). cbn zeta. by rewrite Hread, Hschema.
Qed.

Lemma never_create_view bad p schemaId tableId body :
  bad (Ev (tableExists schemaId tableId)) = false →
  bad (Ev (tableGet schemaId tableId)) = false →
  bad (Ev (createTable schemaId tableId body)) = false →
  (∀ view, bad (Ev (syncMetadata view (JsString.dirname p) true)) = false) →
  never bad (create_view p schemaId tableId body).
Proof.
  intros H1 H2 H3 H4. unfold create_view.
  apply never_await; [done|]. intros isExist.
  apply never_await; [by destruct isExist|]. intros view.
  apply never_await; [done|]. intros _. constructor.
Qed.

(** Outside a dry run, deploying a file [view.sql] sends no query job,
    whatever the warehouse answers. *)
Theorem view_sends_no_query_job rootPath p options :
  JsString.basename p = "view.sql" →
  options ≫= dryRun ≠ Some true →
  never is_createQueryJob (deployBigQueryResouce rootPath p options).
Proof.
  intros Hbase Hdry. unfold Executor.deployBigQueryResouce.
  apply never_await; [done|]. intros defaultProjectId.
  destruct (_ && _); [constructor|]. cbn zeta.
  apply never_Perform; [done|]. intros [err|body]; [constructor|].
  destruct (falsy _); [constructor|].
  rewrite decide_True by done.
  destruct (falsy _); [constructor|].
  rewrite bool_decide_eq_false_2 by done.
  by apply never_create_view.
Qed.

(** Outside a dry run, when the table of a file [view.sql] exists, the
    executor fetches it and pushes the metadata of the directory: no
    table is created and no query job is sent, so that the text of the
    file reaches the warehouse in no call. *)
Theorem existing_view_is_kept rootPath p options w defaultProjectId w1
    schemaId tableId body w2 w3 :
  JsString.basename p = "view.sql" →
  options ≫= dryRun ≠ Some true →
  answer _ getProjectId w = (inr defaultProjectId, w1) →
  JsString.split "." (path2bq p rootPath defaultProjectId) !! 1%nat = Some schemaId →
  schemaId ≠ "" →
  JsString.split "." (path2bq p rootPath defaultProjectId) !! 2%nat = Some tableId →
  tableId ≠ "" →
  answer _ (readFile p) w1 = (inr body, w2) →
  answer _ (tableExists schemaId tableId) w2 = (inr true, w3) →
  take 4 (interp answer (deployBigQueryResouce rootPath p options) w).1.1 =
    [Ev getProjectId; Ev (readFile p); Ev (tableExists schemaId tableId);
     Ev (tableGet schemaId tableId)] ∧
  Forall (λ ev, is_createTable ev = false ∧ is_createQueryJob ev = false)
    (interp answer (deployBigQueryResouce rootPath p options) w).1.1.
Proof.
  intros Hbase Hdry Hpid Hschema Hschema_ne Hname Hname_ne Hread Hexists.
  rewrite (deploy_reads _ _ _ _ _ _
             (JsStringFacts.basename_endsWith p "view.sql" "sql" Hbase eq_refl) Hpid).
  cbn zeta. rewrite Hread, Hschema, Hname. unfold falsy.
  rewrite !bool_decide_eq_false_2 by done. rewrite decide_True by done.
  simpl default. unfold create_view. rewrite interp_await, Hexists.
  rewrite interp_await.
  destruct (answer _ (tableGet schemaId tableId) w3) as [[e|view] w4].
  { simpl. split; [done|]. repeat constructor. }
  rewrite interp_await.
  destruct (answer _ (syncMetadata view (JsString.dirname p) true) w4) as [[e|[]] w5];
    simpl; (split; [done|repeat constructor]).
Qed.

(** Outside a dry run, when the table of a file [view.sql] does not
    exist and the warehouse answers every call, the executor creates the
    table with the text of the file for its view, pushes the metadata of
    the directory, and returns [undefined]. *)
Theorem missing_view_is_created rootPath p options w defaultProjectId w1
    schemaId tableId body w2 w3 view w4 w5 :
  JsString.basename p = "view.sql" →
  options ≫= dryRun ≠ Some true →
  answer _ getProjectId w = (inr defaultProjectId, w1) →
  JsString.split "." (path2bq p rootPath defaultProjectId) !! 1%nat = Some schemaId →
  schemaId ≠ "" →
  JsString.split "." (path2bq p rootPath defaultProjectId) !! 2%nat = Some tableId →
  tableId ≠ "" →
  answer _ (readFile p) w1 = (inr body, w2) →
  answer _ (tableExists schemaId tableId) w2 = (inr false, w3) →
  answer _ (createTable schemaId tableId body) w3 = (inr view, w4) →
  answer _ (syncMetadata view (JsString.dirname p) true) w4 = (inr (), w5) →
  interp answer (deployBigQueryResouce rootPath p options) w =
    ([Ev getProjectId; Ev (readFile p); Ev (tableExists schemaId tableId);
      Ev (createTable schemaId tableId body);
      Ev (syncMetadata view (JsString.dirname p) true)],
     Returned None, w5).
Proof.
  intros Hbase Hdry Hpid Hschema Hschema_ne Hname Hname_ne Hread Hexists Hcreate Hsync.
  rewrite (deploy_reads _ _ _ _ _ _
             (JsStringFacts.basename_endsWith p "view.sql" "sql" Hbase eq_refl) Hpid).
  cbn zeta. rewrite Hread, Hschema, Hname. unfold falsy.
  rewrite !bool_decide_eq_false_2 by done. rewrite decide_True by done.
  simpl default. unfold create_view.
  by rewrite interp_await, Hexists, interp_await, Hcreate, interp_await, Hsync.
Qed.

End executor.

Local Abbreviation deploy :=
  (deployBigQueryResouce Identifiers.path2bq (λ b, b +:+ "B") no_query "bigquery").

Lemma other_files_are_skipped_witness :
  deploy a_readme None = await getProjectId (λ _, Ret None).
Proof.
  apply (other_files_are_skipped Identifiers.path2bq (λ b, b +:+ "B") no_query).
  - discriminate.
  - vm_compute. reflexivity.
Defined.


Lemma no_dataset_throws_witness :
  interp estimating (deploy a_project_file None) () =
    ([Ev getProjectId; Ev (readFile a_project_file)],
     Threw (Error (Some "Invalid SchemaId")), ()).
Proof.
  apply (no_dataset_throws estimating Identifiers.path2bq (λ b, b +:+ "B") no_query
           "bigquery" a_project_file None () "p" () "SELECT 1" ()).
  - vm_compute. reflexivity.
  - reflexivity.
  - reflexivity.
  - vm_compute. reflexivity.
Defined.

Lemma view_sends_no_query_job_witness :
  never is_createQueryJob (deploy a_view_file (Some for_real)).
Proof.
  apply (view_sends_no_query_job Identifiers.path2bq (λ b, b +:+ "B") no_query).
  - vm_compute. reflexivity.
  - discriminate.
Defined.

Lemma existing_view_is_kept_witness :
  take 4 (interp with_view (deploy a_view_file (Some for_real)) ()).1.1 =
    [Ev getProjectId; Ev (readFile a_view_file); Ev (tableExists "ds" "v");
     Ev (tableGet "ds" "v")] ∧
  Forall (λ ev, is_createTable ev = false ∧ is_createQueryJob ev = false)
    (interp with_view (deploy a_view_file (Some for_real)) ()).1.1.
Proof.
  apply (existing_view_is_kept with_view Identifiers.path2bq (λ b, b +:+ "B") no_query
           "bigquery" a_view_file (Some for_real) () "p" () "ds" "v" "SELECT 1" () ()).
  - vm_compute. reflexivity.
  - discriminate.
  - reflexivity.
  - vm_compute. reflexivity.
  - discriminate.
  - vm_compute. reflexivity.
  - discriminate.
  - reflexivity.
  - reflexivity.
Defined.

Lemma missing_view_is_created_witness :
  interp silent (deploy a_view_file (Some for_real)) () =
    ([Ev getProjectId; Ev (readFile a_view_file); Ev (tableExists "ds" "v");
      Ev (createTable "ds" "v" "SELECT 1");
      Ev (syncMetadata a_view (JsString.dirname a_view_file) true)],
     Returned None, ()).
Proof.
  apply (missing_view_is_created silent Identifiers.path2bq (λ b, b +:+ "B") no_query
           "bigquery" a_view_file (Some for_real) () "p" () "ds" "v" "SELECT 1" () ()
           a_view () ()).
  - vm_compute. reflexivity.
  - discriminate.
  - reflexivity.
  - vm_compute. reflexivity.
  - discriminate.
  - vm_compute. reflexivity.
  - discriminate.
  - reflexivity.
  - reflexivity.
  - reflexivity.
  - reflexivity.
Defined.

End ExecutorEdges.

(** ** The reconciliation planner, besides the deletions *)

Module CleanupMore.
Import TaskModel Effects Cleanup CleanupAll EffectsFacts Worlds CleanupFacts.

(** *** The operator is asked only when needed *)

Lemma never_prompt_emit nsProject datasetId dry force kinds acc :
  negb force && negb dry = false →
  never is_prompt (emit nsProject datasetId dry force kinds acc).
Proof.
  intros Hquiet. revert acc. induction kinds as [|kind kinds IH]; intros acc; simpl.
  - constructor.
  - destruct kind as [|[k first] kind]; [apply IH|]. rewrite Hquiet. apply IH.
Qed.

(** On a dry run, and with [withoutConrimation], the planner asks the
    operator nothing, whatever the warehouse answers; the options left
    out make a dry run. *)
Theorem cleanup_asks_only_for_real path2bq rootDir projectId datasetId options :
  isDryRun options = true ∨ isForce options = true →
  never is_prompt (cleanupBigQueryDataset path2bq rootDir projectId datasetId options).
Proof.
  intros Hquiet. unfold cleanupBigQueryDataset.
  apply never_await; [done|]. intros defaultProjectId.
  apply never_await; [done|]. intros found.
  destruct found; simpl negb; cbv iota; [|constructor].
  apply never_Perform; [done|]. intros [e|[]]; [constructor|].
  apply never_await; [done|]. intros rr.
  apply never_await; [done|]. intros mm.
  apply never_await; [done|]. intros tt.
  apply never_await; [done|]. intros paths.
  destruct (foldl _ _ _) as [[routines models] tables].
  apply never_prompt_emit. destruct Hquiet as [-> | ->]; [apply andb_false_r|done].
Qed.

Lemma cleanup_asks_only_for_real_witness :
  never is_prompt (cleanupBigQueryDataset Identifiers.path2bq "bigquery" "@default" "ds" None).
Proof.
  apply cleanup_asks_only_for_real. left. reflexivity.
Defined.

(** *** The loop over the data sets *)

Lemma interp_bind {W} (answer : ∀ R, Call R → W → (Thrown + R) * W)
    {A B} (p : Prog A) (k : A → Prog B) w :
  interp answer (bind p k) w =
    let '(tr, o, w1) := interp answer p w in
    match o with
    | Returned a =>
        let '(tr', o', w2) := interp answer (k a) w1 in (tr ++ tr', o', w2)
    | Threw e => (tr, Threw e, w1)
    end.
Proof.
  revert w. induction p as [a|e|line p IH|R c k' IH]; intros w; simpl.
  - by destruct (interp answer (k a) w) as [[tr' o'] w2].
  - done.
  - rewrite IH. destruct (interp answer p w) as [[tr o] w1].
    destruct o as [a|e]; [|done].
    by destruct (interp answer (k a) w1) as [[tr' o'] w2].
  - destruct (answer R c w) as [r w1]. rewrite IH.
    destruct (interp answer (k' r) w1) as [[tr o] w2].
    destruct o as [a|e]; [|done].
    by destruct (interp answer (k a) w2) as [[tr' o'] w3].
Qed.

Lemma interp_try_catch {W} (answer : ∀ R, Call R → W → (Thrown + R) * W)
    {A} (p : Prog A) (h : Thrown → Prog A) w :
  interp answer (try_catch p h) w =
    let '(tr, o, w1) := interp answer p w in
    match o with
    | Returned a => (tr, Returned a, w1)
    | Threw e =>
        let '(tr', o', w2) := interp answer (h e) w1 in (tr ++ tr', o', w2)
    end.
Proof.
  revert w. induction p as [a|e|line p IH|R c k' IH]; intros w; simpl.
  - done.
  - by destruct (interp answer (h e) w) as [[tr' o'] w2].
  - rewrite IH. destruct (interp answer p w) as [[tr o] w1].
    destruct o as [a|e]; [done|].
    by destruct (interp answer (h e) w1) as [[tr' o'] w2].
  - destruct (answer R c w) as [r w1]. rewrite IH.
    destruct (interp answer (k' r) w1) as [[tr o] w2].
    destruct o as [a|e]; [done|].
    by destruct (interp answer (h e) w2) as [[tr' o'] w3].
Qed.

Lemma never_bind bad {A B} (p : Prog A) (k : A → Prog B) :
  never bad p → (∀ a, never bad (k a)) → never bad (bind p k).
Proof.
  intros Hp Hk. induction Hp; simpl; [apply Hk|constructor..]; auto.
Qed.

Lemma never_try_catch bad {A} (p : Prog A) (h : Thrown → Prog A) :
  never bad p → (∀ e, never bad (h e)) → never bad (try_catch p h).
Proof.
  intros Hp Hh. induction Hp; simpl; [constructor|apply Hh|constructor..]; auto.
Qed.

Section all.

Context {W : Type}.
Variable answer : ∀ R, Call R → W → (Thrown + R) * W.
Variable path2bq : string → string → string → string.
Variable inspect : Thrown → string.

Local Abbreviation createCleanupTasks := (createCleanupTasks path2bq inspect).

Lemma createCleanupTasks_cons ctx dataset datasets acc :
  createCleanupTasks ctx (dataset :: datasets) acc =
    bind
      (try_catch
         (cleanupBigQueryDataset path2bq (ctx_rootPath ctx) (ctx_projectId ctx)
            (JsString.basename dataset)
            (Some {| dryRun := Some (ctx_dryRun ctx);
                     withoutConrimation := ctx_force ctx |}))
         (λ e, Print (inspect e) (Ret [])))
      (λ deleteTasks, createCleanupTasks ctx datasets (acc ++ deleteTasks)).
Proof. done. Qed.

(** [createCleanupTasks] returns, whatever the file system and the
    warehouse answer for the data sets, and what it returns begins with
    the tasks gathered before.  For each data set the reconciliation is
    run in the world that the data sets before it have left: when it
    throws, the error is printed, no task is added, and the loop goes on
    with the next data set; when it returns, its tasks are added.  Every
    task that is added is the deletion of one remote object, dry when
    the context is; and planning deletes nothing. *)
Theorem createCleanupTasks_returns ctx datasets :
  let one := λ dataset,
    cleanupBigQueryDataset path2bq (ctx_rootPath ctx) (ctx_projectId ctx)
      (JsString.basename dataset)
      (Some {| dryRun := Some (ctx_dryRun ctx);
               withoutConrimation := ctx_force ctx |}) in
  (∀ acc w, ∃ more,
     (interp answer (createCleanupTasks ctx datasets acc) w).1.2
       = Returned (acc ++ more) ∧
     Forall (λ t, ∃ bqId resource,
               task_job t = deletion_job (ctx_dryRun ctx) bqId resource) more) ∧
  never is_delete (createCleanupTasks ctx datasets []) ∧
  (∀ dataset acc w tr e w1,
     interp answer (one dataset) w = (tr, Threw e, w1) →
     interp answer (createCleanupTasks ctx (dataset :: datasets) acc) w =
       let '(tr', o, w2) := interp answer (createCleanupTasks ctx datasets acc) w1 in
       (tr ++ Printed (inspect e) :: tr', o, w2)) ∧
  (∀ dataset acc w tr deleteTasks w1,
     interp answer (one dataset) w = (tr, Returned deleteTasks, w1) →
     interp answer (createCleanupTasks ctx (dataset :: datasets) acc) w =
       let '(tr', o, w2) :=
         interp answer (createCleanupTasks ctx datasets (acc ++ deleteTasks)) w1 in
       (tr ++ tr', o, w2)).
Proof.
  intros one.
  set (P := λ t : DeletionTask,
              ∃ bqId resource, task_job t = deletion_job (ctx_dryRun ctx) bqId resource).
  assert (∀ dataset acc w,
    interp answer (createCleanupTasks ctx (dataset :: datasets) acc) w =
      let '(tr, o, w1) := interp answer (one dataset) w in
      match o with
      | Returned deleteTasks =>
          let '(tr', o', w2) :=
            interp answer (createCleanupTasks ctx datasets (acc ++ deleteTasks)) w1 in
          (tr ++ tr', o', w2)
      | Threw e =>
          let '(tr', o', w2) := interp answer (createCleanupTasks ctx datasets acc) w1 in
          (tr ++ Printed (inspect e) :: tr', o', w2)
      end) as Hcons.
  { intros dataset acc w.
    rewrite createCleanupTasks_cons, interp_bind, interp_try_catch. fold (one dataset).
    destruct (interp answer (one dataset) w) as [[tr [deleteTasks|e]] w1]; simpl.
    - by destruct (interp answer (createCleanupTasks ctx datasets _) w1) as [[tr' o'] w2].
    - rewrite app_nil_r.
      destruct (interp answer (createCleanupTasks ctx datasets acc) w1) as [[tr' o'] w2].
      by rewrite <- app_assoc. }
  split_and!.
  - clear Hcons. induction datasets as [|dataset datasets' IH]; intros acc w.
    + exists []. split; [by rewrite app_nil_r|constructor].
    + rewrite createCleanupTasks_cons, interp_bind, interp_try_catch.
      pose proof (cleanup_tasks answer path2bq (ctx_rootPath ctx) (ctx_projectId ctx)
                    (JsString.basename dataset)
                    (Some {| dryRun := Some (ctx_dryRun ctx);
                             withoutConrimation := ctx_force ctx |}) P w) as Hone.
      destruct (interp answer (cleanupBigQueryDataset _ _ _ _ _) w)
        as [[tr [deleteTasks|e]] w1]; simpl in *.
      * destruct (IH (acc ++ deleteTasks) w1) as (more & Hrun & Hmore).
        exists (deleteTasks ++ more). rewrite app_assoc. split.
        -- destruct (interp answer (createCleanupTasks ctx datasets' _) w1)
             as [[tr' o'] w2]. done.
        -- apply Forall_app. split; [|done]. apply Hone; [|done].
           intros nsProject resourceType e. by eexists _, _.
      * rewrite app_nil_r. destruct (IH acc w1) as (more & Hrun & Hmore).
        exists more. split; [|done].
        destruct (interp answer (createCleanupTasks ctx datasets' _) w1)
          as [[tr' o'] w2]. done.
  - clear Hcons. generalize (@nil DeletionTask).
    induction datasets as [|dataset datasets' IH]; intros acc; [constructor|].
    rewrite createCleanupTasks_cons.
    apply never_bind; [|intros a; apply IH].
    apply never_try_catch; [apply never_cleanup|]. intros e. repeat constructor.
  - intros dataset acc w tr e w1 Hone. by rewrite Hcons, Hone.
  - intros dataset acc w tr deleteTasks w1 Hone. by rewrite Hcons, Hone.
Qed.

End all.

(** The first data set is reached while the warehouse is down: its error
    is printed, and the task of the second data set is returned. *)
Example createCleanupTasks_goes_on :
  interp waking
    (createCleanupTasks Identifiers.path2bq (λ _, "error") ctx_q ["a"; "ds"] []) true =
  ([Ev getProjectId; Printed "error"; Ev getProjectId;
    Ev (existsSync "bigquery/q/ds"); Ev (datasetGet "ds" "q");
    Ev (getRoutines "ds"); Ev (getModels "ds"); Ev (getTables "ds");
    Ev (walk "bigquery/q/ds")],
   Returned (tasks_for "q" "ds" true (map_of [t1])), false).
Proof. vm_compute. reflexivity. Qed.

(** *** What is left to delete *)

Section forget.

Variable path2bq : string → string → string → string.
Variables (rootDir defaultProjectId : string).

Local Abbreviation forget_local := (forget_local path2bq rootDir defaultProjectId).

Lemma has_delete m k k' : has (delete m k) k' = true → has m k' = true ∧ k' ≠ k.
Proof.
  unfold has, delete. rewrite !bool_decide_eq_true.
  intros ([a b] & -> & [Hne Hin]%list_elem_of_filter)%list_elem_of_fmap. split.
  - apply list_elem_of_fmap. by exists (a, b).
  - done.
Qed.

(** Taking out the entries with a local path adds no entry to a map. *)
Lemma forget_local_shrinks maps f k :
  (has (forget_local maps f).1.1 k = true → has maps.1.1 k = true) ∧
  (has (forget_local maps f).1.2 k = true → has maps.1.2 k = true) ∧
  (has (forget_local maps f).2 k = true → has maps.2 k = true).
Proof.
  destruct maps as [[routines models] tables]. unfold Cleanup.forget_local.
  repeat (destruct (_ && _) || destruct (has tables _)); simpl;
    split_and!; try done; by intros [? _]%has_delete.
Qed.

Lemma forget_all_shrinks files maps k :
  has (foldl forget_local maps files).2 k = true → has maps.2 k = true.
Proof.
  revert maps. induction files as [|f files IH]; intros maps; simpl; [done|].
  intros Hk%IH. by apply forget_local_shrinks in Hk.
Qed.

(** A table with a local file is not deleted: after the walk, the map of
    the tables holds no entry for the identifier of a file whose path
    holds [@default] and neither [@routine] nor [@model]. *)
Theorem local_table_is_kept maps paths f :
  f ∈ paths →
  JsString.includes f "@default" = true →
  JsString.includes f "@routine" = false →
  JsString.includes f "@model" = false →
  has (foldl forget_local maps
         (filter (λ p, JsString.includes p "@default" = true) paths)).2
      (path2bq f rootDir defaultProjectId) = false.
Proof.
  intros Hf Hdefault Hroutine Hmodel.
  assert (f ∈ filter (λ p, JsString.includes p "@default" = true) paths) as Hin
    by (by apply list_elem_of_filter).
  clear Hf. revert maps Hin.
  induction (filter _ paths) as [|f' files IH]; intros maps Hin;
    [by apply elem_of_nil in Hin|].
  simpl. apply elem_of_cons in Hin as [<-|Hin]; [|by apply IH].
  apply not_true_is_false. intros Hk%forget_all_shrinks.
  destruct maps as [[routines models] tables]. unfold Cleanup.forget_local in Hk.
  rewrite Hroutine, Hmodel in Hk. simpl in Hk.
  destruct (has tables _) eqn:Htables; simpl in Hk; [|congruence].
  by apply has_delete in Hk as [_ Hne].
Qed.

End forget.

Lemma local_table_is_kept_witness :
  has (foldl (forget_local Identifiers.path2bq "bigquery" "p")
         ([], [], map_of [a_view])
         (filter (λ p, JsString.includes p "@default" = true) [a_view_file])).2
      (Identifiers.path2bq a_view_file "bigquery" "p") = false.
Proof.
  apply (local_table_is_kept Identifiers.path2bq "bigquery" "p").
  - left.
  - vm_compute. reflexivity.
  - vm_compute. reflexivity.
  - vm_compute. reflexivity.
Defined.

(** *** A project directory other than [@default] *)

Lemma emit_quiet nsProject datasetId dry force kinds acc :
  negb force && negb dry = false →
  emit nsProject datasetId dry force kinds acc =
    Ret (acc ++ mjoin (tasks_for nsProject datasetId dry <$> kinds)).
Proof.
  intros Hquiet. revert acc. induction kinds as [|kind kinds IH]; intros acc; simpl.
  - by rewrite app_nil_r.
  - destruct kind as [|[k first] kind]; [by rewrite IH|].
    rewrite Hquiet, IH. by rewrite <- app_assoc.
Qed.

Section whole.

Context {W : Type}.
Variable answer : ∀ R, Call R → W → (Thrown + R) * W.
Variable path2bq : string → string → string → string.

(** When no path under the directory of the data set holds [@default],
    as under the directory of a project that is named, no local file
    keeps a remote object: on a dry run, and with [withoutConrimation],
    the planner hands back a task for every table, every routine and
    every model that the data set holds. *)
Theorem named_project_keeps_nothing rootDir projectId datasetId options
    w defaultProjectId w1 w2 w3 rr w4 mm w5 tt w6 paths w7 :
  isDryRun options = true ∨ isForce options = true →
  answer _ getProjectId w = (inr defaultProjectId, w1) →
  answer _ (existsSync (JsString.join "/" [rootDir; projectId; datasetId])) w1
    = (inr true, w2) →
  answer _ (datasetGet datasetId
              (if decide (projectId ≠ "@default") then projectId else defaultProjectId))
         w2 = (inr (), w3) →
  answer _ (getRoutines datasetId) w3 = (inr rr, w4) →
  answer _ (getModels datasetId) w4 = (inr mm, w5) →
  answer _ (getTables datasetId) w5 = (inr tt, w6) →
  answer _ (walk (JsString.join "/" [rootDir; projectId; datasetId])) w6
    = (inr paths, w7) →
  Forall (λ p, JsString.includes p "@default" = false) paths →
  (interp answer
     (cleanupBigQueryDataset path2bq rootDir projectId datasetId options) w).1.2 =
    Returned
      (let nsProject :=
         if decide (projectId ≠ "@default") then projectId else defaultProjectId in
       tasks_for nsProject datasetId (isDryRun options) (map_of tt) ++
       tasks_for nsProject datasetId (isDryRun options) (map_of rr) ++
       tasks_for nsProject datasetId (isDryRun options) (map_of mm)).
Proof.
  intros Hquiet Hpid Hfound Hget Hrr Hmm Htt Hwalk Hpaths.
  unfold cleanupBigQueryDataset.
  rewrite interp_await, Hpid, interp_await, Hfound. simpl negb. cbv iota.
  cbn [interp]. rewrite Hget, interp_await, Hrr, interp_await, Hmm,
    interp_await, Htt, interp_await, Hwalk.
  rewrite PlanFacts.filter_none.
  2:{ intros p Hp. rewrite Forall_forall in Hpaths. rewrite (Hpaths p Hp). done. }
  simpl foldl. cbv iota beta. rewrite emit_quiet.
  - simpl. by rewrite app_nil_r.
  - destruct Hquiet as [-> | ->]; [apply andb_false_r|done].
Qed.

End whole.

Lemma named_project_keeps_nothing_witness :
  (interp named_project
     (cleanupBigQueryDataset Identifiers.path2bq "bigquery" "q" "ds" None) ()).1.2 =
    Returned
      (let nsProject := if decide ("q" ≠ "@default") then "q" else "p" in
       tasks_for nsProject "ds" (isDryRun None) (map_of [t1]) ++
       tasks_for nsProject "ds" (isDryRun None) (map_of []) ++
       tasks_for nsProject "ds" (isDryRun None) (map_of [])).
Proof.
  apply (named_project_keeps_nothing named_project Identifiers.path2bq
           "bigquery" "q" "ds" None () "p" () () () [] () [] () [t1] ()
           ["bigquery/q/ds/t/ddl.sql"] ()).
  - left. reflexivity.
  - reflexivity.
  - reflexivity.
  - reflexivity.
  - reflexivity.
  - reflexivity.
  - reflexivity.
  - reflexivity.
  - repeat constructor.
Defined.

End CleanupMore.

(** ** Reading the syntax tree of a file *)

Module SqlTreeFacts.
Import JsString SqlTree JsSetFacts.

Lemma prefix_app_l q b s : String.prefix (q +:+ b) s = true → String.prefix q s = true.
Proof.
  revert s. induction q as [|c q IH]; intros [|c' s]; simpl; try done.
  destruct (ascii_dec c c'); [apply IH|done].
Qed.

Lemma includes_cons c s q : includes s q = true → includes (String c s) q = true.
Proof. intros Hs. cbn [includes]. rewrite Hs. apply orb_true_r. Qed.

Lemma prefix_includes a q b s :
  String.prefix (a +:+ q +:+ b) s = true → includes s q = true.
Proof.
  revert s. induction a as [|c a IH]; intros s.
  - change ("" +:+ q +:+ b) with (q +:+ b).
    intros Hp%prefix_app_l. destruct s; cbn [includes]; by rewrite Hp.
  - destruct s as [|c' s]; simpl; [done|]. destruct (ascii_dec c c'); [|done].
    intros Hp%IH. by apply includes_cons.
Qed.

(** A string that holds [a q b] holds [q]. *)
Lemma includes_part a q b s :
  includes s (a +:+ q +:+ b) = true → includes s q = true.
Proof.
  induction s as [|c s IH].
  - cbn [includes]. rewrite !orb_false_r. intros Hp.
    pose proof (prefix_includes a q b "" Hp) as Hq. cbn [includes] in Hq.
    by rewrite orb_false_r in Hq.
  - intros Hs. change (includes (String c s) (a +:+ q +:+ b))
      with (String.prefix (a +:+ q +:+ b) (String c s) || includes s (a +:+ q +:+ b))
      in Hs.
    apply orb_true_iff in Hs as [Hp|Hs]; [by eapply prefix_includes|].
    apply includes_cons. by apply IH.
Qed.

Section parser.

Variable parse : string → Node.

(** Every destination that is read off a file is the text of an
    identifier whose parent is a statement, with one of the four kinds
    [SCHEMA], [ROUTINE], [TABLE] and [MODEL]. *)
Theorem destinations_come_from_statements sql :
  Forall (λ d : string * string,
            d.2 ∈ ["SCHEMA"; "ROUTINE"; "TABLE"; "MODEL"] ∧
            ∃ n, n ∈ findBigQueryResourceIdentifier (parse sql) ∧ text n = d.1 ∧
                 includes (parent_type n) "statement" = true)
         (extractDestinations parse sql).
Proof.
  unfold extractDestinations. apply Forall_forall. intros [x k] Hd.
  apply list_elem_of_bind in Hd as (n & Hd & Hn). simpl.
  assert (k ∈ ["SCHEMA"; "ROUTINE"; "TABLE"; "MODEL"] ∧ text n = x ∧
          includes (parent_type n) "statement" = true) as (? & ? & ?);
    [|split; [done|by exists n]].
  unfold destination in Hd.
  destruct (includes (parent_type n) "schema_statement") eqn:H1.
  { apply list_elem_of_singleton in Hd as [= <- <-]. split_and!; [repeat constructor|done|].
    by apply (includes_part "schema_" "statement" ""). }
  destruct (includes (parent_type n) "procedure_statement") eqn:H2.
  { apply list_elem_of_singleton in Hd as [= <- <-]. split_and!; [repeat constructor|done|].
    by apply (includes_part "procedure_" "statement" ""). }
  destruct (includes (parent_type n) "function_statement") eqn:H3.
  { apply list_elem_of_singleton in Hd as [= <- <-]. split_and!; [repeat constructor|done|].
    by apply (includes_part "function_" "statement" ""). }
  simpl in Hd.
  destruct (includes (parent_type n) "table_statement") eqn:H4.
  { apply list_elem_of_singleton in Hd as [= <- <-]. split_and!; [repeat constructor|done|].
    by apply (includes_part "table_" "statement" ""). }
  destruct (includes (parent_type n) "create_model_statement") eqn:H5.
  { apply list_elem_of_singleton in Hd as [= <- <-]. split_and!; [repeat constructor|done|].
    by apply (includes_part "create_model_" "statement" ""). }
  destruct (includes (parent_type n) "statement") eqn:H6; simpl in Hd;
    [|by apply elem_of_nil in Hd].
  destruct (includes (parent_type n) "call_statement"); simpl in Hd;
    [by apply elem_of_nil in Hd|].
  apply list_elem_of_singleton in Hd as [= <- <-]. split_and!; [repeat constructor|done..].
Qed.

(** No reference that is read off a file is the name of a common table
    expression of the file, wherever in the file the expression is
    defined. *)
Theorem references_hold_no_CTE sql :
  Forall (λ x, ∀ n, n ∈ findBigQueryResourceIdentifier (parse sql) →
                    includes (parent_type n) "non_recursive_cte" = true →
                    text n ≠ x)
         (extractRefenrences parse sql).
Proof.
  unfold extractRefenrences. apply Forall_forall. intros x Hx n Hn Hcte <-.
  apply list_elem_of_filter in Hx as [Hx _]. apply Hx.
  apply elem_of_of_list, list_elem_of_fmap. exists n. split; [done|].
  by apply list_elem_of_filter.
Qed.

(** Every reference that is read off a file is the text of an identifier
    whose parent is an item of a [FROM] clause, a call of a function or a
    [CALL] statement. *)
Theorem references_come_from_uses sql :
  Forall (λ x, ∃ n, n ∈ findBigQueryResourceIdentifier (parse sql) ∧ text n = x ∧
                    (includes (parent_type n) "from_item" = true ∨
                     includes (parent_type n) "function_call" = true ∨
                     includes (parent_type n) "call_statement" = true))
         (extractRefenrences parse sql).
Proof.
  unfold extractRefenrences. apply Forall_forall. intros x Hx.
  apply list_elem_of_filter in Hx as [_ Hx].
  apply list_elem_of_bind in Hx as (n & Hx & Hn). exists n. split; [done|].
  unfold reference in Hx. rewrite !elem_of_app in Hx.
  destruct Hx as [Hx|[Hx|Hx]].
  - destruct (includes (parent_type n) "from_item"); [|by apply elem_of_nil in Hx].
    apply list_elem_of_singleton in Hx. auto.
  - destruct (includes (parent_type n) "function_call"); [|by apply elem_of_nil in Hx].
    apply list_elem_of_singleton in Hx. auto.
  - destruct (includes (parent_type n) "call_statement"); [|by apply elem_of_nil in Hx].
    apply list_elem_of_singleton in Hx. auto.
Qed.

End parser.

End SqlTreeFacts.

(** ** The reporter *)

Module ReportFacts.
Import TaskModel Report.

Section reporter.

Variable spinnerFrames : list string.
Variables (F_CHECK F_CROSS : string).
Variables (green red gray bold : string → string).

Local Abbreviation spin := (spin spinnerFrames).
Local Abbreviation spun := (spun spinnerFrames).

(** A spinner goes round the frames: its [n]-th call gives the frame at
    the place [n] modulo the number of frames, so that a new spinner
    begins with the second frame and gives the first frame last. *)
Theorem spinner_goes_round n :
  spinnerFrames ≠ [] →
  spun n = (n mod length spinnerFrames)%nat ∧
  (spin (spun n)).2 =
    default "" (spinnerFrames !! ((n + 1) mod length spinnerFrames)%nat) ∧
  is_Some (spinnerFrames !! ((n + 1) mod length spinnerFrames)%nat).
Proof.
  intros Hframes.
  assert (spun n = (n mod length spinnerFrames)%nat) as Hn.
  { induction n as [|n IH]; [by rewrite Nat.Div0.mod_0_l|].
    change (spun (S n)) with (spin (spun n)).1. rewrite IH.
    unfold Report.spin. cbn [fst].
    rewrite Nat.Div0.add_mod_idemp_l. f_equal. lia. }
  split_and!; [done| |].
  - unfold Report.spin. simpl. rewrite Hn.
    by rewrite Nat.Div0.add_mod_idemp_l.
  - apply lookup_lt_is_Some_2, Nat.mod_upper_bound.
    by destruct spinnerFrames.
Qed.

(** *** The spinners after a report *)

Local Abbreviation task_spin := (task_spin spinnerFrames).
Local Abbreviation report_task :=
  (report_task spinnerFrames F_CHECK F_CROSS green red gray bold).
Local Abbreviation report_tasks :=
  (report_tasks spinnerFrames F_CHECK F_CROSS green red gray bold).
Local Abbreviation childStingifier :=
  (childStingifier spinnerFrames F_CHECK F_CROSS green red gray bold).
Local Abbreviation report_tree_from :=
  (report_tree_from spinnerFrames F_CHECK F_CROSS green red gray bold).
Local Abbreviation report_tree :=
  (report_tree spinnerFrames F_CHECK F_CROSS green red gray bold).
Local Abbreviation advance := (advance spinnerFrames).

Local Abbreviation step :=
  (λ (spins : gmap nat nat) (t : nat * Task),
     match status t.2 with
     | running => (task_spin spins t.1).2
     | _ => spins
     end).

Lemma task_spin_eq spins id :
  (task_spin spins id).2 =
    <[id := ((default 0 (spins !! id) + 1) mod length spinnerFrames)%nat]> spins.
Proof. done. Qed.

Lemma step_comm spins a b : step (step spins a) b = step (step spins b) a.
Proof.
  destruct a as [i ta], b as [j tb]. cbn [fst snd].
  destruct (status ta), (status tb); try done.
  rewrite !task_spin_eq. destruct (decide (i = j)) as [->|Hne].
  - by rewrite !lookup_insert_eq, !insert_insert_eq.
  - rewrite !lookup_insert_ne by done. by apply insert_insert_ne.
Qed.

Lemma advance_app spins l1 l2 :
  advance spins (l1 ++ l2) = advance (advance spins l1) l2.
Proof. apply foldl_app. Qed.

Lemma advance_Permutation spins l1 l2 :
  l1 ≡ₚ l2 → advance spins l1 = advance spins l2.
Proof.
  intros Hperm. revert spins.
  induction Hperm as [|x l l' _ IH|x y l|l l' l'' _ IH1 _ IH2]; intros spins.
  - done.
  - apply IH.
  - unfold Report.advance. simpl. f_equal. apply step_comm.
  - by rewrite IH1.
Qed.

Lemma report_task_spins spins t : (report_task spins t).2 = step spins t.
Proof.
  destruct t as [id task]. unfold Report.report_task. simpl.
  by destruct (status task).
Qed.

Lemma report_tasks_spins spins tasks :
  (report_tasks spins tasks).2 = advance spins tasks.
Proof.
  unfold Report.report_tasks.
  enough (∀ lines,
    (foldl (λ '(lines, spins) t,
              let '(line, spins') := report_task spins t in (lines ++ [line], spins'))
           (lines, spins) tasks).2 = advance spins tasks) as Hgen by apply Hgen.
  revert spins.
  induction tasks as [|t tasks IH]; intros spins lines; [done|]. simpl.
  pose proof (report_task_spins spins t) as Ht.
  destruct (report_task spins t) as [line spins']. simpl in Ht. subst spins'.
  apply IH.
Qed.

Lemma childStingifier_spins spins tasks level :
  (childStingifier spins tasks level).2 = advance spins tasks.
Proof.
  unfold Report.childStingifier.
  pose proof (report_tasks_spins spins tasks) as Ht.
  by destruct (report_tasks spins tasks) as [lines spins'].
Qed.

(** The groups hold every task once. *)
Lemma group_add_spec (acc : list (string * list (nat * Task))) key t :
  NoDup acc.*1 →
  NoDup (group_add acc key t).*1 ∧
  mjoin (group_add acc key t).*2 ≡ₚ mjoin acc.*2 ++ [t].
Proof.
  intros Hnd. unfold group_add. destruct (decide (key ∈ acc.*1)) as [Hin|Hin].
  - induction acc as [|[k l] acc IH]; [by apply elem_of_nil in Hin|].
    csimpl in *. apply NoDup_cons in Hnd as [Hk Hnd].
    destruct (decide (k = key)) as [->|Hne].
    + assert (((λ e : string * list (nat * Task),
                  if decide (e.1 = key) then (e.1, e.2 ++ [t]) else e) <$> acc) = acc)
        as ->.
      { rewrite <- (list_fmap_id acc) at 2. apply list_fmap_ext.
        intros i [k' l'] Hi%list_elem_of_lookup_2. simpl.
        rewrite decide_False; [done|]. intros ->. apply Hk.
        apply list_elem_of_fmap. by exists (key, l'). }
      split; [by apply NoDup_cons|]. simpl. solve_Permutation.
    + apply elem_of_cons in Hin as [?|Hin]; [congruence|].
      destruct (IH Hnd Hin) as [IHn IHp]. split.
      * apply NoDup_cons. split; [|done].
        rewrite <- list_fmap_compose. intros (e & He & Hin')%list_elem_of_fmap.
        apply Hk. apply list_elem_of_fmap. exists e. split; [|done].
        simpl in He. by destruct (decide (e.1 = key)).
      * by rewrite IHp, app_assoc.
  - rewrite !fmap_app, join_app. csimpl. rewrite ?app_nil_r. split; [|done].
    apply NoDup_app. split_and!; [done| |apply NoDup_singleton].
    intros k Hk ->%list_elem_of_singleton. done.
Qed.

Lemma groups_spec level (tasks : list (nat * Task)) :
  NoDup (groups level tasks).*1 ∧ mjoin (groups level tasks).*2 ≡ₚ tasks.
Proof.
  unfold groups. induction tasks as [|t tasks IH] using rev_ind.
  - split; [apply NoDup_nil_2|done].
  - rewrite foldl_snoc. destruct IH as [IHn IHp].
    destruct (group_add_spec _ (group_key level t.2) t IHn) as [Hn Hp].
    split; [done|]. by rewrite Hp, IHp.
Qed.

Lemma fold_groups_spins
    (F : string * gmap nat nat → string * list (nat * Task) → string * gmap nat nat)
    (gs : list (string * list (nat * Task))) :
  (∀ s spins key ts, (F (s, spins) (key, ts)).2 = advance spins ts) →
  ∀ s spins, (foldl F (s, spins) gs).2 = advance spins (mjoin gs.*2).
Proof.
  intros HF. induction gs as [|[key ts] gs IH]; intros s spins; [done|].
  csimpl. rewrite advance_app. specialize (HF s spins key ts).
  destruct (F (s, spins) (key, ts)) as [s' spins']. simpl in HF. subst spins'.
  apply IH.
Qed.

Lemma report_tree_from_spins depth spins tasks level :
  (report_tree_from depth spins tasks level).2 = advance spins tasks.
Proof.
  revert spins tasks level. induction depth as [|depth IH]; intros spins tasks level;
    rewrite <- (advance_Permutation spins _ _ (proj2 (groups_spec level tasks)));
    cbn [Report.report_tree_from]; apply fold_groups_spins; intros s sp key ts.
  - destruct (decide (key = "#tail")).
    + pose proof (childStingifier_spins sp ts level) as Ht.
      by destruct (childStingifier sp ts level) as [x spins'].
    + pose proof (childStingifier_spins sp ts (level + 1)) as Ht.
      by destruct (childStingifier sp ts (level + 1)) as [x spins'].
  - destruct (decide (key = "#tail")).
    + pose proof (childStingifier_spins sp ts level) as Ht.
      by destruct (childStingifier sp ts level) as [x spins'].
    + pose proof (IH sp ts (level + 1)%nat) as Ht.
      by destruct (report_tree_from depth sp ts (level + 1)) as [x spins'].
Qed.

(** A report asks every running task for one frame of its spinner, once,
    and no other task, however the names of the tasks nest and whatever
    the level at which the tree is cut: every task is shown once. *)
Theorem report_tree_spins_once spins tasks level max_level :
  (report_tree spins tasks level max_level).2 = advance spins tasks.
Proof. apply report_tree_from_spins. Qed.

End reporter.

Lemma spinner_goes_round_witness :
  spun ["-"; "+"; "|"; "/"] 7 = (7 mod 4)%nat ∧
  (spin ["-"; "+"; "|"; "/"] (spun ["-"; "+"; "|"; "/"] 7)).2 =
    default "" (["-"; "+"; "|"; "/"] !! ((7 + 1) mod 4)%nat) ∧
  is_Some (["-"; "+"; "|"; "/"] !! ((7 + 1) mod 4)%nat).
Proof. apply (spinner_goes_round ["-"; "+"; "|"; "/"] 7). discriminate. Defined.

(** The tree of three tasks, with four frames, plain figures and no
    colours; the last line is the line of the pending task. *)
Example report_tree_three_tasks :
  report_tree ["-"; "+"; "|"; "/"] "v" "x" id id id id ∅ three_tasks 0 4 =
  (JsString.join Executor.LF
     ["a"; "  v x.sql  (1B)"; "  b"; "    + y.sql"; ""; ""],
   {[1%nat := 1%nat]}).
Proof. vm_compute. reflexivity. Qed.

End ReportFacts.

(** ** The options of [push] on the command line *)

Module CliFacts.
Import JsString Cli JsStringFacts.

Lemma split_free c s : free c s → split c s = [s].
Proof.
  unfold free. induction s as [|a s IH]; [done|]. simpl. rewrite not_elem_of_cons.
  intros [Hne Hs]. rewrite (proj2 (Ascii.eqb_neq a c)) by done. by rewrite IH.
Qed.

Lemma split_app c a b :
  free c a → split c (a +:+ String c b) = a :: split c b.
Proof.
  unfold free. induction a as [|x a IH]; simpl.
  - intros _. by rewrite Ascii.eqb_refl.
  - rewrite not_elem_of_cons. intros [Hne Ha].
    rewrite (proj2 (Ascii.eqb_neq x c)) by done. by rewrite IH.
Qed.

Section cli.

Variable parseInt : string → option Z.

Local Abbreviation parse_parameter := (parse_parameter parseInt).

(** A parameter written [name:type:value], where no part holds a colon
    and the value is not empty, is read as the pair of the name and the
    value, which goes through [parseInt] when the type is [integers] and
    stays a string for every other type, the empty one too; and what
    follows a further colon is dropped. *)
Theorem parameter_is_read name type value rest :
  free ":"%char name → free ":"%char type → free ":"%char value → value ≠ "" →
  parse_parameter (name +:+ ":" +:+ type +:+ ":" +:+ value) =
    Some (name,
          if bool_decide (type = "integers") then PNumber (parseInt value)
          else PString value) ∧
  parse_parameter (name +:+ ":" +:+ type +:+ ":" +:+ value +:+ ":" +:+ rest) =
    parse_parameter (name +:+ ":" +:+ type +:+ ":" +:+ value).
Proof.
  intros Hname Htype Hvalue Hne.
  assert (
    JsString.split ":" (name +:+ ":" +:+ type +:+ ":" +:+ value) = [name; type; value] ∧
    JsString.split ":" (name +:+ ":" +:+ type +:+ ":" +:+ value +:+ ":" +:+ rest)
      = name :: type :: value :: JsString.split ":" rest) as [Hshort Hlong].
  { split.
    - change (name +:+ ":" +:+ type +:+ ":" +:+ value)
        with (name +:+ String ":" (type +:+ String ":" value)).
      by rewrite !split_app, split_free.
    - change (name +:+ ":" +:+ type +:+ ":" +:+ value +:+ ":" +:+ rest)
        with (name +:+ String ":" (type +:+ String ":" (value +:+ String ":" rest))).
      by rewrite !split_app. }
  unfold Cli.parse_parameter. rewrite Hshort, Hlong. simpl.
  rewrite bool_decide_eq_false_2 by done. split; [|done].
  do 2 f_equal.
  rewrite (bool_decide_ext (Some type = Some "integers") (type = "integers")); [done|].
  split; [by intros [= ->]|by intros ->].
Qed.

End cli.

Lemma parameter_is_read_witness :
  parse_parameter (λ _, None) "day::2020-01-01" = Some ("day", PString "2020-01-01") ∧
  parse_parameter (λ _, None) "day::2020-01-01:00" =
    parse_parameter (λ _, None) "day::2020-01-01".
Proof.
  apply (parameter_is_read (λ _, None) "day" "" "2020-01-01" "00").
  - apply (bool_decide_unpack _). vm_compute. exact I.
  - apply (bool_decide_unpack _). vm_compute. exact I.
  - apply (bool_decide_unpack _). vm_compute. exact I.
  - discriminate.
Defined.

End CliFacts.

(** ** What a file depends on *)

Module AnalysisFacts.
Import JsString JsSet Planner Cli JsStringFacts JsSetFacts CliFacts.

Lemma split_snoc c a b :
  free c b → split c (a +:+ String c b) = split c a ++ [b].
Proof.
  intros Hb. induction a as [|x a IH]; simpl.
  - by rewrite Ascii.eqb_refl, split_free.
  - destruct (Ascii.eqb x c); [by rewrite IH|]. rewrite IH.
    destruct (split c a) as [|w ws] eqn:Hs; [by apply split_nonempty in Hs|]. done.
Qed.

Lemma join_split c s : join (String c "") (split c s) = s.
Proof.
  unfold join. induction s as [|a s IH]; [done|]. cbn [split].
  destruct (split c s) as [|w ws] eqn:Hs; [by apply split_nonempty in Hs|].
  destruct (Ascii.eqb a c) eqn:Hac.
  - apply Ascii.eqb_eq in Hac as ->.
    change (String.concat (String c "") ("" :: w :: ws))
      with (String c (String.concat (String c "") (w :: ws))).
    by rewrite IH.
  - destruct ws as [|w' ws].
    + simpl in *. by rewrite IH.
    + change (String.concat (String c "") (String a w :: w' :: ws))
        with (String a (String.concat (String c "") (w :: w' :: ws))).
      by rewrite IH.
Qed.

(** The last dotted segment is cut off with its dot when it is not
    empty: [project.dataset.table] gives [project.dataset]. *)
Lemma strip_last_segment_cuts q t :
  t ≠ "" → free "." t → strip_last_segment (q +:+ "." +:+ t) = q.
Proof.
  intros Hne Ht. unfold strip_last_segment.
  change (q +:+ "." +:+ t) with (q +:+ String "." t).
  rewrite split_snoc, reverse_snoc by done.
  destruct (reverse (split "." q)) as [|w ws] eqn:Hr.
  { apply (f_equal reverse) in Hr. rewrite reverse_involutive in Hr.
    by apply split_nonempty in Hr. }
  rewrite decide_False by done. rewrite <- Hr, reverse_involutive.
  apply join_split.
Qed.

Section analysis.

Variable path2bq : string → string → string → string.
Variable normalizedBQPath : string → string → bool → string.
Variable extractRefenrences : string → list string.
Variable readFile : string → string.
Variables (rootPath defaultProjectId : string).

Local Abbreviation extractBigQueryDependencies :=
  (extractBigQueryDependencies path2bq normalizedBQPath extractRefenrences
     readFile rootPath defaultProjectId).

(** The dependencies found for a file hold no name twice.  They hold the
    normalized name of every table that the text of the file refers to
    and, when that name ends in a dot and a segment that is not empty,
    the name without them: the data set of the table.  They hold the
    normalized second segment of the identifier of the file when it has a
    third one: the data set of the file.  And they hold nothing else. *)
Theorem dependencies_of_file fpath :
  let parts := split "." (path2bq fpath rootPath defaultProjectId) in
  let projectID := default "" (parts !! 0%nat) in
  let deps := extractBigQueryDependencies fpath in
  NoDup deps ∧
  (∀ ref q t,
     ref ∈ extractRefenrences (readFile fpath) →
     normalizedBQPath ref projectID false = q +:+ "." +:+ t →
     t ≠ "" → free "." t →
     q +:+ "." +:+ t ∈ deps ∧ q ∈ deps) ∧
  (∀ schema resource,
     parts !! 1%nat = Some schema → parts !! 2%nat = Some resource →
     normalizedBQPath schema projectID true ∈ deps) ∧
  (∀ d, d ∈ deps →
     (∃ ref, ref ∈ extractRefenrences (readFile fpath) ∧
        (d = normalizedBQPath ref projectID false ∨
         d = strip_last_segment (normalizedBQPath ref projectID false))) ∨
     (∃ schema resource,
        parts !! 1%nat = Some schema ∧ parts !! 2%nat = Some resource ∧
        d = normalizedBQPath schema projectID true)).
Proof.
  intros parts projectID deps.
  assert (∀ d, d ∈ deps ↔
    (∃ ref, ref ∈ extractRefenrences (readFile fpath) ∧
       (d = normalizedBQPath ref projectID false ∨
        d = strip_last_segment (normalizedBQPath ref projectID false))) ∨
    (∃ schema resource,
       parts !! 1%nat = Some schema ∧ parts !! 2%nat = Some resource ∧
       d = normalizedBQPath schema projectID true)) as Hdeps.
  { intros d. unfold deps, Planner.extractBigQueryDependencies.
    fold parts. fold projectID.
    rewrite elem_of_of_list, !elem_of_app, list_elem_of_fmap.
    setoid_rewrite elem_of_of_list. setoid_rewrite elem_of_of_list.
    setoid_rewrite list_elem_of_fmap. split.
    - intros [(n & -> & ref & -> & Href)|[(ref & -> & Href)|Hadd]].
      + left. exists ref. auto.
      + left. exists ref. auto.
      + right. destruct (parts !! 1%nat) as [schema|]; [|by apply elem_of_nil in Hadd].
        destruct (parts !! 2%nat) as [resource|]; [|by apply elem_of_nil in Hadd].
        apply list_elem_of_singleton in Hadd as ->. by exists schema, resource.
    - intros [(ref & Href & [->| ->])|(schema & resource & -> & -> & ->)].
      + right. left. by exists ref.
      + left. eexists. split; [done|]. by exists ref.
      + right. right. by left. }
  split_and!.
  - apply NoDup_of_list.
  - intros ref q t Href Hn Hne Ht. split; apply Hdeps; left; exists ref.
    + split; [done|]. by left.
    + split; [done|]. right. by rewrite Hn, strip_last_segment_cuts.
  - intros schema resource H1 H2. apply Hdeps. right. by exists schema, resource.
  - intros d. apply Hdeps.
Qed.

End analysis.

End AnalysisFacts.

(** ** From the files to the run *)

Module PlanRunFacts.
Import TopoSort TopoSpec TopoSound TopoSoundFacts JsSetFacts.
Import TaskModel Planner Scheduler PlanExamples RunSpec SchedulerFacts PlanFacts RunFacts.

Lemma first_occurrence {A} (l1 l1' l2 l2' : list A) x :
  l1 ++ x :: l2 = l1' ++ x :: l2' → x ∉ l1 → x ∉ l1' → l1 = l1'.
Proof.
  revert l1'. induction l1 as [|a l1 IH]; intros [|a' l1']; simpl;
    intros Heq; inversion Heq; subst; rewrite ?not_elem_of_cons;
    [done|tauto|tauto|].
  intros [_ ?] [_ ?]. f_equal. by apply IH.
Qed.

(** When the planner has built the [DAG] map from the files, a task whose
    job has its own name space among its destinations is deployed after
    the name spaces that its job depends on and does not create: in every
    run, once [deployBigQueryResouce] has been called for the task, the
    tasks of every such name space have all ended as [success]. *)
Theorem own_dependency_deployed_first results dag task_name concurrency
    evs s r job d p :
  build_DAG results = Some (inr dag) →
  steps dag concurrency (init dag task_name) evs = Some s →
  r ∈ deployed s → job_of dag r = Some job →
  r.1 ∈ destinations job → d ∈ dependencies job → d ∉ destinations job →
  p ∈ tasks_of dag d →
  status_of s p = Some success.
Proof.
  intros Hbuild Hsteps Hdep Hjob Hown Hd Hnd Hp.
  destruct (build_DAG_eq _ _ Hbuild) as (order & Hsort & Hdag).
  destruct (build_DAG_keys _ _ Hbuild) as (order' & Hsort' & Hkeys).
  rewrite Hsort in Hsort'. injection Hsort' as <-.
  destruct (Sound_Return _ _ Hsort) as (Hnodup & _ & Hord).
  destruct (task_position dag r job Hjob)
    as (d1 & jobs & d2 & Hsplit & Hd1 & Hix & _).
  assert (job ∈ results ∧ namespace job = r.1) as [Hres Hns].
  { assert ((r.1, jobs) ∈ dag) as Hin
      by (rewrite Hsplit, elem_of_app, elem_of_cons; auto).
    rewrite Hdag in Hin. apply list_elem_of_fmap in Hin as (ns & [= -> ->] & _).
    apply list_elem_of_lookup_2 in Hix. by apply list_elem_of_filter in Hix as [? ?]. }
  assert (edge (relations results) r.1 d) as Hedge.
  { apply relations_elem. split; [intros Heq; apply Hnd; by rewrite <- Heq|]. exists job. auto. }
  assert (d ∈ dag.*1) as Hkey.
  { unfold tasks_of in Hp.
    destruct (DAG_get dag d) as [jobs_d|] eqn:Hget; [|by apply elem_of_nil in Hp].
    destruct (DAG_get_split dag d jobs_d Hget) as (e1 & e2 & -> & _).
    rewrite fmap_app, fmap_cons, elem_of_app, elem_of_cons. auto. }
  assert (r.1 ∈ order) as Hr.
  { assert (r.1 ∈ dag.*1) as Hin
      by (rewrite Hsplit, fmap_app, fmap_cons, elem_of_app, elem_of_cons; auto).
    rewrite Hkeys in Hin. by apply list_elem_of_filter in Hin as [_ ?]. }
  apply list_elem_of_split in Hr as (l1 & l2 & Horder).
  pose proof (Hord l1 r.1 l2 d Horder Hedge) as Hbefore.
  assert (d ∈ d1.*1) as Hin1.
  { rewrite Hkeys in Hkey. apply list_elem_of_filter in Hkey as [HP _].
    assert (r.1 ∉ l1) as Hl1.
    { rewrite Horder in Hnodup. apply NoDup_app in Hnodup as (_ & Hdisj & _).
      intros Hin. apply (Hdisj _ Hin). left. }
    assert (filter (λ ns, filter (λ r, namespace r = ns) results ≠ []) (r.1 :: l2)
            = r.1 :: filter (λ ns, filter (λ r, namespace r = ns) results ≠ []) l2)
      as Hcons.
    { rewrite filter_cons, decide_True; [done|].
      intros Hnil. eapply (filter_nil_not_elem_of _ _ job); done. }
    rewrite Horder, filter_app, Hcons, Hsplit, fmap_app, fmap_cons in Hkeys.
    simpl in Hkeys. apply first_occurrence in Hkeys as ->; [|done|].
    - by apply list_elem_of_filter.
    - rewrite list_elem_of_filter. tauto. }
  by apply (after_sorted_dependency dag task_name concurrency evs s r job d d1 jobs d2 p).
Qed.

Lemma own_dependency_deployed_first_witness :
  ∃ s, steps dag_z_t 8 (init dag_z_t (task_name "/work" "bigquery" "p")) run_z_t = Some s ∧
    ("p.ds.t", 0%nat) ∈ deployed s ∧
    status_of s ("p.ds.z", 0%nat) = Some success.
Proof.
  eexists. split; [vm_compute; reflexivity|]. split.
  - apply (bool_decide_unpack _). vm_compute. exact I.
  - apply (own_dependency_deployed_first [create_t; check_t; create_z] dag_z_t
             (task_name "/work" "bigquery" "p") 8 run_z_t _ ("p.ds.t", 0%nat) create_t "p.ds.z").
    + vm_compute. reflexivity.
    + vm_compute. reflexivity.
    + apply (bool_decide_unpack _). vm_compute. exact I.
    + reflexivity.
    + apply (bool_decide_unpack _). vm_compute. exact I.
    + apply (bool_decide_unpack _). vm_compute. exact I.
    + apply (bool_decide_unpack _). vm_compute. exact I.
    + apply (bool_decide_unpack _). vm_compute. exact I.
Defined.

End PlanRunFacts.
